(** * Trivia quiz scoreboard (script.js): a shallow embedding

    The page script keeps a list of score records in [localStorage] under the
    key "scores" (as JSON text), a sort preference under "scoreSort", and
    renders the list as a table.  This file embeds

    - the platform pieces the script calls: strings as sequences of UTF-16
      code units, JSON values with [JSON.stringify] / [JSON.parse],
      [Array.prototype.sort], [Math.round], [String.prototype.trim];
    - the script's own functions, under their own names:
      [getSortPreference], [getScoresFromStorage], [setScoresInStorage],
      [saveScoreToStorage], [displayScores], [handleFormSubmit],
      [clearScores], ...

    Numbers.  A JavaScript Number is an IEEE-754 double.  The embedding
    takes a finite double as the rational it denotes and writes the rounding
    out: [to_double] gives the double nearest to an exact result (53
    significant bits, half-way cases to the even significand), and the
    quotient, the product and the difference of the script are rounded with
    it, as the platform rounds them.  Counts of questions and millisecond
    timestamps are integers far below 2^53, which are doubles themselves.
    The exponent of a double is not bounded in the embedding; quotients,
    products and differences of such integers do not come near the bounds.
    The lemmas [ratio64_model] and [percent64_model] check the rounding
    against the primitive doubles of the Standard Library on every quiz of
    up to 100 questions, and [mixed_rounding] at the places where the
    exact arithmetic and the doubles part (23 out of 40 is 57.5 percent and
    shows as 57; two ratios next to 1 over totals of 2^27 are the same
    double). *)

From Stdlib Require Import ZArith QArith Qround Qcanon Qpower Lia Lqa List Ascii String.
From Stdlib Require Import DecimalN DecimalFacts PrimFloat SpecFloat FloatOps.
From stdpp Require Import base gmap strings list sorting.

Local Open Scope Z_scope.
Set Warnings "-register-all".

(** ** Strings *)

(** A JavaScript string is a finite sequence of 16-bit code units. *)
Definition jstring := list N.

(** Code units of an ASCII literal. *)
Definition js (s : string) : jstring :=
  List.map N_of_ascii (list_ascii_of_string s).

Module Ch.
Definition tab : N := 9.
Definition lf : N := 10.
Definition cr : N := 13.
Definition space : N := 32.
Definition quote : N := 34.
Definition plus : N := 43.
Definition comma : N := 44.
Definition minus : N := 45.
Definition dot : N := 46.
Definition slash : N := 47.
Definition zero : N := 48.
Definition colon : N := 58.
Definition upper_e : N := 69.
Definition lbracket : N := 91.
Definition backslash : N := 92.
Definition rbracket : N := 93.
Definition lower_b : N := 98.
Definition lower_e : N := 101.
Definition lower_f : N := 102.
Definition lower_n : N := 110.
Definition lower_r : N := 114.
Definition lower_t : N := 116.
Definition lower_u : N := 117.
Definition lbrace : N := 123.
Definition rbrace : N := 125.
End Ch.

(** ** JSON values *)

(** What [JSON.parse] can return.  A number is the rational it denotes;
    the numerals that the script writes are integers below 2^53, which the
    parser reads back as they are (a numeral that is no double is kept as
    it is written here, where the platform would round it).  The members of
    an object are kept in their enumeration order. *)
Inductive value : Type :=
  | VNull
  | VBool (b : bool)
  | VNum (q : Q)
  | VStr (s : jstring)
  | VArr (elems : list value)
  | VObj (members : list (jstring * value)).

(** *** Decimal digits *)

Definition digit_char (d : N) : N := (Ch.zero + d)%N.

Fixpoint uint_chars (u : Decimal.uint) : jstring :=
  match u with
  | Decimal.Nil => []
  | Decimal.D0 u => digit_char 0 :: uint_chars u
  | Decimal.D1 u => digit_char 1 :: uint_chars u
  | Decimal.D2 u => digit_char 2 :: uint_chars u
  | Decimal.D3 u => digit_char 3 :: uint_chars u
  | Decimal.D4 u => digit_char 4 :: uint_chars u
  | Decimal.D5 u => digit_char 5 :: uint_chars u
  | Decimal.D6 u => digit_char 6 :: uint_chars u
  | Decimal.D7 u => digit_char 7 :: uint_chars u
  | Decimal.D8 u => digit_char 8 :: uint_chars u
  | Decimal.D9 u => digit_char 9 :: uint_chars u
  end.

Definition is_digit (c : N) : bool := (48 <=? c)%N && (c <=? 57)%N.

Definition digit_of (c : N) : option (Decimal.uint -> Decimal.uint) :=
  if (c =? 48)%N then Some Decimal.D0
  else if (c =? 49)%N then Some Decimal.D1
  else if (c =? 50)%N then Some Decimal.D2
  else if (c =? 51)%N then Some Decimal.D3
  else if (c =? 52)%N then Some Decimal.D4
  else if (c =? 53)%N then Some Decimal.D5
  else if (c =? 54)%N then Some Decimal.D6
  else if (c =? 55)%N then Some Decimal.D7
  else if (c =? 56)%N then Some Decimal.D8
  else if (c =? 57)%N then Some Decimal.D9
  else None.

(** The longest prefix of decimal digits, and what follows it. *)
Fixpoint take_digits (s : jstring) : Decimal.uint * jstring :=
  match s with
  | [] => (Decimal.Nil, [])
  | c :: r =>
      match digit_of c with
      | Some d => let '(u, r') := take_digits r in (d u, r')
      | None => (Decimal.Nil, s)
      end
  end.

(** Number::toString on an integer: an optional minus sign and the decimal
    digits, no leading zero. *)
Definition Z_toString (z : Z) : jstring :=
  (if z <? 0 then [Ch.minus] else []) ++ uint_chars (N.to_uint (Z.abs_N z)).

(** Digits of the fractional part [r / d] (with [0 <= r < d]), at most
    [fuel] of them, stopping when the remainder vanishes. *)
Fixpoint frac_digits (fuel : nat) (r d : Z) : jstring :=
  match fuel with
  | O => []
  | S fuel' =>
      if r =? 0 then []
      else digit_char (Z.to_N (10 * r / d)) :: frac_digits fuel' (10 * r mod d) d
  end.

(** Number::toString.  Integers print as their digits (the integers of the
    script are far below 10^21, where JavaScript turns to the exponent
    form); for other values, which the script never prints, the
    embedding writes the decimal expansion, cut after 17 fractional
    digits. *)
Definition Number_toString (q : Q) : jstring :=
  let q' := Qred q in
  let n := Qnum q' in
  let d := Zpos (Qden q') in
  if d =? 1 then Z_toString n
  else (if n <? 0 then [Ch.minus] else [])
         ++ uint_chars (N.to_uint (Z.to_N (Z.abs n / d)))
         ++ Ch.dot :: frac_digits 17 (Z.abs n mod d) d.

(** *** JSON.stringify *)

Definition hex_digit (d : N) : N :=
  if (d <? 10)%N then (48 + d)%N else (87 + d)%N.

(** The escape [\uXXXX] with four lower-case hexadecimal digits. *)
Definition unicode_escape (c : N) : jstring :=
  [Ch.backslash; Ch.lower_u;
   hex_digit (c / 4096 mod 16); hex_digit (c / 256 mod 16);
   hex_digit (c / 16 mod 16); hex_digit (c mod 16)]%N.

Definition is_high_surrogate (c : N) : bool := (55296 <=? c)%N && (c <=? 56319)%N.
Definition is_low_surrogate (c : N) : bool := (56320 <=? c)%N && (c <=? 57343)%N.

(** One code unit inside a JSON string literal. *)
Definition quote_char (c : N) : jstring :=
  if (c =? 8)%N then [Ch.backslash; Ch.lower_b]
  else if (c =? Ch.tab)%N then [Ch.backslash; Ch.lower_t]
  else if (c =? Ch.lf)%N then [Ch.backslash; Ch.lower_n]
  else if (c =? 12)%N then [Ch.backslash; Ch.lower_f]
  else if (c =? Ch.cr)%N then [Ch.backslash; Ch.lower_r]
  else if (c =? Ch.quote)%N then [Ch.backslash; Ch.quote]
  else if (c =? Ch.backslash)%N then [Ch.backslash; Ch.backslash]
  else if (c <? 32)%N then unicode_escape c
  else if is_high_surrogate c || is_low_surrogate c then unicode_escape c
  else [c].

(** QuoteJSONString without the surrounding quotes.  A high surrogate
    directly followed by a low surrogate is a code point and is copied; a
    lone surrogate is escaped. *)
Fixpoint quote_body (s : jstring) : jstring :=
  match s with
  | [] => []
  | c :: r =>
      if is_high_surrogate c then
        match r with
        | d :: r' =>
            if is_low_surrogate d then c :: d :: quote_body r'
            else quote_char c ++ quote_body r
        | [] => quote_char c
        end
      else quote_char c ++ quote_body r
  end.

Definition QuoteJSONString (s : jstring) : jstring :=
  Ch.quote :: quote_body s ++ [Ch.quote].

Fixpoint JSON_stringify (v : value) : jstring :=
  match v with
  | VNull => js "null"
  | VBool true => js "true"
  | VBool false => js "false"
  | VNum q => Number_toString q
  | VStr s => QuoteJSONString s
  | VArr l =>
      Ch.lbracket ::
        (fix elems (l : list value) : jstring :=
           match l with
           | [] => [Ch.rbracket]
           | x :: l' =>
               JSON_stringify x ++
                 match l' with
                 | [] => [Ch.rbracket]
                 | _ :: _ => Ch.comma :: elems l'
                 end
           end) l
  | VObj m =>
      Ch.lbrace ::
        (fix members (m : list (jstring * value)) : jstring :=
           match m with
           | [] => [Ch.rbrace]
           | (k, x) :: m' =>
               QuoteJSONString k ++ Ch.colon :: JSON_stringify x ++
                 match m' with
                 | [] => [Ch.rbrace]
                 | _ :: _ => Ch.comma :: members m'
                 end
           end) m
  end.

(** *** JSON.parse *)

Definition is_ws (c : N) : bool :=
  (c =? Ch.space)%N || (c =? Ch.tab)%N || (c =? Ch.lf)%N || (c =? Ch.cr)%N.

Fixpoint skip_ws (s : jstring) : jstring :=
  match s with
  | [] => []
  | c :: r => if is_ws c then skip_ws r else s
  end.

Definition hex_value (c : N) : option N :=
  if (48 <=? c)%N && (c <=? 57)%N then Some (c - 48)%N
  else if (97 <=? c)%N && (c <=? 102)%N then Some (c - 87)%N
  else if (65 <=? c)%N && (c <=? 70)%N then Some (c - 55)%N
  else None.

(** The character an escape [\e] stands for ([\u] is handled apart). *)
Definition unescape (e : N) : option N :=
  if (e =? Ch.quote)%N then Some Ch.quote
  else if (e =? Ch.backslash)%N then Some Ch.backslash
  else if (e =? Ch.slash)%N then Some Ch.slash
  else if (e =? Ch.lower_b)%N then Some 8%N
  else if (e =? Ch.lower_f)%N then Some 12%N
  else if (e =? Ch.lower_n)%N then Some Ch.lf
  else if (e =? Ch.lower_r)%N then Some Ch.cr
  else if (e =? Ch.lower_t)%N then Some Ch.tab
  else None.

(** A string literal after its opening quote: the string and the text after
    the closing quote.  Raw control characters are not allowed. *)
Fixpoint parse_string_body (s : jstring) : option (jstring * jstring) :=
  match s with
  | [] => None
  | c :: r =>
      if (c =? Ch.quote)%N then Some ([], r)
      else if (c =? Ch.backslash)%N then
        match r with
        | [] => None
        | e :: r1 =>
            if (e =? Ch.lower_u)%N then
              match r1 with
              | h1 :: h2 :: h3 :: h4 :: r2 =>
                  match hex_value h1, hex_value h2, hex_value h3, hex_value h4 with
                  | Some a, Some b, Some c', Some d =>
                      match parse_string_body r2 with
                      | Some (t, rest) =>
                          Some ((a * 4096 + b * 256 + c' * 16 + d)%N :: t, rest)
                      | None => None
                      end
                  | _, _, _, _ => None
                  end
              | _ => None
              end
            else
              match unescape e with
              | Some x =>
                  match parse_string_body r1 with
                  | Some (t, rest) => Some (x :: t, rest)
                  | None => None
                  end
              | None => None
              end
        end
      else if (c <? 32)%N then None
      else
        match parse_string_body r with
        | Some (t, rest) => Some (c :: t, rest)
        | None => None
        end
  end.

(** The integer part of a number: a single 0, or digits that start with a
    non-zero digit. *)
Definition parse_int_part (s : jstring) : option (Decimal.uint * jstring) :=
  match s with
  | [] => None
  | c :: r =>
      if (c =? Ch.zero)%N then Some (Decimal.D0 Decimal.Nil, r)
      else if is_digit c then Some (take_digits s)
      else None
  end.

(** An optional fraction: a dot and at least one digit. *)
Definition parse_frac_part (s : jstring) : option (Decimal.uint * jstring) :=
  match s with
  | c :: r =>
      if (c =? Ch.dot)%N then
        match take_digits r with
        | (Decimal.Nil, _) => None
        | (u, r') => Some (u, r')
        end
      else Some (Decimal.Nil, s)
  | [] => Some (Decimal.Nil, s)
  end.

(** An optional exponent: e or E, an optional sign, at least one digit. *)
Definition parse_exp_part (s : jstring) : option (Z * jstring) :=
  match s with
  | c :: r =>
      if (c =? Ch.lower_e)%N || (c =? Ch.upper_e)%N then
        let '(neg, r1) :=
          match r with
          | c1 :: r' =>
              if (c1 =? Ch.minus)%N then (true, r')
              else if (c1 =? Ch.plus)%N then (false, r')
              else (false, r)
          | [] => (false, r)
          end in
        match take_digits r1 with
        | (Decimal.Nil, _) => None
        | (u, r2) =>
            let e := Z.of_N (N.of_uint u) in
            Some (if neg : bool then - e else e, r2)
        end
      else Some (0, s)
  | [] => Some (0, s)
  end.

(** The value of the literal [-? ip . fp e exp], as a rational. *)
Definition number_value (neg : bool) (ip fp : Decimal.uint) (e : Z) : Q :=
  let m := Z.of_N (N.of_uint (Decimal.app ip fp)) in
  let a := if neg then - m else m in
  let k := e - Z.of_nat (Decimal.nb_digits fp) in
  if 0 <=? k then inject_Z (a * 10 ^ k)
  else Qred (a # Z.to_pos (10 ^ (- k))).

Definition parse_number (s : jstring) : option (Q * jstring) :=
  let '(neg, s1) :=
    match s with
    | c :: r => if (c =? Ch.minus)%N then (true, r) else (false, s)
    | [] => (false, s)
    end in
  match parse_int_part s1 with
  | None => None
  | Some (ip, s2) =>
      match parse_frac_part s2 with
      | None => None
      | Some (fp, s3) =>
          match parse_exp_part s3 with
          | None => None
          | Some (e, s4) => Some (number_value neg ip fp e, s4)
          end
      end
  end.

(** [strip_prefix p s] is what follows [p] in [s]. *)
Fixpoint strip_prefix (p s : jstring) : option jstring :=
  match p, s with
  | [], _ => Some s
  | a :: p', b :: s' => if (a =? b)%N then strip_prefix p' s' else None
  | _ :: _, [] => None
  end.

(** Property keys that are canonical array indices ("0", "1", ... below
    2^32 - 1) are enumerated first, in ascending order. *)
Definition array_index (k : jstring) : option N :=
  match take_digits k with
  | (u, []) =>
      let n := N.of_uint u in
      if bool_decide (uint_chars (N.to_uint n) = k) && (n <? 4294967295)%N
      then Some n else None
  | _ => None
  end.

Fixpoint replace_property (k : jstring) (v : value)
    (m : list (jstring * value)) : list (jstring * value) :=
  match m with
  | [] => []
  | (k', v') :: m' =>
      if bool_decide (k = k') then (k, v) :: m'
      else (k', v') :: replace_property k v m'
  end.

Fixpoint insert_index (i : N) (k : jstring) (v : value)
    (m : list (jstring * value)) : list (jstring * value) :=
  match m with
  | [] => [(k, v)]
  | (k', v') :: m' =>
      match array_index k' with
      | Some j =>
          if (j <? i)%N then (k', v') :: insert_index i k v m'
          else (k, v) :: m
      | None => (k, v) :: m
      end
  end.

(** CreateDataProperty on the ordered property list of an object: a key that
    is present keeps its place and takes the new value; a new array index
    goes among the indices; any other new key goes last. *)
Definition define_property (k : jstring) (v : value)
    (m : list (jstring * value)) : list (jstring * value) :=
  if bool_decide (k ∈ m.*1) then replace_property k v m
  else
    match array_index k with
    | Some i => insert_index i k v m
    | None => m ++ [(k, v)]
    end.

(** Recursive descent over the JSON grammar.  [fuel] bounds the nesting of
    calls; [None] is a SyntaxError. *)
Fixpoint parse_value (fuel : nat) (s : jstring) {struct fuel}
    : option (value * jstring) :=
  match fuel with
  | O => None
  | S fuel' =>
      match skip_ws s with
      | [] => None
      | c :: r =>
          if (c =? Ch.lbrace)%N then
            match skip_ws r with
            | [] => None
            | c' :: r' =>
                if (c' =? Ch.rbrace)%N then Some (VObj [], r')
                else
                  match parse_members fuel' [] (c' :: r') with
                  | Some (m, rest) => Some (VObj m, rest)
                  | None => None
                  end
            end
          else if (c =? Ch.lbracket)%N then
            match skip_ws r with
            | [] => None
            | c' :: r' =>
                if (c' =? Ch.rbracket)%N then Some (VArr [], r')
                else
                  match parse_elems fuel' (c' :: r') with
                  | Some (l, rest) => Some (VArr l, rest)
                  | None => None
                  end
            end
          else if (c =? Ch.quote)%N then
            match parse_string_body r with
            | Some (t, rest) => Some (VStr t, rest)
            | None => None
            end
          else if (c =? Ch.minus)%N || is_digit c then
            match parse_number (c :: r) with
            | Some (q, rest) => Some (VNum q, rest)
            | None => None
            end
          else
            match strip_prefix (js "true") (c :: r) with
            | Some rest => Some (VBool true, rest)
            | None =>
                match strip_prefix (js "false") (c :: r) with
                | Some rest => Some (VBool false, rest)
                | None =>
                    match strip_prefix (js "null") (c :: r) with
                    | Some rest => Some (VNull, rest)
                    | None => None
                    end
                end
            end
      end
  end

(** The elements of a non-empty array, up to and including the bracket. *)
with parse_elems (fuel : nat) (s : jstring) {struct fuel}
    : option (list value * jstring) :=
  match fuel with
  | O => None
  | S fuel' =>
      match parse_value fuel' s with
      | None => None
      | Some (v, r) =>
          match skip_ws r with
          | [] => None
          | c :: r' =>
              if (c =? Ch.comma)%N then
                match parse_elems fuel' r' with
                | Some (l, rest) => Some (v :: l, rest)
                | None => None
                end
              else if (c =? Ch.rbracket)%N then Some ([v], r')
              else None
          end
      end
  end

(** The members of a non-empty object, up to and including the brace;
    [acc] holds the properties defined so far. *)
with parse_members (fuel : nat) (acc : list (jstring * value)) (s : jstring)
    {struct fuel} : option (list (jstring * value) * jstring) :=
  match fuel with
  | O => None
  | S fuel' =>
      match skip_ws s with
      | [] => None
      | c :: r =>
          if (c =? Ch.quote)%N then
            match parse_string_body r with
            | None => None
            | Some (k, r1) =>
                match skip_ws r1 with
                | [] => None
                | c1 :: r2 =>
                    if (c1 =? Ch.colon)%N then
                      match parse_value fuel' r2 with
                      | None => None
                      | Some (v, r3) =>
                          let acc' := define_property k v acc in
                          match skip_ws r3 with
                          | [] => None
                          | c3 :: r4 =>
                              if (c3 =? Ch.comma)%N then parse_members fuel' acc' r4
                              else if (c3 =? Ch.rbrace)%N then Some (acc', r4)
                              else None
                          end
                      end
                    else None
                end
            end
          else None
      end
  end.

(** JSON.parse: one value, surrounded by optional white space.  Every call
    consumes a character and a call chain alternates between at most two
    functions per character, so [2 * length + 1] levels are enough. *)
Definition JSON_parse (text : jstring) : option value :=
  match parse_value (S (2 * length text)) text with
  | Some (v, rest) =>
      match skip_ws rest with
      | [] => Some v
      | _ :: _ => None
      end
  | None => None
  end.

(** ** Platform functions on numbers, strings and arrays *)

(** Math.round: the nearest integer, halves going up. *)
Definition Math_round (q : Q) : Z := Qfloor (q + (1 # 2)).

(** ** Doubles *)

(** A Number is a binary64 double.  A finite double is the rational it
    denotes, and an arithmetic operation gives the double nearest to the
    exact result: [to_double] rounds a rational to 53 significant bits,
    half-way cases to the even significand.  The exponent is not bounded
    here: there is no overflow to an infinity and no underflow, which
    quotients, products and differences of integers below 2^53 do not
    reach. *)

(** The integer nearest to [q], the even one of two. *)
Definition round_half_even (q : Q) : Z :=
  let f := Qfloor q in
  match (q - inject_Z f ?= 1 # 2)%Q with
  | Lt => f
  | Gt => f + 1
  | Eq => if Z.even f then f else f + 1
  end.

(** The exponent of the leading bit of a positive rational:
    [2 ^ ilog2 q <= q < 2 ^ (ilog2 q + 1)]. *)
Definition ilog2 (q : Q) : Z :=
  let k := Z.log2 (Qnum q) - Z.log2 (Z.pos (Qden q)) in
  if Qle_bool (2 ^ k) q then k else k - 1.

Definition to_double_pos (q : Q) : Q :=
  let e := ilog2 q - 52 in
  (inject_Z (round_half_even (q / 2 ^ e)) * 2 ^ e)%Q.

Definition to_double (q : Q) : Q :=
  match (q ?= 0)%Q with
  | Eq => 0%Q
  | Gt => to_double_pos q
  | Lt => (- to_double_pos (- q))%Q
  end.

(** WhiteSpace and LineTerminator code units, as String.prototype.trim
    sees them. *)
Definition is_trim_space (c : N) : bool :=
  ((9 <=? c) && (c <=? 13) || (c =? 32) || (c =? 160) || (c =? 5760)
   || (8192 <=? c) && (c <=? 8202) || (c =? 8232) || (c =? 8233)
   || (c =? 8239) || (c =? 8287) || (c =? 12288) || (c =? 65279))%N.

Fixpoint trim_start (s : jstring) : jstring :=
  match s with
  | [] => []
  | c :: r => if is_trim_space c then trim_start r else s
  end.

Definition trim (s : jstring) : jstring :=
  rev (trim_start (rev (trim_start s))).

Section ArraySort.
Context {A : Type} (cmp : A -> A -> Q).

(** [x] goes in front of the first element it does not have to follow. *)
Fixpoint sort_insert (x : A) (l : list A) : list A :=
  match l with
  | [] => [x]
  | y :: l' =>
      if Qle_bool (cmp x y) 0 then x :: l
      else y :: sort_insert x l'
  end.

(** Array.prototype.sort with a comparator.  The sort is stable, and for a
    consistent comparator its result is the one stable ordering; insertion
    from the right computes it. *)
Fixpoint Array_sort (l : list A) : list A :=
  match l with
  | [] => []
  | x :: l' => sort_insert x (Array_sort l')
  end.
End ArraySort.

(** ** localStorage *)

(** The store maps keys to strings; the script uses the keys "scores",
    "scoreSort" and "triviaCurrentUser". *)
Abbreviation localStorage := (gmap string jstring).

Definition getItem (k : string) (st : localStorage) : option jstring := st !! k.
Definition setItem (k : string) (v : jstring) (st : localStorage) : localStorage :=
  <[k := v]> st.
Definition removeItem (k : string) (st : localStorage) : localStorage :=
  delete k st.

(** ** Score records *)

Record ScoreRecord : Type := {
  name : jstring;
  correct : Z;
  total : Z;
  ts : option Z        (* a stored record may lack the field *)
}.

(** The object literal [{ name, correct, total, ts }] as a JSON value. *)
Definition record_value (r : ScoreRecord) : value :=
  VObj ([(js "name", VStr (name r));
         (js "correct", VNum (inject_Z (correct r)));
         (js "total", VNum (inject_Z (total r)))]
        ++ match ts r with
           | Some t => [(js "ts", VNum (inject_Z t))]
           | None => []
           end).

Fixpoint get_property (k : jstring) (m : list (jstring * value)) : option value :=
  match m with
  | [] => None
  | (k', v) :: m' => if bool_decide (k = k') then Some v else get_property k m'
  end.

Definition as_integer (v : value) : option Z :=
  match v with
  | VNum q => if (Qden (Qred q) =? 1)%positive then Some (Qnum (Qred q)) else None
  | _ => None
  end.

Definition as_string (v : value) : option jstring :=
  match v with
  | VStr s => Some s
  | _ => None
  end.

(** Reading a parsed object as a score record: a string name, integer
    counts, and an integer timestamp if there is one. *)
Definition value_record (v : value) : option ScoreRecord :=
  match v with
  | VObj m =>
      n ← get_property (js "name") m ≫= as_string;
      c ← get_property (js "correct") m ≫= as_integer;
      t ← get_property (js "total") m ≫= as_integer;
      match get_property (js "ts") m with
      | None => Some {| name := n; correct := c; total := t; ts := None |}
      | Some x =>
          t' ← as_integer x;
          Some {| name := n; correct := c; total := t; ts := Some t' |}
      end
  | _ => None
  end.

Definition value_records (v : value) : option (list ScoreRecord) :=
  match v with
  | VArr l => mapM value_record l
  | _ => None
  end.

(** ** The script *)

(** [getSortPreference]: the stored string, or "newest" when it is absent
    or empty ([pref || "newest"]). *)
Definition getSortPreference (st : localStorage) : jstring :=
  match getItem "scoreSort" st with
  | Some (c :: p) => c :: p
  | Some [] | None => js "newest"
  end.

(** [getScoresFromStorage]: nothing stored (or the empty string) is the
    empty array; text that does not parse is caught and is the empty array
    too; anything that parses is returned as it is. *)
Definition getScoresFromStorage (st : localStorage) : value :=
  match getItem "scores" st with
  | None | Some [] => VArr []
  | Some raw =>
      match JSON_parse raw with
      | Some v => v
      | None => VArr []
      end
  end.

Definition setScoresInStorage (scoresArray : value) (st : localStorage)
    : localStorage :=
  let text := JSON_stringify scoresArray in
  setItem "scores" text st.

(** [saveScoreToStorage]: load, push, store.  [now] is [Date.now()].  [push]
    exists on arrays only: on any other loaded value the call raises a
    TypeError ([None]) before anything is written. *)
Definition saveScoreToStorage (n : jstring) (c t : Z) (now : Z)
    (st : localStorage) : option localStorage :=
  match getScoresFromStorage st with
  | VArr scores =>
      let record := {| name := n; correct := c; total := t; ts := Some now |} in
      Some (setScoresInStorage (VArr (scores ++ [record_value record])) st)
  | _ => None
  end.

(** [a.ts || 0] *)
Definition ts_or_0 (a : ScoreRecord) : Z :=
  match ts a with
  | Some t => if t =? 0 then 0 else t
  | None => 0
  end.

(** [a.total ? a.correct / a.total : 0] *)
Definition ratio (a : ScoreRecord) : Q :=
  if total a =? 0 then 0%Q
  else to_double (inject_Z (correct a) / inject_Z (total a)).

Definition cmp_newest (a b : ScoreRecord) : Q := inject_Z (ts_or_0 b - ts_or_0 a).
Definition cmp_oldest (a b : ScoreRecord) : Q := inject_Z (ts_or_0 a - ts_or_0 b).

Definition cmp_highest (a b : ScoreRecord) : Q :=
  let ra := ratio a in
  let rb := ratio b in
  if negb (Qeq_bool rb ra) then to_double (rb - ra)
  else inject_Z (ts_or_0 b - ts_or_0 a).

Definition cmp_lowest (a b : ScoreRecord) : Q :=
  let ra := ratio a in
  let rb := ratio b in
  if negb (Qeq_bool ra rb) then to_double (ra - rb)
  else inject_Z (ts_or_0 a - ts_or_0 b).

(** The sorting step of [displayScores]: one of four comparators, or no
    sorting at all for any other preference string. *)
Definition sort_scores (pref : jstring) (scores : list ScoreRecord)
    : list ScoreRecord :=
  if bool_decide (pref = js "newest") then Array_sort cmp_newest scores
  else if bool_decide (pref = js "oldest") then Array_sort cmp_oldest scores
  else if bool_decide (pref = js "highest") then Array_sort cmp_highest scores
  else if bool_decide (pref = js "lowest") then Array_sort cmp_lowest scores
  else scores.

(** [Math.round((s.total ? s.correct / s.total : 0) * 100)] *)
Definition percent (s : ScoreRecord) : Z :=
  Math_round
    (to_double
       ((if total s =? 0 then 0
         else to_double (inject_Z (correct s) / inject_Z (total s))) * 100)).

(** Number division, partial: a zero divisor gives NaN or an infinity, which
    the rationals do not have. *)
Definition Number_div (x y : Q) : option Q :=
  if Qeq_bool y 0 then None else Some (to_double (x / y)).

(** The expressions of [ratio] and [percent] again, over the partial
    division: [None] would be a NaN or an infinity on the scoreboard. *)
Definition ratio_checked (a : ScoreRecord) : option Q :=
  if total a =? 0 then Some 0%Q
  else Number_div (inject_Z (correct a)) (inject_Z (total a)).

Definition percent_checked (s : ScoreRecord) : option Z :=
  q ← (if total s =? 0 then Some 0%Q
       else Number_div (inject_Z (correct s)) (inject_Z (total s)));
  Some (Math_round (to_double (q * 100))).

(** The best percent: [null] for no scores, else the [reduce] from 0. *)
Definition topPercent (scores : list ScoreRecord) : option Z :=
  match scores with
  | [] => None
  | _ :: _ =>
      Some (fold_left (fun best s =>
                         let pct := percent s in
                         if pct >? best then pct else best) scores 0)
  end.

Definition is_top (top : option Z) (s : ScoreRecord) : bool :=
  match top with
  | Some t => percent s =? t
  | None => false
  end.

Record Row : Type := {
  row_name : jstring;      (* text of the first cell *)
  row_score : jstring;     (* text of the second cell, correct/total *)
  row_top : bool           (* the row carries the class top *)
}.

Definition score_text (c t : Z) : jstring :=
  Z_toString c ++ [Ch.slash] ++ Z_toString t.

Definition render_row (top : option Z) (s : ScoreRecord) : Row :=
  {| row_name := name s;
     row_score := score_text (correct s) (total s);
     row_top := is_top top s |}.

(** The number of rows that got the class top in the [forEach]. *)
Definition topCount (scores : list ScoreRecord) : nat :=
  length (filter (fun s => is_top (topPercent scores) s = true) scores).

(** The four code units that the string literal of the summary begins
    with in the source file: U+F8FF, U+00FC, U+00E8, U+00DC (the bytes of a
    trophy sign, read in another encoding when the file was saved). *)
Definition trophy : jstring := [63743; 252; 232; 220]%N.

Definition top_summary (tp : Z) (tc : nat) : jstring :=
  let label := if (tc =? 1)%nat then js "player" else js "players" in
  trophy ++ js " Top score: " ++ Z_toString tp ++ js "% ("
    ++ Z_toString (Z.of_nat tc) ++ js " " ++ label ++ js ")".

(** ** The page *)

(** A radio input [<input type="radio" name="answer{i}" value=...>], with
    the attribute [data-correct] and its checked state.  [r_value] is the
    text that the template writes between the quotes of the value
    attribute; the value of the element is what the parser makes of it
    (character references decoded), which the script never reads. *)
Record Radio : Type := {
  r_name : nat;            (* the i of name="answer{i}" *)
  r_value : jstring;       (* the text written into value="..." *)
  r_correct : bool;        (* data-correct="true" *)
  r_checked : bool
}.

(** A question block, a [div] child of [#question-container]. *)
Record Block : Type := {
  b_radios : list Radio;
  b_invalid : bool         (* the block carries the class invalid *)
}.

(** What the script reads and writes: the store, the question blocks (the
    radio inputs of the document are those of the blocks), the name field,
    the alerts shown so far, the result box, the score table body, the top
    score box, and the two buttons. *)
Record Page : Type := {
  storage : localStorage;
  blocks : list Block;
  usernameInput : jstring;
  alerts : list jstring;
  resultSummary : option jstring;    (* [None]: still hidden *)
  scoreRows : list Row;
  topScoreBox : option jstring;      (* [None]: empty and hidden *)
  newPlayerHidden : bool;
  submitDisabled : bool
}.

Definition with_storage (st : localStorage) (p : Page) : Page :=
  {| storage := st; blocks := blocks p; usernameInput := usernameInput p;
     alerts := alerts p; resultSummary := resultSummary p;
     scoreRows := scoreRows p; topScoreBox := topScoreBox p;
     newPlayerHidden := newPlayerHidden p; submitDisabled := submitDisabled p |}.

Definition with_blocks (bs : list Block) (p : Page) : Page :=
  {| storage := storage p; blocks := bs; usernameInput := usernameInput p;
     alerts := alerts p; resultSummary := resultSummary p;
     scoreRows := scoreRows p; topScoreBox := topScoreBox p;
     newPlayerHidden := newPlayerHidden p; submitDisabled := submitDisabled p |}.

Definition alert (msg : jstring) (p : Page) : Page :=
  {| storage := storage p; blocks := blocks p; usernameInput := usernameInput p;
     alerts := alerts p ++ [msg]; resultSummary := resultSummary p;
     scoreRows := scoreRows p; topScoreBox := topScoreBox p;
     newPlayerHidden := newPlayerHidden p; submitDisabled := submitDisabled p |}.

Definition with_result (text : jstring) (p : Page) : Page :=
  {| storage := storage p; blocks := blocks p; usernameInput := usernameInput p;
     alerts := alerts p; resultSummary := Some text;
     scoreRows := scoreRows p; topScoreBox := topScoreBox p;
     newPlayerHidden := newPlayerHidden p; submitDisabled := submitDisabled p |}.

Definition with_table (rows : list Row) (box : option jstring) (p : Page) : Page :=
  {| storage := storage p; blocks := blocks p; usernameInput := usernameInput p;
     alerts := alerts p; resultSummary := resultSummary p;
     scoreRows := rows; topScoreBox := box;
     newPlayerHidden := newPlayerHidden p; submitDisabled := submitDisabled p |}.

Definition with_buttons (hidden disabled : bool) (p : Page) : Page :=
  {| storage := storage p; blocks := blocks p; usernameInput := usernameInput p;
     alerts := alerts p; resultSummary := resultSummary p;
     scoreRows := scoreRows p; topScoreBox := topScoreBox p;
     newPlayerHidden := hidden; submitDisabled := disabled |}.

(** [displayScores]: empty the table body, load the scores and the
    preference, sort, find the top percent, write one row per score and the
    summary box.  The result is [None] when the loaded value is not an array
    of score records: the script then leaves the typed model (on a value
    that is no array it raises a TypeError). *)
Definition displayScores (p : Page) : option Page :=
  scores ← value_records (getScoresFromStorage (storage p));
  let pref := getSortPreference (storage p) in
  let sorted := sort_scores pref scores in
  let top := topPercent sorted in
  let rows := render_row top <$> sorted in
  let box :=
    match top with
    | None => None
    | Some tp => Some (top_summary tp (topCount sorted))
    end in
  Some (with_table rows box p).

(** The change listener of the sort select. *)
Definition onSortChange (selected : jstring) (p : Page) : option Page :=
  displayScores (with_storage (setItem "scoreSort" selected (storage p)) p).

(** The radio inputs of the document, in document order. *)
Definition all_radios (bs : list Block) : list Radio :=
  concat (b_radios <$> bs).

(** [document.querySelector('input[name="answer{i}"]:checked')] *)
Definition selected_radio (bs : list Block) (i : nat) : option Radio :=
  List.find (fun r => (r_name r =? i)%nat && r_checked r) (all_radios bs).

Definition answered (bs : list Block) (i : nat) : bool :=
  match selected_radio bs i with
  | Some _ => true
  | None => false
  end.

(** The validation loop: a block without a selection gets the class
    invalid, a block with one loses it. *)
Definition mark_blocks (bs : list Block) : list Block :=
  imap (fun i b => {| b_radios := b_radios b; b_invalid := negb (answered bs i) |}) bs.

(** Whether the loop found a first unanswered block. *)
Definition some_unanswered (bs : list Block) : bool :=
  existsb (fun i => negb (answered bs i)) (seq 0 (length bs)).

(** [document.querySelectorAll('input[type="radio"][data-correct="true"]:checked').length] *)
Definition correctSelections (bs : list Block) : nat :=
  length (List.filter (fun r => r_correct r && r_checked r) (all_radios bs)).

Definition msg_answer_all : jstring :=
  js "Please answer all questions before submitting.".
Definition msg_enter_name : jstring :=
  js "Please enter your name before finishing the game.".

Definition summaryText (trimmed : jstring) (c t : Z) : jstring :=
  js "Nice job, " ++ trimmed ++ js "! You scored " ++ score_text c t ++ js ".".

(** [handleFormSubmit]; [now] is the clock at the time of the save.  The
    styling of the answer labels, focus and scrolling are left out.  The
    result is [None] when the save or the rendering leaves the model (a
    TypeError that the handler does not catch). *)
Definition handleFormSubmit (now : Z) (p : Page) : option Page :=
  let bs := blocks p in
  let p1 := with_blocks (mark_blocks bs) p in
  if some_unanswered bs then Some (alert msg_answer_all p1)
  else
    let trimmed := trim (usernameInput p) in
    match trimmed with
    | [] => Some (alert msg_enter_name p1)
    | _ :: _ =>
        let totalQuestions := Z.of_nat (length bs) in
        let selections := Z.of_nat (correctSelections bs) in
        let p2 := with_result (summaryText trimmed selections totalQuestions) p1 in
        let row := {| row_name := trimmed;
                      row_score := score_text selections totalQuestions;
                      row_top := false |} in
        let p3 := with_table (scoreRows p2 ++ [row]) (topScoreBox p2) p2 in
        st ← saveScoreToStorage trimmed selections totalQuestions now (storage p3);
        p4 ← displayScores (with_storage st p3);
        Some (with_buttons false true p4)
    end.

(** [clearScores]; [ok] is the answer to the confirm dialog. *)
Definition clearScores (ok : bool) (p : Page) : option Page :=
  if ok then displayScores (with_storage (removeItem "scores" (storage p)) p)
  else Some p.

(** A question as the API delivers it. *)
Record Question : Type := {
  question : jstring;
  correct_answer : jstring;
  incorrect_answers : list jstring
}.

(** [createAnswerOptions]; [allAnswers] is the outcome of the random
    shuffle of the correct and the incorrect answers.  The markup is not
    parsed here: one input per answer, [data-correct] decided by
    [answer === correctAnswer] on the strings as the script holds them, and
    the answer written into the value attribute.  An answer that would end
    the attribute or open a tag of its own is outside the embedding. *)
Definition createAnswerOptions (allAnswers : list jstring)
    (correctAnswer : jstring) (questionIndex : nat) : list Radio :=
  (fun answer =>
     {| r_name := questionIndex; r_value := answer;
        r_correct := bool_decide (answer = correctAnswer);
        r_checked := false |}) <$> allAnswers.

(** [displayQuestions]: one block per question, in order.  Each question
    comes with the shuffle of its answers. *)
Definition displayQuestions (questions : list (Question * list jstring))
    (p : Page) : Page :=
  with_blocks
    (imap (fun index qa =>
             {| b_radios := createAnswerOptions qa.2 (correct_answer qa.1) index;
                b_invalid := false |}) questions) p.

Definition set_checked (c : bool) (r : Radio) : Radio :=
  {| r_name := r_name r; r_value := r_value r; r_correct := r_correct r;
     r_checked := c |}.

(** The browser's part: choosing radio [j] of block [i] checks it and
    unchecks the other radios of its group (the inputs with the same
    name). *)
Definition check_radio (i j : nat) (bs : list Block) : list Block :=
  match bs !! i ≫= (fun b => b_radios b !! j) with
  | None => bs
  | Some target =>
      imap (fun i' b =>
              {| b_radios :=
                   imap (fun j' r =>
                           if (r_name r =? r_name target)%nat
                           then set_checked ((i' =? i)%nat && (j' =? j)%nat) r
                           else r) (b_radios b);
                 b_invalid := b_invalid b |}) bs
  end.

(** ** The same expressions over primitive doubles *)

(** The ratio and the percent once more, over the primitive doubles of
    the Standard Library, to check the rounding of the embedding against
    them. *)

(** The double nearest to an integer. *)
Definition b64_of_Z (z : Z) : float :=
  SF2Prim (binary_normalize prec emax z 0 false).

(** The exact value of a finite double. *)
Definition b64_to_Q (x : float) : option Q :=
  match Prim2SF x with
  | S754_zero _ => Some 0%Q
  | S754_finite s m e =>
      let n := if s then Z.neg m else Z.pos m in
      Some (if 0 <=? e then inject_Z (n * 2 ^ e) else n # Z.to_pos (2 ^ (- e)))
  | S754_infinity _ | S754_nan => None
  end.

(** Math.round on a double: the rounding of its exact value; [None] for a
    NaN or an infinity. *)
Definition Math_round64 (x : float) : option Z :=
  q ← b64_to_Q x; Some (Math_round q).

(** [a.total ? a.correct / a.total : 0] *)
Definition ratio64 (c t : Z) : float :=
  if t =? 0 then 0%float else (b64_of_Z c / b64_of_Z t)%float.

(** [Math.round((s.total ? s.correct / s.total : 0) * 100)] *)
Definition percent64 (c t : Z) : option Z :=
  Math_round64 (ratio64 c t * 100)%float.

(** The sign of a comparator result, as the sort reads it. *)
Definition sign64 (x : float) : comparison :=
  if (0 <? x)%float then Gt else if (x <? 0)%float then Lt else Eq.

(** * Auxiliary definitions for the proofs *)

(** Boolean tests on code units, as propositions for [lia]. *)
Ltac unbool :=
  repeat progress
    rewrite ?andb_true_iff, ?orb_true_iff, ?andb_false_iff, ?orb_false_iff,
      ?N.leb_le, ?N.leb_gt, ?N.ltb_lt, ?N.ltb_ge, ?N.eqb_eq, ?N.eqb_neq in *.

Definition no_digit_head (s : jstring) : Prop :=
  match s with
  | [] => True
  | c :: _ => digit_of c = None
  end.

(** What may follow a value in a text that [JSON.stringify] writes:
    nothing, or one of the comma, the closing bracket and the closing
    brace. *)
Definition follow (s : jstring) : Prop :=
  match s with
  | [] => True
  | c :: _ => c = Ch.comma \/ c = Ch.rbracket \/ c = Ch.rbrace
  end.

(** What the parser makes of the text after a first string character. *)
Definition cons_parsed (c : list N) (tail : jstring) : option (jstring * jstring) :=
  match parse_string_body tail with
  | Some (t, rest) => Some (c ++ t, rest)
  | None => None
  end.

(** The text of the elements of an array after the opening bracket, and of
    the members of an object after the opening brace. *)
Fixpoint stringify_elems (l : list value) : jstring :=
  match l with
  | [] => [Ch.rbracket]
  | x :: l' =>
      JSON_stringify x ++
        match l' with
        | [] => [Ch.rbracket]
        | _ :: _ => Ch.comma :: stringify_elems l'
        end
  end.

Fixpoint stringify_members (m : list (jstring * value)) : jstring :=
  match m with
  | [] => [Ch.rbrace]
  | (k, x) :: m' =>
      QuoteJSONString k ++ Ch.colon :: JSON_stringify x ++
        match m' with
        | [] => [Ch.rbrace]
        | _ :: _ => Ch.comma :: stringify_members m'
        end
  end.

(** The values that survive a trip through text unchanged in this model:
    numbers are integers, and the keys of an object are distinct and none
    is an array index (so that the parser keeps their order). *)
Inductive printable : value -> Prop :=
  | printable_null : printable VNull
  | printable_bool b : printable (VBool b)
  | printable_num z : printable (VNum (inject_Z z))
  | printable_str s : printable (VStr s)
  | printable_arr l : Forall printable l -> printable (VArr l)
  | printable_obj m :
      NoDup m.*1 ->
      Forall (fun kv => array_index kv.1 = None /\ printable kv.2) m ->
      printable (VObj m).

(** The round trip of one value, as the induction carries it. *)
Definition round_trips (v : value) : Prop :=
  forall fuel rest,
    (2 * length (JSON_stringify v) + 1 <= fuel)%nat ->
    follow rest ->
    parse_value fuel (JSON_stringify v ++ rest) = Some (v, rest).

(** The stored form of a list of score records. *)
Definition records_value (X : list ScoreRecord) : value :=
  VArr (record_value <$> X).

(** [x] may stand in front of [y]: the comparator does not put [x] after. *)
Definition before {A : Type} (cmp : A -> A -> Q) (x y : A) : Prop :=
  Qle_bool (cmp x y) 0 = true.

(** The timestamp of a record; a record without one counts as 0. *)
Definition timestamp (r : ScoreRecord) : Z := default 0 (ts r).

(** The four orders of the scoreboard. *)
Definition newest_first (a b : ScoreRecord) : Prop := timestamp b <= timestamp a.
Definition oldest_first (a b : ScoreRecord) : Prop := timestamp a <= timestamp b.
Definition highest_first (a b : ScoreRecord) : Prop :=
  (ratio b < ratio a)%Q \/ (ratio a == ratio b)%Q /\ timestamp b <= timestamp a.
Definition lowest_first (a b : ScoreRecord) : Prop :=
  (ratio a < ratio b)%Q \/ (ratio a == ratio b)%Q /\ timestamp a <= timestamp b.

(** The ratio and the percent as the specification writes them,
    [correct / total] and [round (100 * correct / total)], in exact
    arithmetic. *)
Definition spec_ratio (a : ScoreRecord) : Q :=
  if total a =? 0 then 0%Q else (inject_Z (correct a) / inject_Z (total a))%Q.

Definition spec_percent (s : ScoreRecord) : Z :=
  if total s =? 0 then 0
  else Math_round (100 * inject_Z (correct s) / inject_Z (total s)).

(** The orders by ratio with the exact ratio in the place of the double. *)
Definition spec_highest_first (a b : ScoreRecord) : Prop :=
  (spec_ratio b < spec_ratio a)%Q
  \/ (spec_ratio a == spec_ratio b)%Q /\ timestamp b <= timestamp a.
Definition spec_lowest_first (a b : ScoreRecord) : Prop :=
  (spec_ratio a < spec_ratio b)%Q
  \/ (spec_ratio a == spec_ratio b)%Q /\ timestamp a <= timestamp b.

(** A score out of at most 2^26 questions. *)
Definition quiz_record (r : ScoreRecord) : Prop :=
  0 <= correct r <= total r /\ total r <= 2 ^ 26.

(** The store holds the records [X], in the form the script writes. *)
Definition holds (st : localStorage) (X : list ScoreRecord) : Prop :=
  getScoresFromStorage st = records_value X.

(** [M] is the greatest percent among the records of [l]. *)
Definition is_maximum (M : Z) (l : list ScoreRecord) : Prop :=
  (exists r, r ∈ l /\ percent r = M) /\ forall r, r ∈ l -> percent r <= M.

(** Counts are not negative. *)
Definition nonneg_record (r : ScoreRecord) : Prop :=
  0 <= correct r /\ 0 <= total r.

(** The [reduce] of [displayScores], from any start value. *)
Definition best_from (b : Z) (l : list ScoreRecord) : Z :=
  fold_left (fun best s =>
               let pct := percent s in
               if pct >? best then pct else best) l b.

(** At most one radio of a block is checked. *)
Definition one_choice (b : Block) : Prop :=
  (length (List.filter r_checked (b_radios b)) <= 1)%nat.

(** The shape of the question blocks that [displayQuestions] builds and
    that the browser maintains: the radios of block [i] form the group
    answer[i], and a group has at most one checked radio. *)
Definition page_wf (bs : list Block) : Prop :=
  forall i b, bs !! i = Some b ->
    Forall (fun r => r_name r = i) (b_radios b) /\ one_choice b.

(** The record a submission writes. *)
Definition submitted_record (now : Z) (p : Page) : ScoreRecord :=
  {| name := trim (usernameInput p);
     correct := Z.of_nat (correctSelections (blocks p));
     total := Z.of_nat (length (blocks p));
     ts := Some now |}.

(** ** Scenarios *)

(** Three players out of ten questions, at the times [t1], [t2], [t3]. *)
Definition player_A (t1 : Z) : ScoreRecord :=
  {| name := js "A"; correct := 7; total := 10; ts := Some t1 |}.
Definition player_B (t2 : Z) : ScoreRecord :=
  {| name := js "B"; correct := 9; total := 10; ts := Some t2 |}.
Definition player_C (t3 : Z) : ScoreRecord :=
  {| name := js "C"; correct := 5; total := 10; ts := Some t3 |}.

Definition scenario_records (t1 t2 t3 : Z) : list ScoreRecord :=
  [player_A t1; player_B t2; player_C t3].

(** A page that shows nothing yet, over a given store. *)
Definition blank_page (st : localStorage) : Page :=
  {| storage := st; blocks := []; usernameInput := []; alerts := [];
     resultSummary := None; scoreRows := []; topScoreBox := None;
     newPlayerHidden := true; submitDisabled := false |}.

(** The store after the three players have been saved, with a given
    preference. *)
Definition scenario_store (pref : jstring) : localStorage :=
  setItem "scoreSort" pref (setScoresInStorage (records_value (scenario_records 1 2 3)) ∅).

(** A stored value is malformed when it does not read back as a list of
    score records. *)
Definition malformed (raw : jstring) : Prop :=
  JSON_parse raw ≫= value_records = None.

(** One question with its four answers, the second one chosen. *)
Definition sample_block (i : nat) (picked : nat) : Block :=
  {| b_radios :=
       imap (fun j a =>
               {| r_name := i; r_value := a; r_correct := (j =? 0)%nat;
                  r_checked := (j =? picked)%nat |})
            [js "Paris"; js "Rome"; js "Oslo"; js "Bern"];
     b_invalid := false |}.

Definition sample_page (name : jstring) (bs : list Block) : Page :=
  {| storage := ∅; blocks := bs; usernameInput := name; alerts := [];
     resultSummary := None; scoreRows := []; topScoreBox := None;
     newPlayerHidden := true; submitDisabled := false |}.

(** [x] and [y] are tied: the comparator puts neither after the other. *)
Definition tied {A : Type} (cmp : A -> A -> Q) (x y : A) : bool :=
  Qle_bool (cmp x y) 0 && Qle_bool (cmp y x) 0.

(** [l'] is a stable sort of [l]: it is in order, and the elements tied
    with any given one come in the order they have in [l]. *)
Definition stable_sort_of {A : Type} (cmp : A -> A -> Q) (l l' : list A) : Prop :=
  Sorted (before cmp) l'
  /\ forall z, List.filter (tied cmp z) l' = List.filter (tied cmp z) l.

(** Two scores with totals of 2^27 and 2^27 + 1, the first saved later. *)
Definition near_one_a : ScoreRecord :=
  {| name := js "a"; correct := 134217727; total := 134217728; ts := Some 2 |}.
Definition near_one_b : ScoreRecord :=
  {| name := js "b"; correct := 134217728; total := 134217729; ts := Some 1 |}.

(** Two scores of 57.5 and of 58 percent. *)
Definition half_way_a : ScoreRecord :=
  {| name := js "a"; correct := 23; total := 40; ts := Some 1 |}.
Definition half_way_b : ScoreRecord :=
  {| name := js "b"; correct := 29; total := 50; ts := Some 2 |}.

(** The text of the score cell of a record, written out. *)
Definition score_cell (r : ScoreRecord) : jstring :=
  Z_toString (correct r) ++ [Ch.slash] ++ Z_toString (total r).

(** The percent as a function of the exact ratio. *)
Definition percent_of (x : Q) : Z :=
  Math_round (to_double (to_double x * 100)).

(** The percent of the ratios [(2 k - 1) / 200] and [(2 k + 1) / 200], where
    the exact percent turns to [k] and away from it, is within one of [k]. *)
Definition percent_within_one (k : Z) : bool :=
  (k - 1 <=? percent_of ((2 * k - 1) # 200)) && (percent_of ((2 * k + 1) # 200) <=? k + 1).
(** The pairs [(correct, total)] with [0 <= correct <= total <= n]. *)
Definition small_counts (n : nat) : list (Z * Z) :=
  t ← seq 0 (S n); c ← seq 0 (S t); [(Z.of_nat c, Z.of_nat t)].

Definition counts_record (ct : Z * Z) : ScoreRecord :=
  {| name := []; correct := ct.1; total := ct.2; ts := None |}.

(** The primitive double of the ratio of a pair denotes the ratio of the
    embedding, and the percent over primitive doubles is its percent. *)
Definition ratio64_agrees (ct : Z * Z) : bool :=
  match b64_to_Q (ratio64 ct.1 ct.2) with
  | Some q => Qeq_bool q (ratio (counts_record ct))
  | None => false
  end.

Definition percent64_agrees (ct : Z * Z) : bool :=
  bool_decide (percent64 ct.1 ct.2 = Some (percent (counts_record ct))).

(** The comparison of two ratios over primitive doubles and in the
    embedding: equal or not, and the sign of the difference. *)
Definition compare64_agrees (ab : (Z * Z) * (Z * Z)) : bool :=
  let ra := ratio64 ab.1.1 ab.1.2 in
  let rb := ratio64 ab.2.1 ab.2.2 in
  let qa := ratio (counts_record ab.1) in
  let qb := ratio (counts_record ab.2) in
  bool_decide (PrimFloat.eqb rb ra = Qeq_bool qb qa)
  && bool_decide (sign64 (rb - ra)%float = (to_double (qb - qa) ?= 0)%Q).

(** The percent of a pair is the percent of the specification. *)
Definition percent_exact (ct : Z * Z) : bool :=
  percent (counts_record ct) =? spec_percent (counts_record ct).

(** ** The rest of the document *)

(** The page together with what the loading state and the sort control
    use: the class hidden of the loader and of the question container, the
    select with its options (they come from the markup; the script never
    changes them). *)
Record Document : Type := {
  page : Page;
  loadingHidden : bool;      (* #loading-container carries the class hidden *)
  questionsHidden : bool;    (* #question-container carries the class hidden *)
  sortOptions : list jstring;
  sortSelect : jstring       (* the value of #sort-scores *)
}.

Definition with_page (p : Page) (d : Document) : Document :=
  {| page := p; loadingHidden := loadingHidden d;
     questionsHidden := questionsHidden d; sortOptions := sortOptions d;
     sortSelect := sortSelect d |}.

Definition with_username (v : jstring) (p : Page) : Page :=
  {| storage := storage p; blocks := blocks p; usernameInput := v;
     alerts := alerts p; resultSummary := resultSummary p;
     scoreRows := scoreRows p; topScoreBox := topScoreBox p;
     newPlayerHidden := newPlayerHidden p; submitDisabled := submitDisabled p |}.

(** The input listener of the name field: the trimmed value is stored, or
    the entry is removed when nothing is left of it. *)
Definition onUsernameInput (p : Page) : Page :=
  let value := trim (usernameInput p) in
  match value with
  | _ :: _ => with_storage (setItem "triviaCurrentUser" value (storage p)) p
  | [] => with_storage (removeItem "triviaCurrentUser" (storage p)) p
  end.

(** [checkUsername]: a stored name that is not empty goes into the field. *)
Definition checkUsername (p : Page) : Page :=
  match getItem "triviaCurrentUser" (storage p) with
  | Some (c :: s) => with_username (c :: s) p
  | Some [] | None => p
  end.

(** Assigning to the value of a select: the option with that value becomes
    the selected one; without such an option nothing is selected and the
    value reads as the empty string. *)
Definition select_value (options : list jstring) (v : jstring) : jstring :=
  if bool_decide (v ∈ options) then v else [].

(** [applySavedSortPreference] *)
Definition applySavedSortPreference (d : Document) : Document :=
  let pref := getSortPreference (storage (page d)) in
  {| page := page d; loadingHidden := loadingHidden d;
     questionsHidden := questionsHidden d; sortOptions := sortOptions d;
     sortSelect := select_value (sortOptions d) pref |}.

(** [showLoading] *)
Definition showLoading (isLoading : bool) (d : Document) : Document :=
  if isLoading then
    {| page := page d; loadingHidden := false; questionsHidden := true;
       sortOptions := sortOptions d; sortSelect := sortSelect d |}
  else
    {| page := page d; loadingHidden := true; questionsHidden := false;
       sortOptions := sortOptions d; sortSelect := sortSelect d |}.

(** How a request for questions ends.  [Results]: the body has an array of
    questions, here each with the shuffle of its answers.  [Partial]:
    [displayQuestions] raises after it has emptied the container and
    rendered the questions given (none at all when the body has no results
    array).  [Failure]: the request fails, or the body is not JSON. *)
Inductive Response : Type :=
| Results (questions : list (Question * list jstring))
| Partial (rendered : list (Question * list jstring))
| Failure.

(** [fetchQuestions] up to the request: the loader is shown. *)
Definition fetchQuestions_start (d : Document) : Document :=
  showLoading true d.

(** [fetchQuestions] from the response on: the [then] callback, or the
    [catch] callback, which also takes over when the [then] callback
    raises. *)
Definition fetchQuestions_settle (r : Response) (d : Document) : Document :=
  match r with
  | Results questions =>
      showLoading false (with_page (displayQuestions questions (page d)) d)
  | Partial rendered =>
      showLoading false (with_page (displayQuestions rendered (page d)) d)
  | Failure => showLoading false d
  end.

(** [newPlayer], up to the request for new questions. *)
Definition newPlayer (d : Document) : Document :=
  let p1 := with_username [] (page d) in
  let p2 := with_storage (removeItem "triviaCurrentUser" (storage p1)) p1 in
  let p3 := with_buttons true false p2 in
  let p4 := with_blocks [] p3 in
  fetchQuestions_start (showLoading true (with_page p4 d)).

(** The DOMContentLoaded handler up to the registration of the listeners:
    [checkUsername], [applySavedSortPreference], [fetchQuestions],
    [displayScores]. *)
Definition init (d : Document) : option Document :=
  let d1 := with_page (checkUsername (page d)) d in
  let d2 := applySavedSortPreference d1 in
  let d3 := fetchQuestions_start d2 in
  p ← displayScores (page d3);
  Some (with_page p d3).

(** What the user and the network do. *)
Inductive Event : Type :=
| TypeName (v : jstring)        (* the name field now reads [v] *)
| ChooseSort (k : nat)          (* option [k] of the sort select is chosen *)
| Choose (i j : nat)            (* radio [j] of question [i] is chosen *)
| Submit (now : Z)
| ClickNewPlayer
| ClickClear (ok : bool)
| Settle (r : Response).        (* a request for questions ends *)

(** The listener that an event runs. *)
Definition step (e : Event) (d : Document) : option Document :=
  match e with
  | TypeName v => Some (with_page (onUsernameInput (with_username v (page d))) d)
  | ChooseSort k =>
      match sortOptions d !! k with
      | Some v =>
          p ← onSortChange v (page d);
          Some {| page := p; loadingHidden := loadingHidden d;
                  questionsHidden := questionsHidden d;
                  sortOptions := sortOptions d; sortSelect := v |}
      | None => Some d
      end
  | Choose i j => Some (with_page (with_blocks (check_radio i j (blocks (page d))) (page d)) d)
  | Submit now => p ← handleFormSubmit now (page d); Some (with_page p d)
  | ClickNewPlayer => Some (newPlayer d)
  | ClickClear ok => p ← clearScores ok (page d); Some (with_page p d)
  | Settle r => Some (fetchQuestions_settle r d)
  end.

Fixpoint run (es : list Event) (d : Document) : option Document :=
  match es with
  | [] => Some d
  | e :: es' => d' ← step e d; run es' d'
  end.

(** ** The feedback on the answers *)

(** [document.querySelector('input[name="answer{i}"][data-correct="true"]')]
    and [document.querySelector('input[name="answer{i}"]:checked')]: the
    first match in document order; an input is known by its position among
    the radio inputs of the document. *)
Definition correct_input (bs : list Block) (i : nat) : option nat :=
  fst <$> list_find (fun r => (r_name r =? i)%nat && r_correct r = true)
            (all_radios bs).

Definition selected_input (bs : list Block) (i : nat) : option nat :=
  fst <$> list_find (fun r => (r_name r =? i)%nat && r_checked r = true)
            (all_radios bs).

(** The marking loop of [handleFormSubmit]: the inputs whose label gets the
    class correct, and those whose label gets the class incorrect. *)
Definition correct_labels (bs : list Block) : list nat :=
  omap (correct_input bs) (seq 0 (length bs)).

Definition incorrect_labels (bs : list Block) : list nat :=
  omap (fun i =>
          match selected_input bs i with
          | Some s =>
              if bool_decide (Some s = correct_input bs i) then None else Some s
          | None => None
          end) (seq 0 (length bs)).

(** ** More auxiliary definitions *)

(** A name as the script stores it: not empty, and without white space at
    either end. *)
Definition trimmed_name (s : jstring) : Prop :=
  s <> [] /\ trim s = s.

(** A record as a submission writes it. *)
Definition valid_record (r : ScoreRecord) : Prop :=
  trimmed_name (name r) /\ 0 <= correct r <= total r /\ is_Some (ts r).

(** The store is in the state the script leaves it in: the scores are a
    list of valid records, and the saved name, if there is one, is a
    trimmed name. *)
Definition store_ok (st : localStorage) : Prop :=
  (exists X, holds st X /\ Forall valid_record X)
  /\ (forall v, getItem "triviaCurrentUser" st = Some v -> trimmed_name v).

Definition document_ok (d : Document) : Prop :=
  page_wf (blocks (page d)) /\ store_ok (storage (page d)).

(** No two records stand level in the ranking by ratio: two records at
    different places differ in the ratio or in the timestamp. *)
Definition no_ties (X : list ScoreRecord) : Prop :=
  forall i j a b,
    X !! i = Some a -> X !! j = Some b ->
    (ratio a == ratio b)%Q -> timestamp a = timestamp b -> i = j.

(** No two records have the same timestamp. *)
Definition distinct_times (X : list ScoreRecord) : Prop :=
  forall i j a b,
    X !! i = Some a -> X !! j = Some b -> timestamp a = timestamp b -> i = j.

(** Among the inputs of one question at most one is marked as correct. *)
Definition unique_correct (bs : list Block) : Prop :=
  forall i,
    (length (List.filter (fun r => (r_name r =? i)%nat && r_correct r)
               (all_radios bs)) <= 1)%nat.

(** One save after the other: name, correct, total and clock of each. *)
Definition entry_record (e : jstring * Z * Z * Z) : ScoreRecord :=
  {| name := e.1.1.1; correct := e.1.1.2; total := e.1.2; ts := Some e.2 |}.

Fixpoint save_all (entries : list (jstring * Z * Z * Z)) (st : localStorage)
    : option localStorage :=
  match entries with
  | [] => Some st
  | e :: entries' =>
      st' ← saveScoreToStorage e.1.1.1 e.1.1.2 e.1.2 e.2 st;
      save_all entries' st'
  end.

(** The table body and the summary box that [displayScores] draws for the
    records [X] under the preference [pref]. *)
Definition board_rows (pref : jstring) (X : list ScoreRecord) : list Row :=
  let ranked := sort_scores pref X in
  render_row (topPercent ranked) <$> ranked.

Definition board_box (pref : jstring) (X : list ScoreRecord) : option jstring :=
  let ranked := sort_scores pref X in
  match topPercent ranked with
  | None => None
  | Some tp => Some (top_summary tp (topCount ranked))
  end.

(** The shuffle of a question is a rearrangement of its answers, and the
    correct answer is not also one of the incorrect ones. *)
Definition well_shuffled (qa : Question * list jstring) : Prop :=
  qa.2 ≡ₚ correct_answer qa.1 :: incorrect_answers qa.1
  /\ correct_answer qa.1 ∉ incorrect_answers qa.1.

(** The blocks after a list of choices. *)
Definition choose_all (clicks : list (nat * nat)) (bs : list Block) : list Block :=
  foldl (fun bs ij => check_radio ij.1 ij.2 bs) bs clicks.

(** What the script never changes about a radio. *)
Definition radio_marks (r : Radio) : nat * bool := (r_name r, r_correct r).

(** The double percent of a pair with a total that is not zero is 100
    exactly for a full score and 0 exactly for an empty one. *)
Definition percent64_extremes (ct : Z * Z) : bool :=
  (ct.2 =? 0)
  || match percent64 ct.1 ct.2 with
     | Some v =>
         Bool.eqb (v =? 100) (ct.1 =? ct.2) && Bool.eqb (v =? 0) (ct.1 =? 0)
     | None => false
     end.

(** * Sanity checks of the platform model *)

Example JSON_parse_values :
  JSON_parse (js "null") = Some VNull
  /\ JSON_parse (js " [1, 2.5e1, -0.5, true, [], {}] ")
     = Some (VArr [VNum 1; VNum 25; VNum (-1 # 2); VBool true; VArr []; VObj []]).
Proof. by vm_compute. Qed.

Example JSON_parse_syntax_errors :
  JSON_parse (js "[1,]") = None /\ JSON_parse (js "01") = None
  /\ JSON_parse (js "[1 2]") = None /\ JSON_parse (js "nul") = None
  /\ JSON_parse (js "{1:2}") = None /\ JSON_parse (js "") = None.
Proof. by vm_compute. Qed.

Example JSON_stringify_record :
  JSON_parse (JSON_stringify
                (VObj [(js "name", VStr (js "A")); (js "ts", VNum 1700000000000)]))
  = Some (VObj [(js "name", VStr (js "A")); (js "ts", VNum 1700000000000)])
  /\ length (JSON_stringify
               (VObj [(js "name", VStr (js "A")); (js "ts", VNum 1700000000000)]))
     = 31%nat.
Proof. by vm_compute. Qed.

Example trim_spaces : trim (js "  Ann Lee ") = js "Ann Lee" /\ trim (js "   ") = [].
Proof. by vm_compute. Qed.

Example Math_round_halves :
  Math_round (5 # 2) = 3 /\ Math_round (-5 # 2) = -2 /\ Math_round ((7 # 10) * 100)%Q = 70.
Proof. by vm_compute. Qed.

(** Equal keys keep their order: the sort is stable. *)
Example Array_sort_keeps_ties :
  Array_sort (fun a b : Z * Z => inject_Z (a.1 - b.1)) [(2, 1); (1, 2); (2, 3); (1, 4)]
  = [(1, 2); (1, 4); (2, 1); (2, 3)].
Proof. by vm_compute. Qed.

(** * Facts about the platform model *)

(** ** Decimal digits and numbers *)


Lemma take_digits_no_digit s :
  no_digit_head s -> take_digits s = (Decimal.Nil, s).
Proof. destruct s as [|c r]; simpl; [done|]. by intros ->. Qed.

Lemma take_digits_uint_chars u rest :
  no_digit_head rest -> take_digits (uint_chars u ++ rest) = (u, rest).
Proof.
  intros Hrest.
  induction u as [|u IH|u IH|u IH|u IH|u IH|u IH|u IH|u IH|u IH|u IH];
    simpl; [by apply take_digits_no_digit | by rewrite IH ..].
Qed.

(** [N.to_uint] prints no leading zero: a leading 0 is the whole numeral. *)
Lemma to_uint_leading_zero n u : N.to_uint n = Decimal.D0 u -> u = Decimal.Nil.
Proof.
  intros H.
  pose proof (DecimalN.Unsigned.to_of (N.to_uint n)) as Hn.
  rewrite DecimalN.Unsigned.of_to, H, DecimalFacts.unorm_D0 in Hn.
  unfold Decimal.unorm in Hn.
  pose proof (DecimalFacts.nb_digits_nzhead u) as Hlen.
  destruct (Decimal.nzhead u) eqn:Hz;
    inversion Hn; subst; try done; simpl in Hlen; lia.
Qed.

Lemma to_uint_not_nil n : N.to_uint n <> Decimal.Nil.
Proof.
  intros H. pose proof (DecimalN.Unsigned.of_to n) as Hn.
  rewrite H in Hn. simpl in Hn. subst n. discriminate H.
Qed.


Lemma follow_no_digit s : follow s -> no_digit_head s.
Proof. destruct s as [|c r]; simpl; [done|]. by intros [->|[->| ->]]. Qed.

Lemma parse_frac_part_follow s : follow s -> parse_frac_part s = Some (Decimal.Nil, s).
Proof. destruct s as [|c r]; simpl; [done|]. by intros [->|[->| ->]]. Qed.

Lemma parse_exp_part_follow s : follow s -> parse_exp_part s = Some (0, s).
Proof. destruct s as [|c r]; simpl; [done|]. by intros [->|[->| ->]]. Qed.

Lemma parse_int_part_to_uint n rest :
  follow rest ->
  parse_int_part (uint_chars (N.to_uint n) ++ rest) = Some (N.to_uint n, rest).
Proof.
  intros Hrest.
  pose proof (take_digits_uint_chars (N.to_uint n) rest (follow_no_digit _ Hrest)) as Htake.
  pose proof (to_uint_not_nil n) as Hnil.
  pose proof (to_uint_leading_zero n) as Hzero.
  destruct (N.to_uint n) as [|u|u|u|u|u|u|u|u|u|u]; try done;
    try (unfold parse_int_part; rewrite <- Htake; reflexivity).
  rewrite (Hzero u eq_refl). reflexivity.
Qed.

Lemma number_value_integer neg n :
  number_value neg (N.to_uint n) Decimal.Nil 0
  = inject_Z (if neg then - Z.of_N n else Z.of_N n).
Proof.
  unfold number_value.
  rewrite DecimalFacts.app_nil_r, DecimalN.Unsigned.of_to. simpl.
  by rewrite Z.mul_1_r.
Qed.

Lemma uint_chars_head_digit n :
  exists c r, uint_chars (N.to_uint n) = c :: r /\ is_digit c = true.
Proof.
  pose proof (to_uint_not_nil n).
  destruct (N.to_uint n); try done; simpl; eauto.
Qed.

Lemma parse_number_Z_toString z rest :
  follow rest ->
  parse_number (Z_toString z ++ rest) = Some (inject_Z z, rest).
Proof.
  intros Hrest. unfold Z_toString, parse_number.
  destruct (Z.ltb_spec z 0) as [Hneg|Hpos]; simpl.
  - rewrite parse_int_part_to_uint, parse_frac_part_follow, parse_exp_part_follow by done.
    rewrite number_value_integer. do 3 f_equal. lia.
  - destruct (uint_chars_head_digit (Z.abs_N z)) as (c & r & Hc & Hd).
    rewrite Hc. simpl.
    assert ((c =? Ch.minus)%N = false) as ->.
    { apply andb_true_iff in Hd as [Hd _]. apply N.leb_le in Hd.
      apply N.eqb_neq. unfold Ch.minus. lia. }
    change (c :: r ++ rest) with ((c :: r) ++ rest). rewrite <- Hc.
    rewrite parse_int_part_to_uint, parse_frac_part_follow, parse_exp_part_follow by done.
    rewrite number_value_integer. do 3 f_equal. lia.
Qed.

Lemma Qred_inject_Z z : Qred (inject_Z z) = inject_Z z.
Proof.
  unfold inject_Z. apply Qred_identity. simpl. apply Z.gcd_1_r.
Qed.

Lemma Number_toString_integer z : Number_toString (inject_Z z) = Z_toString z.
Proof. unfold Number_toString. by rewrite Qred_inject_Z. Qed.

Lemma as_integer_inject_Z z : as_integer (VNum (inject_Z z)) = Some z.
Proof. simpl. by rewrite Qred_inject_Z. Qed.

(** ** String literals *)


Lemma hex_value_hex_digit d : (d < 16)%N -> hex_value (hex_digit d) = Some d.
Proof.
  intros Hd.
  assert (exists k, (k < 16)%nat /\ d = N.of_nat k) as (k & Hk & ->).
  { exists (N.to_nat d). split; lia. }
  do 16 (destruct k as [|k]; [reflexivity|]). lia.
Qed.

Lemma hex_quads c :
  (c < 65536)%N ->
  (c / 4096 mod 16 * 4096 + c / 256 mod 16 * 256 + c / 16 mod 16 * 16 + c mod 16 = c)%N.
Proof.
  intros Hc.
  pose proof (N.div_mod c 16). pose proof (N.div_mod (c / 16) 16).
  pose proof (N.div_mod (c / 256) 16).
  pose proof (N.mod_small (c / 4096) 16).
  rewrite !N.Div0.div_div in *.
  change (16 * 16)%N with 256%N in *. change (256 * 16)%N with 4096%N in *.
  assert (c / 4096 < 16)%N by (apply N.Div0.div_lt_upper_bound; lia).
  lia.
Qed.


Lemma parse_unicode_escape c tail :
  (c < 65536)%N ->
  parse_string_body (unicode_escape c ++ tail) = cons_parsed [c] tail.
Proof.
  intros Hc. unfold unicode_escape, cons_parsed. simpl.
  rewrite !hex_value_hex_digit by (apply N.mod_lt; lia).
  by rewrite hex_quads.
Qed.

Lemma parse_raw_char c tail :
  (32 <= c)%N -> c <> Ch.quote -> c <> Ch.backslash ->
  parse_string_body (c :: tail) = cons_parsed [c] tail.
Proof.
  intros H32 Hq Hb. unfold cons_parsed. simpl.
  apply N.eqb_neq in Hq, Hb. rewrite Hq, Hb.
  by assert ((c <? 32)%N = false) as -> by (apply N.ltb_ge; lia).
Qed.

Lemma parse_quote_char c tail :
  parse_string_body (quote_char c ++ tail) = cons_parsed [c] tail.
Proof.
  unfold quote_char.
  repeat (match goal with
          | |- context [(c =? ?k)%N] => destruct (N.eqb_spec c k) as [->|?]
          end; [reflexivity|]).
  destruct (N.ltb_spec c 32).
  { apply parse_unicode_escape. lia. }
  destruct (is_high_surrogate c || is_low_surrogate c) eqn:Hs.
  - apply parse_unicode_escape.
    unfold is_high_surrogate, is_low_surrogate in Hs. unbool. lia.
  - by apply parse_raw_char.
Qed.

Lemma parse_surrogate_pair c d tail :
  is_high_surrogate c = true -> is_low_surrogate d = true ->
  parse_string_body (c :: d :: tail) = cons_parsed [c; d] tail.
Proof.
  unfold is_high_surrogate, is_low_surrogate. intros Hc Hd. unbool.
  rewrite (parse_raw_char c) by (unfold Ch.quote, Ch.backslash; lia).
  unfold cons_parsed at 1.
  rewrite (parse_raw_char d) by (unfold Ch.quote, Ch.backslash; lia).
  unfold cons_parsed. by destruct (parse_string_body tail) as [[t rest]|].
Qed.

Lemma parse_quote_body_le n s rest :
  (length s <= n)%nat ->
  parse_string_body (quote_body s ++ Ch.quote :: rest) = Some (s, rest).
Proof.
  revert s. induction n as [|n IH]; intros [|c r] Hlen; simpl in *;
    try reflexivity; try lia.
  assert (parse_string_body ((quote_char c ++ quote_body r) ++ Ch.quote :: rest)
          = Some (c :: r, rest)) as Hone.
  { rewrite <- app_assoc, parse_quote_char. unfold cons_parsed.
    rewrite IH by lia. reflexivity. }
  destruct (is_high_surrogate c) eqn:Hc; [|exact Hone].
  destruct r as [|d r']; [by rewrite app_nil_r in Hone|].
  destruct (is_low_surrogate d) eqn:Hd; [|exact Hone].
  rewrite <- !app_comm_cons, parse_surrogate_pair by done. unfold cons_parsed.
  rewrite IH by (simpl in Hlen; lia). reflexivity.
Qed.

Lemma parse_quote_body s rest :
  parse_string_body (quote_body s ++ Ch.quote :: rest) = Some (s, rest).
Proof. by apply (parse_quote_body_le (length s)). Qed.

(** ** Values *)

Lemma value_nested_ind (P : value -> Prop) :
  P VNull ->
  (forall b, P (VBool b)) ->
  (forall q, P (VNum q)) ->
  (forall s, P (VStr s)) ->
  (forall l, Forall P l -> P (VArr l)) ->
  (forall m, Forall (fun kv => P kv.2) m -> P (VObj m)) ->
  forall v, P v.
Proof.
  intros Hnull Hbool Hnum Hstr Harr Hobj.
  fix IH 1. intros [| b | q | s | l | m].
  - exact Hnull.
  - apply Hbool.
  - apply Hnum.
  - apply Hstr.
  - apply Harr.
    exact ((fix all (l : list value) : Forall P l :=
              match l with
              | [] => List.Forall_nil P
              | x :: l' => List.Forall_cons _ x l' (IH x) (all l')
              end) l).
  - apply Hobj.
    exact ((fix all (m : list (jstring * value)) : Forall (fun kv => P kv.2) m :=
              match m with
              | [] => List.Forall_nil _
              | kv :: m' => List.Forall_cons _ kv m' (IH kv.2) (all m')
              end) m).
Qed.

Lemma JSON_stringify_arr l :
  JSON_stringify (VArr l) = Ch.lbracket :: stringify_elems l.
Proof.
  induction l as [|x l' IH]; [reflexivity|].
  destruct l' as [|y l'']; [reflexivity|].
  change (JSON_stringify (VArr (x :: y :: l'')))
    with (Ch.lbracket :: JSON_stringify x
            ++ Ch.comma :: tail (JSON_stringify (VArr (y :: l'')))).
  by rewrite IH.
Qed.

Lemma JSON_stringify_obj m :
  JSON_stringify (VObj m) = Ch.lbrace :: stringify_members m.
Proof.
  induction m as [|[k x] m' IH]; [reflexivity|].
  destruct m' as [|[k' y] m'']; [reflexivity|].
  change (JSON_stringify (VObj ((k, x) :: (k', y) :: m'')))
    with (Ch.lbrace :: QuoteJSONString k ++ Ch.colon :: JSON_stringify x
            ++ Ch.comma :: tail (JSON_stringify (VObj ((k', y) :: m'')))).
  by rewrite IH.
Qed.

(** A value never starts with white space or with a closing bracket. *)
Lemma JSON_stringify_head v :
  printable v ->
  exists c r, JSON_stringify v = c :: r /\ is_ws c = false
              /\ c <> Ch.rbracket /\ c <> Ch.rbrace.
Proof.
  destruct 1 as [| [|] | z | s | l _ | m _ _];
    try (eexists _, _; split; [reflexivity|done]).
  simpl. rewrite Number_toString_integer. unfold Z_toString.
  destruct (z <? 0).
  - eexists _, _; split; [reflexivity|done].
  - destruct (uint_chars_head_digit (Z.abs_N z)) as (c & r & -> & Hc).
    exists c, r. unfold is_digit, is_ws, Ch.rbracket, Ch.rbrace, Ch.space,
      Ch.tab, Ch.lf, Ch.cr in *.
    split; [done|]. unbool. lia.
Qed.

Lemma skip_ws_head c r : is_ws c = false -> skip_ws (c :: r) = c :: r.
Proof. simpl. by intros ->. Qed.

Lemma parse_elems_stringify l :
  Forall round_trips l -> l <> [] ->
  forall fuel rest,
    (2 * length (stringify_elems l) + 2 <= fuel)%nat ->
    parse_elems fuel (stringify_elems l ++ rest) = Some (l, rest).
Proof.
  induction l as [|x l' IH]; [done|].
  intros Hall _ fuel rest Hfuel.
  apply Forall_cons in Hall as [Hx Hl'].
  destruct fuel as [|fuel]; [lia|].
  cbn [stringify_elems] in *. rewrite length_app in Hfuel.
  rewrite <- app_assoc. cbn [parse_elems].
  destruct l' as [|y l''].
  - rewrite Hx; [|simpl in Hfuel; lia|simpl; auto]. reflexivity.
  - rewrite Hx; [|simpl in Hfuel; lia|simpl; auto].
    simpl app. rewrite skip_ws_head by done.
    change (Ch.comma =? Ch.comma)%N with true. cbv iota.
    rewrite IH; [done|done|done|].
    cbn [length] in Hfuel. lia.
Qed.

Lemma define_property_fresh k v m :
  k ∉ m.*1 -> array_index k = None -> define_property k v m = m ++ [(k, v)].
Proof.
  intros Hk Hidx. unfold define_property.
  by rewrite bool_decide_false, Hidx.
Qed.

Lemma parse_members_stringify m :
  Forall (fun kv => round_trips kv.2) m -> m <> [] ->
  forall acc fuel rest,
    NoDup (acc ++ m).*1 ->
    Forall (fun kv => array_index kv.1 = None) m ->
    (2 * length (stringify_members m) + 2 <= fuel)%nat ->
    parse_members fuel acc (stringify_members m ++ rest) = Some (acc ++ m, rest).
Proof.
  induction m as [|[k x] m' IH]; [done|].
  intros Hall _ acc fuel rest Hdup Hidx Hfuel.
  apply Forall_cons in Hall as [Hx Hm'].
  apply Forall_cons in Hidx as [Hk Hidx']. simpl in Hx, Hk.
  destruct fuel as [|fuel]; [lia|].
  cbn [stringify_members] in *. unfold QuoteJSONString in *.
  rewrite !length_app in Hfuel. cbn [length] in Hfuel. rewrite !length_app in Hfuel.
  rewrite <- !app_assoc, <- !app_comm_cons, <- !app_assoc, <- !app_comm_cons.
  cbn [parse_members]. rewrite skip_ws_head by done.
  change (Ch.quote =? Ch.quote)%N with true. cbv iota.
  rewrite parse_quote_body. cbn [app]. rewrite skip_ws_head by done.
  change (Ch.colon =? Ch.colon)%N with true. cbv iota.
  assert (k ∉ acc.*1) as Hfresh.
  { rewrite fmap_app in Hdup. apply NoDup_app in Hdup as (_ & Hdup & _).
    intros Hin. apply (Hdup k Hin). simpl. left. }
  assert ((acc ++ [(k, x)]) ++ m' = acc ++ (k, x) :: m') as Hacc
    by (by rewrite <- app_assoc).
  destruct m' as [|kv m''].
  - rewrite Hx; [|simpl in Hfuel; lia|simpl; auto]. simpl.
    by rewrite define_property_fresh.
  - rewrite Hx; [|simpl in Hfuel; lia|simpl; auto].
    simpl app. rewrite skip_ws_head by done.
    change (Ch.comma =? Ch.comma)%N with true. cbv iota.
    rewrite define_property_fresh by done.
    rewrite IH; [by rewrite Hacc|done|done|by rewrite Hacc|done|].
    cbn [length] in Hfuel. lia.
Qed.

Lemma parse_value_number fuel c r :
  (c =? Ch.minus)%N || is_digit c = true ->
  parse_value (S fuel) (c :: r)
  = match parse_number (c :: r) with
    | Some (q, rest) => Some (VNum q, rest)
    | None => None
    end.
Proof.
  intros Hc. cbn [parse_value].
  assert (is_ws c = false /\ (c =? Ch.lbrace)%N = false
          /\ (c =? Ch.lbracket)%N = false /\ (c =? Ch.quote)%N = false)
    as (Hws & H1 & H2 & H3).
  { unfold is_digit, is_ws, Ch.lbrace, Ch.lbracket, Ch.quote, Ch.minus,
      Ch.space, Ch.tab, Ch.lf, Ch.cr in *.
    unbool. lia. }
  rewrite skip_ws_head by done. by rewrite H1, H2, H3, Hc.
Qed.

Lemma Z_toString_head z :
  exists c r, Z_toString z = c :: r /\ (c =? Ch.minus)%N || is_digit c = true.
Proof.
  unfold Z_toString. destruct (z <? 0).
  - by eexists _, _.
  - destruct (uint_chars_head_digit (Z.abs_N z)) as (c & r & -> & Hc).
    exists c, r. rewrite Hc. split; [done|apply orb_true_r].
Qed.

Lemma parse_value_array fuel s :
  (exists c r, s = c :: r /\ is_ws c = false /\ c <> Ch.rbracket) ->
  parse_value (S fuel) (Ch.lbracket :: s)
  = match parse_elems fuel s with
    | Some (l, rest) => Some (VArr l, rest)
    | None => None
    end.
Proof.
  intros (c & r & -> & Hws & Hc). cbn [parse_value].
  rewrite !skip_ws_head by done.
  change (Ch.lbracket =? Ch.lbrace)%N with false.
  change (Ch.lbracket =? Ch.lbracket)%N with true. cbv iota.
  apply N.eqb_neq in Hc. by rewrite Hc.
Qed.

Lemma parse_value_object fuel s :
  (exists c r, s = c :: r /\ is_ws c = false /\ c <> Ch.rbrace) ->
  parse_value (S fuel) (Ch.lbrace :: s)
  = match parse_members fuel [] s with
    | Some (m, rest) => Some (VObj m, rest)
    | None => None
    end.
Proof.
  intros (c & r & -> & Hws & Hc). cbn [parse_value].
  rewrite !skip_ws_head by done.
  change (Ch.lbrace =? Ch.lbrace)%N with true. cbv iota.
  apply N.eqb_neq in Hc. by rewrite Hc.
Qed.

(** Parsing the text of a printable value gives the value back and leaves
    what followed the text. *)
Lemma printable_round_trips v : printable v -> round_trips v.
Proof.
  induction v as [| b | q | s | l IHl | m IHm] using value_nested_ind;
    intros Hp fuel rest Hfuel Hrest; (destruct fuel as [|fuel]; [lia|]).
  - reflexivity.
  - by destruct b.
  - inversion Hp as [| | z Hz | | |]; subst.
    cbn [JSON_stringify]. rewrite Number_toString_integer.
    destruct (Z_toString_head z) as (c & r & Hz & Hc).
    rewrite Hz, <- app_comm_cons, parse_value_number by done.
    by rewrite app_comm_cons, <- Hz, parse_number_Z_toString.
  - cbn [JSON_stringify]. unfold QuoteJSONString.
    rewrite <- app_comm_cons, <- app_assoc. cbn [parse_value].
    rewrite skip_ws_head by done. simpl. by rewrite parse_quote_body.
  - inversion Hp as [| | | | l' Hl |]; subst.
    rewrite JSON_stringify_arr in *. cbn [length] in Hfuel.
    destruct l as [|x l']; [reflexivity|].
    assert (Forall round_trips (x :: l')) as Hall.
    { rewrite Forall_forall in *. auto. }
    rewrite <- app_comm_cons, parse_value_array.
    + rewrite parse_elems_stringify; [done|done|done|lia].
    + destruct (JSON_stringify_head x) as (c & r & Hx & Hws & Hc & _).
      { by apply Forall_cons in Hl as [? _]. }
      cbn [stringify_elems]. rewrite Hx. by eexists _, _.
  - inversion Hp as [| | | | | m' Hdup Hm]; subst.
    rewrite JSON_stringify_obj in *. cbn [length] in Hfuel.
    destruct m as [|[k x] m']; [reflexivity|].
    assert (Forall (fun kv => round_trips kv.2) ((k, x) :: m')) as Hall.
    { rewrite Forall_forall in *. intros kv Hkv. apply IHm; [done|].
      by apply Hm. }
    rewrite <- app_comm_cons, parse_value_object.
    + rewrite parse_members_stringify; [done|done|done|done| |lia].
      eapply Forall_impl; [exact Hm|]. by intros kv [? _].
    + cbn [stringify_members]. unfold QuoteJSONString. by eexists _, _.
Qed.

(** [JSON.parse (JSON.stringify v)] is [v]. *)
Lemma JSON_parse_stringify v :
  printable v -> JSON_parse (JSON_stringify v) = Some v.
Proof.
  intros Hv. unfold JSON_parse.
  pose proof (printable_round_trips v Hv (S (2 * length (JSON_stringify v))) []) as Hrt.
  rewrite app_nil_r in Hrt. rewrite Hrt; [done|lia|done].
Qed.

(** ** The fuel of the parser is enough *)

Lemma skip_ws_length s : (length (skip_ws s) <= length s)%nat.
Proof.
  induction s as [|c r IH]; simpl; [done|].
  destruct (is_ws c); simpl; lia.
Qed.

Lemma skip_ws_cons_length s c r :
  skip_ws s = c :: r -> (S (length r) <= length s)%nat.
Proof. intros H. pose proof (skip_ws_length s) as Hl. by rewrite H in Hl. Qed.

Lemma take_digits_length s : (length (take_digits s).2 <= length s)%nat.
Proof.
  induction s as [|c r IH]; simpl; [done|].
  destruct (digit_of c); [|simpl; lia].
  destruct (take_digits r); simpl in *. lia.
Qed.

Lemma parse_string_body_length_le n s t r :
  (length s <= n)%nat ->
  parse_string_body s = Some (t, r) -> (length r < length s)%nat.
Proof.
  revert s t r. induction n as [|n IH]; intros [|c s] t r Hn; simpl in *;
    try done; try lia.
  repeat match goal with
         | |- context [match ?x with _ => _ end] => destruct x eqn:?
         end;
    intros [= <- <-] || done || idtac; simpl in *; try lia;
    match goal with
    | H : parse_string_body ?s' = Some _ |- _ =>
        apply IH in H; simpl in *; lia
    end.
Qed.

Lemma parse_string_body_length s t r :
  parse_string_body s = Some (t, r) -> (length r < length s)%nat.
Proof. by apply (parse_string_body_length_le (length s)). Qed.

Lemma is_digit_digit_of c : is_digit c = true -> exists d, digit_of c = Some d.
Proof.
  unfold is_digit, digit_of. intros Hc.
  repeat match goal with
         | |- context [(c =? ?k)%N] => destruct (N.eqb_spec c k); [by eexists|]
         end.
  unbool. lia.
Qed.

Lemma parse_int_part_length s u r :
  parse_int_part s = Some (u, r) -> (length r < length s)%nat.
Proof.
  unfold parse_int_part. destruct s as [|c s]; [done|].
  destruct (c =? Ch.zero)%N; [intros [= <- <-]; simpl; lia|].
  destruct (is_digit c) eqn:Hc; [|done].
  destruct (is_digit_digit_of c Hc) as [d Hd].
  pose proof (take_digits_length s) as Hlen.
  simpl. rewrite Hd. destruct (take_digits s) as [u' r'].
  intros [= <- <-]. simpl in *. lia.
Qed.

Lemma parse_frac_part_length s u r :
  parse_frac_part s = Some (u, r) -> (length r <= length s)%nat.
Proof.
  unfold parse_frac_part. destruct s as [|c s]; [by intros [= <- <-]|].
  destruct (c =? Ch.dot)%N; [|by intros [= <- <-]].
  pose proof (take_digits_length s) as Hlen.
  destruct (take_digits s) as [[] r']; intros [= <- <-]; simpl in *; lia.
Qed.

Lemma parse_exp_part_length s e r :
  parse_exp_part s = Some (e, r) -> (length r <= length s)%nat.
Proof.
  unfold parse_exp_part. destruct s as [|c s]; [by intros [= <- <-]|].
  destruct ((c =? Ch.lower_e)%N || (c =? Ch.upper_e)%N); [|by intros [= <- <-]].
  destruct s as [|c1 s'].
  - by destruct (take_digits []) as [[] ?] eqn:Ht.
  - destruct (c1 =? Ch.minus)%N; [|destruct (c1 =? Ch.plus)%N];
      match goal with
      | |- context [take_digits ?x] =>
          pose proof (take_digits_length x) as Hlen;
          destruct (take_digits x) as [[] r']
      end; intros [= <- <-]; simpl in *; lia.
Qed.

Lemma parse_number_length s q r :
  parse_number s = Some (q, r) -> (length r < length s)%nat.
Proof.
  unfold parse_number.
  assert (forall s1, (length s1 <= length s)%nat ->
            match parse_int_part s1 with
            | Some (ip, s2) =>
                match parse_frac_part s2 with
                | Some (fp, s3) =>
                    match parse_exp_part s3 with
                    | Some (e, s4) => Some (s4)
                    | None => None
                    end
                | None => None
                end
            | None => None
            end = Some r -> (length r < length s)%nat) as Hparts.
  { intros s1 Hs1.
    destruct (parse_int_part s1) as [[ip s2]|] eqn:H1; [|done].
    destruct (parse_frac_part s2) as [[fp s3]|] eqn:H2; [|done].
    destruct (parse_exp_part s3) as [[e s4]|] eqn:H3; [|done].
    intros [= <-].
    apply parse_int_part_length in H1. apply parse_frac_part_length in H2.
    apply parse_exp_part_length in H3. lia. }
  destruct s as [|c s']; [done|].
  destruct (c =? Ch.minus)%N.
  - intros H. apply (Hparts s'); [simpl; lia|].
    by repeat match goal with
              | |- context [match ?x with _ => _ end] => destruct x as [[]|]
              end; simplify_eq.
  - intros H. apply (Hparts (c :: s')); [done|].
    by repeat match goal with
              | |- context [match ?x with _ => _ end] => destruct x as [[]|]
              end; simplify_eq.
Qed.

Lemma strip_prefix_length p s r :
  strip_prefix p s = Some r -> (length r + length p = length s)%nat.
Proof.
  revert s. induction p as [|a p IH]; intros [|b s]; simpl; try done.
  - by intros [= <-].
  - by intros [= <-].
  - destruct (a =? b)%N; [|done]. intros H%IH. lia.
Qed.

(** Every successful call consumes at least one character. *)
Lemma parse_shrinks fuel :
  (forall s v r, parse_value fuel s = Some (v, r) -> (length r < length s)%nat)
  /\ (forall s l r, parse_elems fuel s = Some (l, r) -> (length r < length s)%nat)
  /\ (forall acc s m r,
        parse_members fuel acc s = Some (m, r) -> (length r < length s)%nat).
Proof.
  induction fuel as [|fuel (IHv & IHe & IHm)]; [done|].
  repeat split.
  - intros s v r H. cbn [parse_value] in H.
    repeat match type of H with
           | context [match ?x with _ => _ end] => destruct x eqn:?
           end; simplify_eq;
      repeat match goal with
             | H : skip_ws _ = _ :: _ |- _ => apply skip_ws_cons_length in H
             | H : parse_string_body _ = Some _ |- _ =>
                 apply parse_string_body_length in H
             | H : parse_number _ = Some _ |- _ => apply parse_number_length in H
             | H : strip_prefix _ _ = Some _ |- _ => apply strip_prefix_length in H
             | H : parse_elems _ _ = Some _ |- _ => apply IHe in H
             | H : parse_members _ _ _ = Some _ |- _ => apply IHm in H
             end; simpl in *; lia.
  - intros s l r H. cbn [parse_elems] in H.
    repeat match type of H with
           | context [match ?x with _ => _ end] => destruct x eqn:?
           end; simplify_eq;
      repeat match goal with
             | H : skip_ws _ = _ :: _ |- _ => apply skip_ws_cons_length in H
             | H : parse_value _ _ = Some _ |- _ => apply IHv in H
             | H : parse_elems _ _ = Some _ |- _ => apply IHe in H
             end; simpl in *; lia.
  - intros acc s m r H. cbn [parse_members] in H.
    repeat match type of H with
           | context [match ?x with _ => _ end] => destruct x eqn:?
           end; simplify_eq;
      repeat match goal with
             | H : skip_ws _ = _ :: _ |- _ => apply skip_ws_cons_length in H
             | H : parse_string_body _ = Some _ |- _ =>
                 apply parse_string_body_length in H
             | H : parse_value _ _ = Some _ |- _ => apply IHv in H
             | H : parse_members _ _ _ = Some _ |- _ => apply IHm in H
             end; simpl in *; lia.
Qed.

(** Above [2 * length + 1] levels for a value, and one more for the
    elements of an array or the members of an object, more fuel changes
    nothing. *)
Lemma parse_fuel_enough fuel :
  forall fuel',
    (forall s, (2 * length s + 1 <= fuel)%nat -> (2 * length s + 1 <= fuel')%nat ->
               parse_value fuel s = parse_value fuel' s)
    /\ (forall s, (2 * length s + 2 <= fuel)%nat -> (2 * length s + 2 <= fuel')%nat ->
                  parse_elems fuel s = parse_elems fuel' s)
    /\ (forall acc s,
          (2 * length s + 2 <= fuel)%nat -> (2 * length s + 2 <= fuel')%nat ->
          parse_members fuel acc s = parse_members fuel' acc s).
Proof.
  induction fuel as [|fuel IH]; intros [|fuel'];
    try (repeat split; intros; lia).
  destruct (IH fuel') as (IHv & IHe & IHm).
  destruct (parse_shrinks fuel') as (Sv & Se & Sm).
  repeat split.
  - intros s Hf Hf'. cbn [parse_value].
    destruct (skip_ws s) as [|c r] eqn:Hs; [done|]. apply skip_ws_cons_length in Hs.
    destruct (c =? Ch.lbrace)%N.
    { destruct (skip_ws r) as [|c' r'] eqn:Hr; [done|].
      apply skip_ws_cons_length in Hr.
      destruct (c' =? Ch.rbrace)%N; [done|].
      rewrite IHm; [done|simpl; lia..]. }
    destruct (c =? Ch.lbracket)%N; [|done].
    destruct (skip_ws r) as [|c' r'] eqn:Hr; [done|].
    apply skip_ws_cons_length in Hr.
    destruct (c' =? Ch.rbracket)%N; [done|].
    rewrite IHe; [done|simpl; lia..].
  - intros s Hf Hf'. cbn [parse_elems].
    rewrite IHv by lia.
    destruct (parse_value fuel' s) as [[v r]|] eqn:Hv; [|done]. apply Sv in Hv.
    destruct (skip_ws r) as [|c r'] eqn:Hr; [done|]. apply skip_ws_cons_length in Hr.
    destruct (c =? Ch.comma)%N; [|done].
    rewrite IHe; [done|lia..].
  - intros acc s Hf Hf'. cbn [parse_members].
    destruct (skip_ws s) as [|c r] eqn:Hs; [done|]. apply skip_ws_cons_length in Hs.
    destruct (c =? Ch.quote)%N; [|done].
    destruct (parse_string_body r) as [[k r1]|] eqn:Hk; [|done].
    apply parse_string_body_length in Hk.
    destruct (skip_ws r1) as [|c1 r2] eqn:Hr1; [done|].
    apply skip_ws_cons_length in Hr1.
    destruct (c1 =? Ch.colon)%N; [|done].
    rewrite IHv by lia.
    destruct (parse_value fuel' r2) as [[v r3]|] eqn:Hv; [|done]. apply Sv in Hv.
    destruct (skip_ws r3) as [|c3 r4] eqn:Hr3; [done|].
    apply skip_ws_cons_length in Hr3.
    destruct (c3 =? Ch.comma)%N; [|done].
    rewrite IHm; [done|lia..].
Qed.

(** [JSON_parse] does not depend on its choice of fuel: a [None] is a
    syntax error, never a lack of fuel. *)
Lemma JSON_parse_fuel text fuel :
  (2 * length text + 1 <= fuel)%nat ->
  JSON_parse text
  = match parse_value fuel text with
    | Some (v, rest) =>
        match skip_ws rest with
        | [] => Some v
        | _ :: _ => None
        end
    | None => None
    end.
Proof.
  intros Hf. unfold JSON_parse.
  destruct (parse_fuel_enough (S (2 * length text)) fuel) as (Hv & _).
  by rewrite Hv by lia.
Qed.

(** ** Score records as JSON *)

Lemma get_property_here k v m : get_property k ((k, v) :: m) = Some v.
Proof. simpl. by rewrite bool_decide_true. Qed.

Lemma get_property_next k k' v m :
  k <> k' -> get_property k ((k', v) :: m) = get_property k m.
Proof. intros Hk. simpl. by rewrite bool_decide_false. Qed.

Lemma record_value_printable r : printable (record_value r).
Proof.
  destruct r as [n c t [t'|]]; unfold record_value; cbn [name correct total ts app];
    (constructor;
     [ cbn [fmap list_fmap fst]; apply (bool_decide_unpack _); by vm_compute
     | repeat (apply List.Forall_cons; [split; [by vm_compute|constructor]|]);
       apply List.Forall_nil ]).
Qed.

Lemma records_value_printable X : printable (records_value X).
Proof.
  constructor. apply Forall_fmap, Forall_forall. intros r _.
  apply record_value_printable.
Qed.

Lemma value_record_record_value r : value_record (record_value r) = Some r.
Proof.
  destruct r as [n c t [t'|]]; unfold record_value, value_record;
    cbn [name correct total ts app];
    repeat (rewrite ?get_property_here;
            rewrite ?get_property_next by (by vm_compute));
    cbn [mbind option_bind as_string get_property];
    by rewrite ?as_integer_inject_Z.
Qed.

Lemma value_records_records_value X : value_records (records_value X) = Some X.
Proof.
  unfold value_records, records_value.
  induction X as [|r X IH]; [done|].
  rewrite fmap_cons. cbn [mapM]. rewrite value_record_record_value. simpl.
  by rewrite IH.
Qed.


(** ** Rounding to a double *)

Section Doubles.
Local Open Scope Q_scope.

Lemma round_half_even_bounds q :
  (Qfloor q <= round_half_even q <= Qfloor q + 1)%Z.
Proof.
  unfold round_half_even. cbv zeta.
  destruct (q - inject_Z (Qfloor q) ?= 1 # 2); [destruct (Z.even _)|..]; lia.
Qed.

Lemma round_half_even_near q :
  q - (1 # 2) <= inject_Z (round_half_even q) <= q + (1 # 2).
Proof.
  unfold round_half_even. cbv zeta.
  pose proof (Qfloor_le q) as Hlo. pose proof (Qlt_floor q) as Hhi.
  rewrite inject_Z_plus in Hhi. change (inject_Z 1) with 1 in Hhi.
  destruct (q - inject_Z (Qfloor q) ?= 1 # 2) eqn:Hc.
  - apply Qeq_alt in Hc.
    destruct (Z.even _); rewrite ?inject_Z_plus; change (inject_Z 1) with 1; lra.
  - apply Qlt_alt in Hc. lra.
  - apply Qgt_alt in Hc. rewrite inject_Z_plus. change (inject_Z 1) with 1. lra.
Qed.

Lemma round_half_even_Z z : round_half_even (inject_Z z) = z.
Proof.
  unfold round_half_even. cbv zeta. rewrite Qfloor_Z.
  assert ((inject_Z z - inject_Z z ?= 1 # 2) = Lt) as ->; [|done].
  apply (proj1 (Qlt_alt _ _)). lra.
Qed.

Lemma round_half_even_comp x y : x == y -> round_half_even x = round_half_even y.
Proof.
  intros Hxy. unfold round_half_even. cbv zeta. rewrite (Qfloor_comp _ _ Hxy).
  assert ((x - inject_Z (Qfloor y) ?= 1 # 2) = (y - inject_Z (Qfloor y) ?= 1 # 2))
    as ->; [|done].
  apply Qcompare_comp; [by rewrite Hxy|done].
Qed.

Lemma round_half_even_mono x y :
  x <= y -> (round_half_even x <= round_half_even y)%Z.
Proof.
  intros Hxy. pose proof (Qfloor_resp_le _ _ Hxy) as Hf.
  pose proof (round_half_even_bounds x) as Hx.
  pose proof (round_half_even_bounds y) as Hy.
  destruct (Z.eq_dec (Qfloor x) (Qfloor y)) as [Heq|Hne]; [|lia].
  clear Hx Hy Hf. unfold round_half_even. cbv zeta. rewrite Heq.
  destruct (Qcompare_spec (x - inject_Z (Qfloor y)) (1 # 2)) as [Hcx|Hcx|Hcx];
    destruct (Qcompare_spec (y - inject_Z (Qfloor y)) (1 # 2)) as [Hcy|Hcy|Hcy];
    try (destruct (Z.even (Qfloor y))); try lia; exfalso; lra.
Qed.

Lemma two_pos e : 0 < 2 ^ e.
Proof. by apply Qpower_0_lt. Qed.

Lemma two_plus a b : 2 ^ (a + b) == 2 ^ a * 2 ^ b.
Proof. by apply Qpower_plus. Qed.

Lemma two_le a b : (a <= b)%Z -> 2 ^ a <= 2 ^ b.
Proof. intros. by apply Qpower_le_compat_l. Qed.

Lemma two_lt_inv a b : 2 ^ a < 2 ^ b -> (a < b)%Z.
Proof. intros. by apply (Qpower_lt_compat_l_inv 2). Qed.

Lemma two_inject (n : Z) : (0 <= n)%Z -> inject_Z (2 ^ n) == 2 ^ n.
Proof. intros. by rewrite Zpower_Qpower. Qed.

Lemma ilog2_spec q : 0 < q -> 2 ^ ilog2 q <= q /\ q < 2 ^ (ilog2 q + 1).
Proof.
  intros Hq. destruct q as [n d].
  assert (0 < n)%Z as Hn by (unfold Qlt in Hq; simpl in Hq; lia).
  pose proof (Z.log2_spec n Hn) as [Hn1 Hn2].
  pose proof (Z.log2_spec (Z.pos d) ltac:(lia)) as [Hd1 Hd2].
  pose proof (Z.log2_nonneg n) as Hln. pose proof (Z.log2_nonneg (Z.pos d)) as Hld.
  set (ln := Z.log2 n) in *. set (ld := Z.log2 (Z.pos d)) in *.
  assert (2 ^ ln <= inject_Z n /\ inject_Z n < 2 * 2 ^ ln) as [HA1 HA2].
  { rewrite <- (two_inject ln) by done. split.
    - by rewrite <- Zle_Qle.
    - change 2 with (inject_Z 2) at 1. rewrite <- inject_Z_mult, <- Zlt_Qlt.
      replace (Z.succ ln) with (1 + ln)%Z in Hn2 by lia.
      rewrite Z.pow_add_r in Hn2 by lia. lia. }
  assert (2 ^ ld <= inject_Z (Z.pos d) /\ inject_Z (Z.pos d) < 2 * 2 ^ ld)
    as [HB1 HB2].
  { rewrite <- (two_inject ld) by done. split.
    - by rewrite <- Zle_Qle.
    - change 2 with (inject_Z 2) at 1. rewrite <- inject_Z_mult, <- Zlt_Qlt.
      replace (Z.succ ld) with (1 + ld)%Z in Hd2 by lia.
      rewrite Z.pow_add_r in Hd2 by lia. lia. }
  pose proof (two_pos ln) as HApos. pose proof (two_pos ld) as HBpos.
  assert (n # d == inject_Z n / inject_Z (Z.pos d)) as Hnd by apply Qmake_Qdiv.
  assert (forall k, 2 ^ (ln - ld + k) == 2 ^ ln * 2 ^ k / 2 ^ ld) as Hk.
  { intros k. replace (ln - ld + k)%Z with (ln + k + - ld)%Z by lia.
    rewrite !two_plus, Qpower_opp. by field_simplify_eq; [|lra]. }
  unfold ilog2. cbv zeta. cbn [Qnum Qden]. fold ln ld.
  destruct (Qle_bool (2 ^ (ln - ld)) (n # d)) eqn:Hle.
  - apply Qle_bool_iff in Hle. split; [done|].
    rewrite Hk, Hnd. change (2 ^ 1) with 2.
    apply Qlt_shift_div_r; [lra|]. unfold Qdiv.
    apply (Qmult_lt_r _ _ (2 ^ ld)); [done|]. field_simplify; [|lra]. nra.
  - assert (n # d < 2 ^ (ln - ld)) as Hlt.
    { apply Qnot_le_lt. intros H%Qle_bool_iff. congruence. }
    replace (ln - ld - 1 + 1)%Z with (ln - ld)%Z by lia. split; [|done].
    replace (ln - ld - 1)%Z with (ln - ld + -1)%Z by lia.
    rewrite Hk, Hnd. change (2 ^ (-1)) with (1 # 2).
    apply Qle_shift_div_l; [lra|]. unfold Qdiv.
    apply (Qmult_le_r _ _ (2 ^ ld)); [done|]. field_simplify; [|lra]. nra.
Qed.

Lemma ilog2_unique q k : 0 < q -> 2 ^ k <= q -> q < 2 ^ (k + 1) -> ilog2 q = k.
Proof.
  intros Hq Hlo Hhi. destruct (ilog2_spec q Hq) as [Hlo' Hhi'].
  assert (k < ilog2 q + 1)%Z by (apply two_lt_inv; lra).
  assert (ilog2 q < k + 1)%Z by (apply two_lt_inv; lra).
  lia.
Qed.

Lemma ilog2_comp x y : 0 < x -> x == y -> ilog2 x = ilog2 y.
Proof.
  intros Hx Hxy. destruct (ilog2_spec x Hx) as [Hlo Hhi].
  symmetry. apply ilog2_unique; lra.
Qed.

Lemma ilog2_mono x y : 0 < x -> x <= y -> (ilog2 x <= ilog2 y)%Z.
Proof.
  intros Hx Hxy. destruct (ilog2_spec x Hx) as [Hlo _].
  destruct (ilog2_spec y ltac:(lra)) as [_ Hhi].
  assert (ilog2 x < ilog2 y + 1)%Z by (apply two_lt_inv; lra). lia.
Qed.

(** The significand of a positive rational lies between 2^52 and 2^53. *)
Lemma significand_bounds q :
  0 < q ->
  let e := (ilog2 q - 52)%Z in
  2 ^ 52 <= q / 2 ^ e /\ q / 2 ^ e < 2 ^ 53
  /\ (2 ^ 52 <= round_half_even (q / 2 ^ e) <= 2 ^ 53)%Z.
Proof.
  intros Hq e. destruct (ilog2_spec q Hq) as [Hlo Hhi].
  pose proof (two_pos e) as He.
  assert (2 ^ ilog2 q == 2 ^ 52 * 2 ^ e) as H52.
  { replace (ilog2 q) with (52 + e)%Z by (unfold e; lia). apply two_plus. }
  assert (2 ^ (ilog2 q + 1) == 2 ^ 53 * 2 ^ e) as H53.
  { replace (ilog2 q + 1)%Z with (53 + e)%Z by (unfold e; lia). apply two_plus. }
  assert (2 ^ 52 <= q / 2 ^ e) as H1.
  { apply Qle_shift_div_l; [done|]. by rewrite <- H52. }
  assert (q / 2 ^ e < 2 ^ 53) as H2.
  { apply Qlt_shift_div_r; [done|]. by rewrite <- H53. }
  split; [done|]. split; [done|]. split.
  - rewrite <- (round_half_even_Z (2 ^ 52)). apply round_half_even_mono.
    by rewrite two_inject.
  - rewrite <- (round_half_even_Z (2 ^ 53)). apply round_half_even_mono.
    rewrite two_inject by done. lra.
Qed.

Lemma to_double_pos_pos q : 0 < q -> 0 < to_double_pos q.
Proof.
  intros Hq. unfold to_double_pos.
  destruct (significand_bounds q Hq) as (_ & _ & Hm & _).
  apply Qmult_lt_0_compat; [|apply two_pos].
  change 0 with (inject_Z 0). rewrite <- Zlt_Qlt. lia.
Qed.

Lemma to_double_pos_comp x y : 0 < x -> x == y -> to_double_pos x == to_double_pos y.
Proof.
  intros Hx Hxy. unfold to_double_pos. rewrite (ilog2_comp x y Hx Hxy).
  rewrite (round_half_even_comp (x / 2 ^ (ilog2 y - 52)) (y / 2 ^ (ilog2 y - 52)));
    [done|by rewrite Hxy].
Qed.

Lemma to_double_pos_mono x y :
  0 < x -> x <= y -> to_double_pos x <= to_double_pos y.
Proof.
  intros Hx Hxy. assert (0 < y) as Hy by lra.
  pose proof (ilog2_mono x y Hx Hxy) as He.
  destruct (significand_bounds x Hx) as (_ & _ & _ & Hmx).
  destruct (significand_bounds y Hy) as (_ & _ & Hmy & _).
  unfold to_double_pos. cbv zeta in *.
  set (ex := (ilog2 x - 52)%Z) in *. set (ey := (ilog2 y - 52)%Z) in *.
  pose proof (two_pos ex) as Hex. pose proof (two_pos ey) as Hey.
  destruct (Z.eq_dec ex ey) as [Heq|Hne].
  - rewrite Heq. apply Qmult_le_compat_r; [|lra].
    rewrite <- Zle_Qle. apply round_half_even_mono.
    apply Qmult_le_compat_r; [done|]. apply Qinv_le_0_compat. lra.
  - assert (2 ^ 53 * 2 ^ ex <= 2 ^ 52 * 2 ^ ey) as Hstep.
    { rewrite <- !two_plus. apply two_le. lia. }
    rewrite Zle_Qle in Hmx, Hmy. rewrite two_inject in Hmx, Hmy by done.
    apply Qle_trans with (2 ^ 53 * 2 ^ ex); [apply Qmult_le_compat_r; lra|].
    apply Qle_trans with (2 ^ 52 * 2 ^ ey); [done|].
    apply Qmult_le_compat_r; lra.
Qed.

(** The error of the rounding is at most half a unit of the last place. *)
Lemma to_double_pos_near q :
  0 < q ->
  q - 2 ^ (ilog2 q - 53) <= to_double_pos q <= q + 2 ^ (ilog2 q - 53).
Proof.
  intros Hq. unfold to_double_pos.
  set (e := (ilog2 q - 52)%Z). pose proof (two_pos e) as He.
  pose proof (round_half_even_near (q / 2 ^ e)) as [Hlo Hhi].
  assert (2 ^ (ilog2 q - 53) == (1 # 2) * 2 ^ e) as ->.
  { replace (ilog2 q - 53)%Z with (-1 + e)%Z by (unfold e; lia).
    by rewrite two_plus. }
  assert (q == q / 2 ^ e * 2 ^ e) as Hq' by (field; lra).
  split.
  - rewrite Hq' at 1. nra.
  - rewrite Hq' at 2. nra.
Qed.

Lemma to_double_positive q : 0 < q -> to_double q = to_double_pos q.
Proof.
  intros Hq. unfold to_double.
  by rewrite (proj1 (Qgt_alt q 0) Hq).
Qed.

Lemma to_double_negative q : q < 0 -> to_double q = - to_double_pos (- q).
Proof.
  intros Hq. unfold to_double.
  by rewrite (proj1 (Qlt_alt q 0) Hq).
Qed.

Lemma to_double_zero q : q == 0 -> to_double q = 0.
Proof.
  intros Hq. unfold to_double.
  by rewrite (proj1 (Qeq_alt q 0) Hq).
Qed.

Lemma to_double_comp x y : x == y -> to_double x == to_double y.
Proof.
  intros Hxy. destruct (Qlt_le_dec 0 x) as [Hx|Hx].
  - rewrite (to_double_positive x Hx), (to_double_positive y) by lra.
    by apply to_double_pos_comp.
  - destruct (Qlt_le_dec x 0) as [Hx'|Hx'].
    + rewrite (to_double_negative x Hx'), (to_double_negative y) by lra.
      apply Qopp_comp, to_double_pos_comp; [lra|by rewrite Hxy].
    + rewrite (to_double_zero x), (to_double_zero y) by lra. reflexivity.
Qed.

(** Rounding keeps the sign. *)
Lemma to_double_sign q :
  (0 < q -> 0 < to_double q) /\ (q < 0 -> to_double q < 0).
Proof.
  split; intros Hq.
  - rewrite (to_double_positive q Hq). by apply to_double_pos_pos.
  - rewrite (to_double_negative q Hq).
    pose proof (to_double_pos_pos (- q) ltac:(lra)). lra.
Qed.

Lemma to_double_le_0 q : to_double q <= 0 <-> q <= 0.
Proof.
  destruct (to_double_sign q) as [Hpos Hneg]. split; intros H.
  - destruct (Qlt_le_dec 0 q) as [Hq|Hq]; [|done]. specialize (Hpos Hq). lra.
  - destruct (Qlt_le_dec q 0) as [Hq|Hq]; [specialize (Hneg Hq); lra|].
    rewrite (to_double_zero q) by lra. lra.
Qed.

Lemma to_double_ge_0 q : 0 <= q -> 0 <= to_double q.
Proof.
  intros Hq. destruct (to_double_sign q) as [Hpos _].
  destruct (Qlt_le_dec 0 q) as [Hq'|Hq']; [specialize (Hpos Hq'); lra|].
  rewrite (to_double_zero q) by lra. lra.
Qed.

Lemma to_double_opp q : to_double (- q) == - to_double q.
Proof.
  destruct (Qlt_le_dec 0 q) as [Hq|Hq].
  - rewrite (to_double_negative (- q)) by lra. rewrite (to_double_positive q Hq).
    apply Qopp_comp, to_double_pos_comp; lra.
  - destruct (Qlt_le_dec q 0) as [Hq'|Hq'].
    + rewrite (to_double_positive (- q)) by lra. rewrite (to_double_negative q Hq').
      lra.
    + rewrite (to_double_zero q), (to_double_zero (- q)) by lra. reflexivity.
Qed.

(** Rounding keeps the order. *)
Lemma to_double_mono x y : x <= y -> to_double x <= to_double y.
Proof.
  intros Hxy. destruct (Qlt_le_dec 0 x) as [Hx|Hx].
  - rewrite (to_double_positive x Hx), (to_double_positive y) by lra.
    by apply to_double_pos_mono.
  - destruct (Qlt_le_dec 0 y) as [Hy|Hy].
    + pose proof (proj2 (to_double_le_0 x) Hx).
      pose proof (proj1 (to_double_sign y) Hy). lra.
    + destruct (Qlt_le_dec y 0) as [Hy'|Hy'].
      * rewrite (to_double_negative x), (to_double_negative y) by lra.
        pose proof (to_double_pos_mono (- y) (- x) ltac:(lra) ltac:(lra)). lra.
      * rewrite (to_double_zero y) by lra. by apply to_double_le_0.
Qed.

Example to_double_integers :
  to_double 1 == 1 /\ to_double 100 == 100 /\ to_double (1 # 2) == 1 # 2
  /\ to_double (9007199254740993 # 1) == 9007199254740992 # 1
  /\ ~ to_double (1 # 10) == 1 # 10.
Proof. by vm_compute. Qed.

(** On the unit interval the error is at most 2^-54. *)
Lemma to_double_near_unit q :
  0 <= q <= 1 -> q - 2 ^ (-54) <= to_double q <= q + 2 ^ (-54).
Proof.
  intros [Hq0 Hq1]. pose proof (two_pos (-54)) as Hpos.
  destruct (Qlt_le_dec 0 q) as [Hq|Hq].
  - destruct (Qlt_le_dec q 1) as [Hlt|Hge].
    + rewrite (to_double_positive q Hq).
      destruct (ilog2_spec q Hq) as [Hlo _].
      assert (ilog2 q < 0)%Z as Hneg.
      { apply two_lt_inv. change (2 ^ 0) with 1. lra. }
      pose proof (two_le (ilog2 q - 53) (-54) ltac:(lia)).
      pose proof (to_double_pos_near q Hq). lra.
    + assert (q == 1) as Hone by lra. rewrite (to_double_comp q 1 Hone).
      destruct to_double_integers as [-> _]. lra.
  - rewrite (to_double_zero q) by lra. lra.
Qed.
End Doubles.

(** ** Sorting *)

Lemma Sorted_impl_rel {A} (R1 R2 : relation A) l :
  (forall x y, R1 x y -> R2 x y) -> Sorted R1 l -> Sorted R2 l.
Proof.
  intros Himpl. induction 1 as [|x l _ IH Hhd]; constructor; [done|].
  destruct Hhd; constructor. by apply Himpl.
Qed.

Section ArraySortFacts.
Context {A : Type} (cmp : A -> A -> Q).

Lemma sort_insert_Permutation x l : sort_insert cmp x l ≡ₚ x :: l.
Proof.
  induction l as [|y l IH]; simpl; [done|].
  destruct (Qle_bool (cmp x y) 0); [done|].
  by rewrite IH, Permutation_swap.
Qed.

Lemma Array_sort_Permutation l : Array_sort cmp l ≡ₚ l.
Proof.
  induction l as [|x l IH]; simpl; [done|].
  by rewrite sort_insert_Permutation, IH.
Qed.

Lemma Array_sort_length l : length (Array_sort cmp l) = length l.
Proof. by rewrite Array_sort_Permutation. Qed.

Context (R : relation A).
Hypothesis before_R : forall x y, before cmp x y <-> R x y.
Context `{!Total R, !Transitive R}.

Lemma sort_insert_Sorted x l : Sorted R l -> Sorted R (sort_insert cmp x l).
Proof.
  induction 1 as [|y l Hl IH Hhd]; simpl; [by repeat constructor|].
  destruct (Qle_bool (cmp x y) 0) eqn:Hxy.
  - constructor; [by constructor|]. constructor. by apply before_R.
  - constructor; [done|].
    assert (R y x) as Hyx.
    { destruct (base.total R x y) as [Hc|Hc]; [|done].
      apply before_R in Hc. unfold before in Hc. congruence. }
    destruct Hhd as [|z l' Hyz]; simpl; [by constructor|].
    destruct (Qle_bool (cmp x z) 0); by constructor.
Qed.

Lemma Array_sort_Sorted l : Sorted R (Array_sort cmp l).
Proof.
  induction l as [|x l IH]; simpl; [constructor|].
  by apply sort_insert_Sorted.
Qed.

Lemma Array_sort_StronglySorted l : StronglySorted R (Array_sort cmp l).
Proof. apply Sorted_StronglySorted; [done|apply Array_sort_Sorted]. Qed.

Lemma tied_R x y : tied cmp x y = true <-> R x y /\ R y x.
Proof.
  unfold tied. rewrite andb_true_iff.
  by rewrite <- !before_R.
Qed.

Lemma tied_refl x : tied cmp x x = true.
Proof. apply tied_R. by destruct (base.total R x x). Qed.

Lemma sort_insert_filter z x l :
  List.filter (tied cmp z) (sort_insert cmp x l)
  = List.filter (tied cmp z) (x :: l).
Proof.
  induction l as [|y l IH]; [done|]. cbn [sort_insert].
  destruct (Qle_bool (cmp x y) 0) eqn:Hxy; [done|].
  cbn [List.filter] in *. rewrite IH.
  destruct (tied cmp z y) eqn:Hy, (tied cmp z x) eqn:Hx; try done.
  apply tied_R in Hy as [Hzy _]. apply tied_R in Hx as [_ Hxz].
  assert (before cmp x y) as Hb by (apply before_R; by trans z).
  unfold before in Hb. congruence.
Qed.

(** [Array_sort] is a stable sort. *)
Lemma Array_sort_stable l : stable_sort_of cmp l (Array_sort cmp l).
Proof.
  split.
  - eapply Sorted_impl_rel; [|apply Array_sort_Sorted]. intros x y. apply before_R.
  - intros z. induction l as [|x l IH]; [done|].
    cbn [Array_sort]. rewrite sort_insert_filter. cbn [List.filter].
    by rewrite IH.
Qed.

Lemma filter_tied_elem z l y :
  In y (List.filter (tied cmp z) l) -> In y l /\ tied cmp z y = true.
Proof. apply List.filter_In. Qed.

(** Two lists in order with the same tied elements in the same order are
    the same list: a consistent comparator has one stable sort. *)
Lemma stable_sort_unique l1 l2 :
  Sorted R l1 -> Sorted R l2 ->
  (forall z, List.filter (tied cmp z) l1 = List.filter (tied cmp z) l2) ->
  l1 = l2.
Proof.
  intros H1%Sorted_StronglySorted H2%Sorted_StronglySorted; [|done..].
  revert l2 H2. induction H1 as [|a l1 Hl1 IH Ha]; intros l2 H2 Hf.
  - destruct l2 as [|b l2]; [done|].
    specialize (Hf b). cbn [List.filter] in Hf. by rewrite tied_refl in Hf.
  - destruct l2 as [|b l2].
    { specialize (Hf a). cbn [List.filter] in Hf. by rewrite tied_refl in Hf. }
    apply StronglySorted_inv in H2 as [H2 Hb].
    assert (tied cmp a b = true) as Hab.
    { apply tied_R. split.
      - assert (In b (a :: l1)) as [->|Hin].
        { apply (filter_tied_elem b). rewrite Hf. cbn [List.filter].
          rewrite tied_refl. by left. }
        + by destruct (base.total R b b).
        + rewrite List.Forall_forall in Ha. by apply Ha.
      - assert (In a (b :: l2)) as [->|Hin].
        { apply (filter_tied_elem a). rewrite <- Hf. cbn [List.filter].
          rewrite tied_refl. by left. }
        + by destruct (base.total R a a).
        + rewrite List.Forall_forall in Hb. by apply Hb. }
    assert (a = b) as <-.
    { specialize (Hf a). cbn [List.filter] in Hf.
      rewrite tied_refl, Hab in Hf. by injection Hf. }
    f_equal. apply IH; [done|]. intros z. specialize (Hf z).
    cbn [List.filter] in Hf. destruct (tied cmp z a); [by injection Hf|done].
Qed.

(** Whatever algorithm the engine runs, a stable sort of [l] is
    [Array_sort l]. *)
Lemma stable_sort_is_Array_sort l l' :
  stable_sort_of cmp l l' -> l' = Array_sort cmp l.
Proof.
  intros [Hs Hf]. destruct (Array_sort_stable l) as [_ Hf'].
  apply stable_sort_unique.
  - eapply Sorted_impl_rel; [|exact Hs]. intros x y. apply before_R.
  - apply Array_sort_Sorted.
  - intros z. by rewrite Hf, Hf'.
Qed.
End ArraySortFacts.

(** ** The four comparators *)

Lemma ts_or_0_timestamp a : ts_or_0 a = timestamp a.
Proof.
  unfold ts_or_0, timestamp. destruct (ts a) as [t|]; simpl; [|done].
  destruct (Z.eqb_spec t 0); congruence.
Qed.

Lemma Qle_bool_inject_Z z : Qle_bool (inject_Z z) 0 = true <-> z <= 0.
Proof. rewrite Qle_bool_iff. unfold Qle. simpl. lia. Qed.

Lemma before_newest a b : before cmp_newest a b <-> newest_first a b.
Proof.
  unfold before, cmp_newest, newest_first.
  rewrite Qle_bool_inject_Z, !ts_or_0_timestamp. lia.
Qed.

Lemma before_oldest a b : before cmp_oldest a b <-> oldest_first a b.
Proof.
  unfold before, cmp_oldest, oldest_first.
  rewrite Qle_bool_inject_Z, !ts_or_0_timestamp. lia.
Qed.

Lemma before_highest a b : before cmp_highest a b <-> highest_first a b.
Proof.
  unfold before, cmp_highest, highest_first.
  destruct (Qeq_bool (ratio b) (ratio a)) eqn:Heq; simpl.
  - apply Qeq_bool_iff in Heq.
    rewrite Qle_bool_inject_Z, !ts_or_0_timestamp.
    split; [intros ?; right; split; [by symmetry|lia]|].
    intros [Hlt|[_ ?]]; [lra|lia].
  - apply Qeq_bool_neq in Heq. rewrite Qle_bool_iff, to_double_le_0.
    split; [intros ?; left; lra|].
    intros [Hlt|[Heq' _]]; [lra|]. destruct Heq. by symmetry.
Qed.

Lemma before_lowest a b : before cmp_lowest a b <-> lowest_first a b.
Proof.
  unfold before, cmp_lowest, lowest_first.
  destruct (Qeq_bool (ratio a) (ratio b)) eqn:Heq; simpl.
  - apply Qeq_bool_iff in Heq.
    rewrite Qle_bool_inject_Z, !ts_or_0_timestamp.
    split; [intros ?; right; split; [done|lia]|].
    intros [Hlt|[_ ?]]; [lra|lia].
  - apply Qeq_bool_neq in Heq. rewrite Qle_bool_iff, to_double_le_0.
    split; [intros ?; left; lra|].
    by intros [Hlt|[Heq' _]]; [lra|].
Qed.

#[local] Instance newest_first_total : Total newest_first.
Proof. intros a b. unfold newest_first. lia. Qed.
#[local] Instance newest_first_trans : Transitive newest_first.
Proof. intros a b c. unfold newest_first. lia. Qed.
#[local] Instance oldest_first_total : Total oldest_first.
Proof. intros a b. unfold oldest_first. lia. Qed.
#[local] Instance oldest_first_trans : Transitive oldest_first.
Proof. intros a b c. unfold oldest_first. lia. Qed.

#[local] Instance highest_first_total : Total highest_first.
Proof.
  intros a b. unfold highest_first.
  destruct (Q_dec (ratio a) (ratio b)) as [[?|?]|Heq]; [by right; left|by left; left|].
  destruct (Z.le_ge_cases (timestamp a) (timestamp b)).
  - right. right. split; [by symmetry|done].
  - left. by right.
Qed.
#[local] Instance highest_first_trans : Transitive highest_first.
Proof.
  intros a b c. unfold highest_first.
  intros [?|[Hab ?]] [?|[Hbc ?]].
  - left. lra.
  - left. lra.
  - left. lra.
  - right. split; [lra|lia].
Qed.

#[local] Instance lowest_first_total : Total lowest_first.
Proof.
  intros a b. unfold lowest_first.
  destruct (Q_dec (ratio a) (ratio b)) as [[?|?]|Heq]; [by left; left|by right; left|].
  destruct (Z.le_ge_cases (timestamp a) (timestamp b)).
  - left. by right.
  - right. right. split; [by symmetry|lia].
Qed.
#[local] Instance lowest_first_trans : Transitive lowest_first.
Proof.
  intros a b c. unfold lowest_first.
  intros [?|[Hab ?]] [?|[Hbc ?]].
  - left. lra.
  - left. lra.
  - left. lra.
  - right. split; [lra|lia].
Qed.

(** ** The sorting step *)

Lemma sort_scores_newest l : sort_scores (js "newest") l = Array_sort cmp_newest l.
Proof. reflexivity. Qed.
Lemma sort_scores_oldest l : sort_scores (js "oldest") l = Array_sort cmp_oldest l.
Proof. reflexivity. Qed.
Lemma sort_scores_highest l : sort_scores (js "highest") l = Array_sort cmp_highest l.
Proof. reflexivity. Qed.
Lemma sort_scores_lowest l : sort_scores (js "lowest") l = Array_sort cmp_lowest l.
Proof. reflexivity. Qed.

(** The four sorts of the script do not depend on the sorting algorithm of
    the engine: any stable sort gives the list of the model. *)
Lemma sort_scores_any_stable_sort l l' :
  (stable_sort_of cmp_newest l l' -> l' = sort_scores (js "newest") l)
  /\ (stable_sort_of cmp_oldest l l' -> l' = sort_scores (js "oldest") l)
  /\ (stable_sort_of cmp_highest l l' -> l' = sort_scores (js "highest") l)
  /\ (stable_sort_of cmp_lowest l l' -> l' = sort_scores (js "lowest") l).
Proof.
  repeat split; intros Hs.
  - by apply (stable_sort_is_Array_sort _ _ before_newest).
  - by apply (stable_sort_is_Array_sort _ _ before_oldest).
  - by apply (stable_sort_is_Array_sort _ _ before_highest).
  - by apply (stable_sort_is_Array_sort _ _ before_lowest).
Qed.

Lemma sort_scores_other pref l :
  pref <> js "newest" -> pref <> js "oldest" ->
  pref <> js "highest" -> pref <> js "lowest" ->
  sort_scores pref l = l.
Proof. intros. unfold sort_scores. by rewrite !bool_decide_false. Qed.

Lemma sort_scores_Permutation pref l : sort_scores pref l ≡ₚ l.
Proof.
  unfold sort_scores.
  repeat case_bool_decide; by rewrite ?Array_sort_Permutation.
Qed.

Lemma sort_scores_nil pref : sort_scores pref [] = [].
Proof. apply Permutation_nil_r, sort_scores_Permutation. Qed.

(** ** Ratio and percent *)

Lemma percent_total_zero s : total s = 0 -> percent s = 0.
Proof. unfold percent. by intros ->. Qed.

Lemma inject_Z_nonzero z : z <> 0 -> ~ (inject_Z z == 0)%Q.
Proof. unfold Qeq. simpl. lia. Qed.

(** The guard on [total] keeps the division away from a zero divisor. *)
Lemma Number_div_nonzero x z :
  z <> 0 -> Number_div x (inject_Z z) = Some (to_double (x / inject_Z z)).
Proof.
  intros Hz. unfold Number_div.
  destruct (Qeq_bool (inject_Z z) 0) eqn:Heq; [|done].
  apply Qeq_bool_iff in Heq. by apply inject_Z_nonzero in Heq.
Qed.

Lemma ratio_checked_total a : ratio_checked a = Some (ratio a).
Proof.
  unfold ratio_checked, ratio. destruct (Z.eqb_spec (total a) 0); [done|].
  by apply Number_div_nonzero.
Qed.

Lemma percent_checked_total s : percent_checked s = Some (percent s).
Proof.
  unfold percent_checked, percent. destruct (Z.eqb_spec (total s) 0); [done|].
  by rewrite Number_div_nonzero.
Qed.

(** The ratio is the double nearest to the exact ratio, and the percent is
    the rounding of the double nearest to a hundred times the ratio. *)
Lemma ratio_spec_ratio a : (ratio a == to_double (spec_ratio a))%Q.
Proof. unfold ratio, spec_ratio. by destruct (total a =? 0). Qed.

Lemma percent_ratio s : percent s = Math_round (to_double (ratio s * 100)).
Proof. reflexivity. Qed.

Lemma Math_round_mono x y : (x <= y)%Q -> Math_round x <= Math_round y.
Proof. intros Hxy. unfold Math_round. apply Qfloor_resp_le. lra. Qed.

Lemma percent_mono_ratio a b : (ratio a <= ratio b)%Q -> percent a <= percent b.
Proof.
  intros Hab. rewrite !percent_ratio. apply Math_round_mono, to_double_mono. lra.
Qed.

Lemma spec_ratio_nonneg a : nonneg_record a -> (0 <= spec_ratio a)%Q.
Proof.
  intros [Hc Ht]. unfold spec_ratio.
  destruct (Z.eqb_spec (total a) 0) as [|H0]; [lra|].
  apply Qle_shift_div_l.
  - change 0%Q with (inject_Z 0). rewrite <- Zlt_Qlt. lia.
  - rewrite Qmult_0_l. change 0%Q with (inject_Z 0). by rewrite <- Zle_Qle.
Qed.

Lemma spec_ratio_le_1 a : 0 <= correct a <= total a -> (spec_ratio a <= 1)%Q.
Proof.
  intros [Hc Ht]. unfold spec_ratio.
  destruct (Z.eqb_spec (total a) 0) as [|H0]; [lra|].
  apply Qle_shift_div_r.
  - change 0%Q with (inject_Z 0). rewrite <- Zlt_Qlt. lia.
  - rewrite Qmult_1_l. by rewrite <- Zle_Qle.
Qed.

Lemma ratio_nonneg a : nonneg_record a -> (0 <= ratio a)%Q.
Proof.
  intros Ha. rewrite ratio_spec_ratio. by apply to_double_ge_0, spec_ratio_nonneg.
Qed.

Lemma ratio_le_1 a : 0 <= correct a <= total a -> (ratio a <= 1)%Q.
Proof.
  intros Ha. rewrite ratio_spec_ratio.
  destruct to_double_integers as [H1 _].
  apply Qle_trans with (to_double 1); [|by rewrite H1].
  by apply to_double_mono, spec_ratio_le_1.
Qed.

Lemma percent_nonneg s : nonneg_record s -> 0 <= percent s.
Proof.
  intros Hs. rewrite percent_ratio.
  apply Z.le_trans with (Math_round 0); [done|].
  apply Math_round_mono, to_double_ge_0.
  pose proof (ratio_nonneg s Hs). lra.
Qed.

Lemma percent_le_100 s : 0 <= correct s <= total s -> percent s <= 100.
Proof.
  intros Hs. rewrite percent_ratio.
  apply Z.le_trans with (Math_round 100); [|done]. apply Math_round_mono.
  destruct to_double_integers as (_ & H100 & _).
  apply Qle_trans with (to_double 100); [|by rewrite H100].
  apply to_double_mono. pose proof (ratio_le_1 s Hs). lra.
Qed.

(** *** The percent of the specification *)

Lemma spec_percent_total_zero s : total s = 0 -> spec_percent s = 0.
Proof. unfold spec_percent. by intros ->. Qed.

(** [spec_percent] is the integer nearest to [100 * correct / total], the
    upper one of two when the quotient lies half-way. *)
Lemma spec_percent_nearest s :
  total s <> 0 ->
  let x := (100 * inject_Z (correct s) / inject_Z (total s))%Q in
  (x - (1 # 2) < inject_Z (spec_percent s))%Q
  /\ (inject_Z (spec_percent s) <= x + (1 # 2))%Q.
Proof.
  intros Ht x. unfold spec_percent.
  destruct (Z.eqb_spec (total s) 0) as [|_]; [done|]. fold x. unfold Math_round.
  pose proof (Qfloor_le (x + (1 # 2))) as Hle.
  pose proof (Qlt_floor (x + (1 # 2))) as Hlt.
  rewrite inject_Z_plus in Hlt.
  split; [|done]. change (inject_Z 1) with 1%Q in Hlt. lra.
Qed.

(** *** Where the doubles keep the exact order *)

(** Two different fractions with denominators up to 2^26 are more than
    2^-53 apart. *)
Lemma fraction_gap (ca ta cb tb : Z) :
  0 < ta <= 2 ^ 26 -> 0 < tb <= 2 ^ 26 ->
  (inject_Z ca / inject_Z ta < inject_Z cb / inject_Z tb)%Q ->
  (2 ^ (-52) <= inject_Z cb / inject_Z tb - inject_Z ca / inject_Z ta)%Q.
Proof.
  intros Hta Htb Hlt.
  assert (0 < inject_Z ta)%Q as HTa
    by (change 0%Q with (inject_Z 0); rewrite <- Zlt_Qlt; lia).
  assert (0 < inject_Z tb)%Q as HTb
    by (change 0%Q with (inject_Z 0); rewrite <- Zlt_Qlt; lia).
  assert (inject_Z ca * inject_Z tb < inject_Z cb * inject_Z ta)%Q as Hcross.
  { apply (Qmult_lt_r _ _ (inject_Z ta * inject_Z tb)) in Hlt; [|nra].
    field_simplify in Hlt; [|lra..]. unfold Qdiv in Hlt.
    by rewrite Qinv_1, !Qmult_1_r in Hlt || lra. }
  rewrite <- !inject_Z_mult, <- Zlt_Qlt in Hcross.
  assert (inject_Z (ca * tb) + 1 <= inject_Z (cb * ta))%Q as Hstep.
  { change 1%Q with (inject_Z 1). rewrite <- inject_Z_plus, <- Zle_Qle. lia. }
  rewrite !inject_Z_mult in Hstep.
  assert (inject_Z ta * inject_Z tb <= 2 ^ 52)%Q as Hprod.
  { rewrite <- inject_Z_mult. change (2 ^ 52)%Q with (inject_Z (2 ^ 52)).
    rewrite <- Zle_Qle. nia. }
  apply (Qmult_le_r _ _ (inject_Z ta * inject_Z tb)); [nra|].
  change (2 ^ (-52))%Q with (/ 2 ^ 52)%Q.
  assert ((inject_Z cb / inject_Z tb - inject_Z ca / inject_Z ta)
          * (inject_Z ta * inject_Z tb)
          == inject_Z cb * inject_Z ta - inject_Z ca * inject_Z tb)%Q as ->
    by (field; lra).
  assert (/ 2 ^ 52 * (inject_Z ta * inject_Z tb) <= 1)%Q; [|lra].
  apply Qle_trans with (/ 2 ^ 52 * 2 ^ 52)%Q; [|by vm_compute].
  by apply Qmult_le_l.
Qed.

Lemma spec_ratio_gap a b :
  quiz_record a -> quiz_record b ->
  (spec_ratio a < spec_ratio b)%Q ->
  (2 ^ (-52) <= spec_ratio b - spec_ratio a)%Q.
Proof.
  intros [Hca Hta] [Hcb Htb]. unfold spec_ratio.
  destruct (Z.eqb_spec (total b) 0) as [Hb0|Hb0].
  - destruct (Z.eqb_spec (total a) 0) as [Ha0|Ha0]; [lra|].
    intros Hlt. exfalso.
    pose proof (spec_ratio_nonneg a ltac:(split; lia)) as H0.
    unfold spec_ratio in H0. destruct (Z.eqb_spec (total a) 0); [done|lra].
  - destruct (Z.eqb_spec (total a) 0) as [Ha0|Ha0].
    + intros Hlt.
      pose proof (fraction_gap 0 1 (correct b) (total b) ltac:(lia) ltac:(lia)) as H.
      assert (inject_Z 0 / inject_Z 1 == 0)%Q as H0 by reflexivity.
      rewrite H0 in H. specialize (H Hlt). lra.
    + apply fraction_gap; lia.
Qed.

(** For quizzes of up to 2^26 questions the doubles of two ratios stand as
    the exact ratios do. *)
Lemma ratio_keeps_order a b :
  quiz_record a -> quiz_record b ->
  ((ratio a < ratio b)%Q <-> (spec_ratio a < spec_ratio b)%Q)
  /\ ((ratio a == ratio b)%Q <-> (spec_ratio a == spec_ratio b)%Q).
Proof.
  intros Ha Hb.
  assert (forall x y, quiz_record x -> quiz_record y ->
            (spec_ratio x < spec_ratio y)%Q -> (ratio x < ratio y)%Q) as Hlt.
  { intros x y Hx Hy Hxy. rewrite !ratio_spec_ratio.
    pose proof (spec_ratio_gap x y Hx Hy Hxy) as Hgap.
    destruct Hx as [Hx _], Hy as [Hy _].
    pose proof (to_double_near_unit (spec_ratio x)
                  (conj (spec_ratio_nonneg x ltac:(split; lia))
                        (spec_ratio_le_1 x Hx))) as [_ Hux].
    pose proof (to_double_near_unit (spec_ratio y)
                  (conj (spec_ratio_nonneg y ltac:(split; lia))
                        (spec_ratio_le_1 y Hy))) as [Hly _].
    assert (2 ^ (-52) == 2 * 2 ^ (-54) + 2 * 2 ^ (-54))%Q as H52 by reflexivity.
    pose proof (Qpower_0_lt 2 (-54) ltac:(done)). lra. }
  assert (forall x y, (spec_ratio x == spec_ratio y)%Q -> (ratio x == ratio y)%Q)
    as Heq.
  { intros x y Hxy. rewrite !ratio_spec_ratio. by apply to_double_comp. }
  split; split.
  - intros H. destruct (Q_dec (spec_ratio a) (spec_ratio b)) as [[Hs|Hs]|Hs]; [done|..].
    + specialize (Hlt b a Hb Ha Hs). lra.
    + specialize (Heq a b Hs). lra.
  - by apply Hlt.
  - intros H. destruct (Q_dec (spec_ratio a) (spec_ratio b)) as [[Hs|Hs]|Hs]; [..|done].
    + specialize (Hlt a b Ha Hb Hs). lra.
    + specialize (Hlt b a Hb Ha Hs). lra.
  - by apply Heq.
Qed.

Lemma highest_first_spec a b :
  quiz_record a -> quiz_record b -> highest_first a b <-> spec_highest_first a b.
Proof.
  intros Ha Hb. unfold highest_first, spec_highest_first.
  destruct (ratio_keeps_order a b Ha Hb) as [_ Heq].
  destruct (ratio_keeps_order b a Hb Ha) as [Hlt _].
  by rewrite Hlt, Heq.
Qed.

Lemma lowest_first_spec a b :
  quiz_record a -> quiz_record b -> lowest_first a b <-> spec_lowest_first a b.
Proof.
  intros Ha Hb. unfold lowest_first, spec_lowest_first.
  destruct (ratio_keeps_order a b Ha Hb) as [Hlt Heq].
  by rewrite Hlt, Heq.
Qed.

(** ** The top percent *)

Lemma best_from_cons b s l :
  best_from b (s :: l) = best_from (Z.max b (percent s)) l.
Proof.
  unfold best_from. simpl. f_equal.
  destruct (Z.gtb_spec (percent s) b); lia.
Qed.

Lemma best_from_ge b l :
  b <= best_from b l /\ forall r, r ∈ l -> percent r <= best_from b l.
Proof.
  revert b. induction l as [|s l IH]; intros b.
  - split; [done|]. intros r Hr. by apply elem_of_nil in Hr.
  - rewrite best_from_cons. destruct (IH (Z.max b (percent s))) as [Hb Hl].
    split; [lia|]. intros r [->|Hr]%elem_of_cons; [lia|by apply Hl].
Qed.

Lemma best_from_attained b l :
  best_from b l = b \/ exists r, r ∈ l /\ percent r = best_from b l.
Proof.
  revert b. induction l as [|s l IH]; intros b; [by left|].
  rewrite best_from_cons.
  destruct (IH (Z.max b (percent s))) as [Heq|(r & Hr & Heq)].
  - rewrite Heq. destruct (Z.max_spec b (percent s)) as [[_ ->]|[_ ->]].
    + right. exists s. split; [left|done].
    + by left.
  - right. exists r. split; [by right|done].
Qed.

Lemma best_from_Permutation b l l' :
  l ≡ₚ l' -> best_from b l = best_from b l'.
Proof.
  intros Hp. revert b.
  induction Hp as [|x l l' _ IH|x y l|l l' l'' _ IH1 _ IH2]; intros b.
  - done.
  - rewrite !best_from_cons. apply IH.
  - rewrite !best_from_cons. f_equal. lia.
  - by rewrite IH1.
Qed.

Lemma topPercent_best l : l <> [] -> topPercent l = Some (best_from 0 l).
Proof. by destruct l. Qed.

Lemma topPercent_Permutation l l' : l ≡ₚ l' -> topPercent l = topPercent l'.
Proof.
  intros Hp. destruct l as [|x l].
  - by apply Permutation_nil_l in Hp as ->.
  - destruct l' as [|y l'']; [by apply Permutation_nil_r in Hp|].
    rewrite !topPercent_best by done. f_equal. by apply best_from_Permutation.
Qed.

Lemma topCount_Permutation l l' : l ≡ₚ l' -> topCount l = topCount l'.
Proof.
  intros Hp. unfold topCount. rewrite (topPercent_Permutation l l') by done.
  by rewrite Hp.
Qed.

Lemma topPercent_maximum l :
  l <> [] -> Forall nonneg_record l ->
  exists M, topPercent l = Some M /\ is_maximum M l.
Proof.
  intros Hl Hnn. exists (best_from 0 l). split; [by apply topPercent_best|].
  destruct (best_from_ge 0 l) as [H0 Hge].
  split; [|done].
  destruct (best_from_attained 0 l) as [Heq|?]; [|done].
  destruct l as [|s l]; [done|]. exists s. split; [left|].
  apply Forall_cons in Hnn as [Hs _]. apply percent_nonneg in Hs.
  pose proof (Hge s (list_elem_of_here _ _)). lia.
Qed.

Lemma topCount_filter l M :
  topPercent l = Some M ->
  topCount l = length (filter (fun r => percent r = M) l).
Proof.
  intros HM. unfold topCount. rewrite HM. f_equal.
  apply list_filter_iff. intros r. simpl. by rewrite Z.eqb_eq.
Qed.

(** ** The rounding of the embedding against primitive doubles *)

Lemma small_counts_complete n c t :
  0 <= c <= t -> t <= Z.of_nat n -> (c, t) ∈ small_counts n.
Proof.
  intros Hc Ht. unfold small_counts.
  apply list_elem_of_bind. exists (Z.to_nat t). split; [|apply elem_of_seq; lia].
  apply list_elem_of_bind. exists (Z.to_nat c). split; [|apply elem_of_seq; lia].
  rewrite !Z2Nat.id by lia. apply list_elem_of_here.
Qed.

(** For every quiz of up to 100 questions the primitive double of the
    ratio denotes the ratio of the embedding. *)
Lemma ratio64_model s :
  0 <= correct s <= total s -> total s <= 100 ->
  exists q, b64_to_Q (ratio64 (correct s) (total s)) = Some q /\ (q == ratio s)%Q.
Proof.
  intros Hc Ht.
  assert (forallb ratio64_agrees (small_counts 100) = true) as Hall by (by vm_compute).
  rewrite forallb_forall in Hall.
  specialize (Hall (correct s, total s)).
  rewrite <- list_elem_of_In in Hall.
  specialize (Hall (small_counts_complete 100 _ _ Hc Ht)).
  unfold ratio64_agrees in Hall. cbn [fst snd] in Hall.
  destruct (b64_to_Q _) as [q|]; [|done]. exists q. split; [done|].
  apply Qeq_bool_iff in Hall. etrans; [exact Hall|]. by destruct s.
Qed.

(** And the percent over primitive doubles is the percent of the
    embedding. *)
Lemma percent64_model s :
  0 <= correct s <= total s -> total s <= 100 ->
  percent64 (correct s) (total s) = Some (percent s).
Proof.
  intros Hc Ht.
  assert (forallb percent64_agrees (small_counts 100) = true) as Hall by (by vm_compute).
  rewrite forallb_forall in Hall.
  specialize (Hall (correct s, total s)).
  rewrite <- list_elem_of_In in Hall.
  specialize (Hall (small_counts_complete 100 _ _ Hc Ht)).
  apply bool_decide_eq_true in Hall. etrans; [exact Hall|]. by destruct s.
Qed.

(** For quizzes of up to 12 questions two ratios compare over primitive
    doubles as they do in the embedding: equal or not, and the sign of
    the rounded difference. *)
Lemma compare64_model a b :
  0 <= correct a <= total a -> total a <= 12 ->
  0 <= correct b <= total b -> total b <= 12 ->
  PrimFloat.eqb (ratio64 (correct b) (total b)) (ratio64 (correct a) (total a))
  = Qeq_bool (ratio b) (ratio a)
  /\ sign64 (ratio64 (correct b) (total b) - ratio64 (correct a) (total a))%float
     = (to_double (ratio b - ratio a) ?= 0)%Q.
Proof.
  intros Hca Hta Hcb Htb.
  assert (forallb compare64_agrees
            (pa ← small_counts 12; pb ← small_counts 12; [(pa, pb)]) = true)
    as Hall by (by vm_compute).
  rewrite forallb_forall in Hall.
  specialize (Hall ((correct a, total a), (correct b, total b))).
  rewrite <- list_elem_of_In in Hall.
  assert (((correct a, total a), (correct b, total b))
          ∈ (pa ← small_counts 12; pb ← small_counts 12; [(pa, pb)])) as Hin.
  { apply list_elem_of_bind. exists (correct a, total a).
    split; [|by apply small_counts_complete].
    apply list_elem_of_bind. exists (correct b, total b).
    split; [apply list_elem_of_here|by apply small_counts_complete]. }
  specialize (Hall Hin). unfold compare64_agrees in Hall.
  apply andb_true_iff in Hall as [H1 H2].
  apply bool_decide_eq_true in H1, H2. by destruct a, b.
Qed.

(** Where the exact arithmetic and the doubles part.  At 23 out of 40 the
    double of [23 / 40 * 100] lies below 57.5.  The ratios 134217727 /
    134217728 and 134217728 / 134217729 differ and are the same double. *)
Example mixed_rounding :
  percent (counts_record (23, 40)) = 57
  /\ percent64 23 40 = Some 57
  /\ spec_percent (counts_record (23, 40)) = 58
  /\ (ratio (counts_record (134217727, 134217728)%Z)
      == ratio (counts_record (134217728, 134217729)%Z))%Q
  /\ PrimFloat.eqb (ratio64 134217727 134217728) (ratio64 134217728 134217729)
     = true
  /\ (spec_ratio (counts_record (134217727, 134217728)%Z)
      < spec_ratio (counts_record (134217728, 134217729)%Z))%Q.
Proof. by vm_compute. Qed.

(** For every quiz of up to 39 questions the percent is the percent of the
    specification. *)
Lemma percent_small s :
  0 <= correct s <= total s -> total s <= 39 -> percent s = spec_percent s.
Proof.
  intros Hc Ht.
  assert (forallb percent_exact (small_counts 39) = true) as Hall by (by vm_compute).
  rewrite forallb_forall in Hall.
  specialize (Hall (correct s, total s)).
  rewrite <- list_elem_of_In in Hall.
  specialize (Hall (small_counts_complete 39 _ _ Hc Ht)).
  apply Z.eqb_eq in Hall. etrans; [|etrans; [exact Hall|]]; by destruct s.
Qed.

(** The percent grows with the exact ratio. *)
Lemma percent_mono_spec_ratio a b :
  (spec_ratio a <= spec_ratio b)%Q -> percent a <= percent b.
Proof.
  intros Hab. apply percent_mono_ratio. rewrite !ratio_spec_ratio.
  by apply to_double_mono.
Qed.

(** For every quiz of fewer than 200 questions the percent is 100 for a
    full score only and 0 for an empty one only. *)
Lemma percent_extremes_small s :
  0 <= correct s <= total s -> 0 < total s -> total s < 200 ->
  (percent s = 100 -> correct s = total s) /\ (percent s = 0 -> correct s = 0).
Proof.
  intros Hc Ht0 Ht.
  assert (0 < inject_Z (total s))%Q as HT
    by (change 0%Q with (inject_Z 0); rewrite <- Zlt_Qlt; lia).
  assert (spec_ratio s == inject_Z (correct s) / inject_Z (total s))%Q as Hs.
  { unfold spec_ratio. destruct (Z.eqb_spec (total s) 0); [lia|reflexivity]. }
  split; intros Hp.
  - destruct (Z.eq_dec (correct s) (total s)) as [|Hne]; [done|exfalso].
    assert (percent s <= percent (counts_record (198, 199))) as Hle.
    { apply percent_mono_spec_ratio. rewrite Hs.
      change (spec_ratio (counts_record (198, 199))) with (198 / 199)%Q.
      apply Qle_shift_div_r; [done|].
      assert (198 / 199 * inject_Z (total s) == inject_Z (198 * total s) / 199)%Q
        as -> by (rewrite inject_Z_mult; field).
      apply Qle_shift_div_l; [done|].
      change 199%Q with (inject_Z 199). rewrite <- inject_Z_mult, <- Zle_Qle. lia. }
    change (percent (counts_record (198, 199))) with 99 in Hle. lia.
  - destruct (Z.eq_dec (correct s) 0) as [|Hne]; [done|exfalso].
    assert (percent (counts_record (1, 199)) <= percent s) as Hle.
    { apply percent_mono_spec_ratio. rewrite Hs.
      change (spec_ratio (counts_record (1, 199))) with (1 / 199)%Q.
      apply Qle_shift_div_l; [done|].
      assert (1 / 199 * inject_Z (total s) == inject_Z (total s) / 199)%Q
        as -> by field.
      apply Qle_shift_div_r; [done|].
      change 199%Q with (inject_Z 199). rewrite <- inject_Z_mult, <- Zle_Qle. lia. }
    change (percent (counts_record (1, 199))) with 1 in Hle. lia.
Qed.

(** The percent is a function of the exact ratio, and grows with it. *)
Lemma percent_percent_of s : total s <> 0 -> percent s = percent_of (spec_ratio s).
Proof.
  intros Ht. unfold percent, percent_of, spec_ratio.
  by destruct (Z.eqb_spec (total s) 0).
Qed.

Lemma percent_of_mono x y : (x <= y)%Q -> percent_of x <= percent_of y.
Proof.
  intros Hxy. unfold percent_of. apply Math_round_mono, to_double_mono.
  pose proof (to_double_mono x y Hxy). lra.
Qed.

(** The two roundings of the script move the percent by at most one from
    the percent of the specification, whatever the size of the quiz. *)
Lemma percent_near_spec s :
  0 <= correct s <= total s ->
  spec_percent s - 1 <= percent s <= spec_percent s + 1.
Proof.
  intros Hc.
  destruct (Z.eq_dec (total s) 0) as [H0|H0].
  { rewrite percent_total_zero, spec_percent_total_zero by done. lia. }
  destruct (spec_percent_nearest s H0) as [Hlo Hhi].
  set (k := spec_percent s) in *.
  assert (0 < inject_Z (total s))%Q as HT
    by (change 0%Q with (inject_Z 0); rewrite <- Zlt_Qlt; lia).
  assert (spec_ratio s == inject_Z (correct s) / inject_Z (total s))%Q as Hs.
  { unfold spec_ratio. destruct (Z.eqb_spec (total s) 0); [lia|reflexivity]. }
  assert (100 * inject_Z (correct s) / inject_Z (total s) == 100 * spec_ratio s)%Q
    as Hx by (rewrite Hs; field; lra).
  rewrite Hx in Hlo, Hhi.
  pose proof (spec_ratio_nonneg s ltac:(split; lia)) as Hr0.
  pose proof (spec_ratio_le_1 s Hc) as Hr1.
  assert (0 <= k <= 100) as Hk.
  { split.
    - apply Z.lt_succ_r. rewrite Zlt_Qlt. change (inject_Z 0) with 0%Q.
      unfold Z.succ. rewrite inject_Z_plus. change (inject_Z 1) with 1%Q. lra.
    - assert (k < 101) as Hlt; [|lia]. rewrite Zlt_Qlt.
      change (inject_Z 101) with 101%Q. lra. }
  assert (forallb percent_within_one (Z.of_nat <$> seq 0 101) = true) as Hall
    by (by vm_compute).
  rewrite forallb_forall in Hall. specialize (Hall k).
  rewrite <- list_elem_of_In in Hall.
  assert (k ∈ Z.of_nat <$> seq 0 101) as Hin.
  { apply list_elem_of_fmap. exists (Z.to_nat k). split; [lia|].
    apply elem_of_seq. lia. }
  apply Hall, andb_prop in Hin as [Hdown Hup].
  apply Z.leb_le in Hdown, Hup.
  rewrite (percent_percent_of s H0).
  assert ((2 * k - 1) # 200 == (inject_Z k - (1 # 2)) / 100)%Q as Hl.
  { unfold Qeq. simpl. lia. }
  assert ((2 * k + 1) # 200 == (inject_Z k + (1 # 2)) / 100)%Q as Hu.
  { unfold Qeq. simpl. lia. }
  split.
  - etrans; [exact Hdown|]. apply percent_of_mono. rewrite Hl.
    apply Qle_shift_div_r; [done|]. lra.
  - etrans; [|exact Hup]. apply percent_of_mono. rewrite Hu.
    apply Qle_shift_div_l; [done|]. lra.
Qed.

Lemma percent_of_comp x y : (x == y)%Q -> percent_of x = percent_of y.
Proof.
  intros Hxy. apply Z.le_antisymm; apply percent_of_mono; lra.
Qed.

(** A full score is 100 percent and an empty one is 0 percent. *)
Lemma percent_full_empty s :
  0 < total s ->
  (correct s = total s -> percent s = 100) /\ (correct s = 0 -> percent s = 0).
Proof.
  intros Ht.
  assert (~ inject_Z (total s) == 0)%Q as HT by (apply inject_Z_nonzero; lia).
  assert (spec_ratio s == inject_Z (correct s) / inject_Z (total s))%Q as Hs.
  { unfold spec_ratio. destruct (Z.eqb_spec (total s) 0); [lia|reflexivity]. }
  rewrite (percent_percent_of s) by lia. split; intros Hc.
  - rewrite (percent_of_comp _ 1); [done|]. rewrite Hs, Hc. by field.
  - rewrite (percent_of_comp _ 0); [done|]. rewrite Hs, Hc. by field.
Qed.

(** ** The store *)

Lemma JSON_stringify_nonempty v : printable v -> JSON_stringify v <> [].
Proof. intros (c & r & -> & _)%JSON_stringify_head. done. Qed.

Lemma getScoresFromStorage_raw st raw :
  getItem "scores" st = Some raw -> raw <> [] ->
  getScoresFromStorage st = default (VArr []) (JSON_parse raw).
Proof.
  intros Hraw Hne. unfold getScoresFromStorage. rewrite Hraw.
  destruct raw as [|c r]; [done|]. by destruct (JSON_parse (c :: r)).
Qed.

Lemma getScoresFromStorage_absent st :
  getItem "scores" st = None -> getScoresFromStorage st = VArr [].
Proof. intros Hraw. unfold getScoresFromStorage. by rewrite Hraw. Qed.

Lemma getScoresFromStorage_set v st :
  printable v -> getScoresFromStorage (setScoresInStorage v st) = v.
Proof.
  intros Hv.
  rewrite (getScoresFromStorage_raw _ (JSON_stringify v)).
  - by rewrite JSON_parse_stringify.
  - unfold setScoresInStorage, getItem, setItem. apply lookup_insert_eq.
  - by apply JSON_stringify_nonempty.
Qed.

Lemma getScoresFromStorage_other_key k v st :
  k <> "scores" ->
  getScoresFromStorage (setItem k v st) = getScoresFromStorage st.
Proof.
  intros Hk. unfold getScoresFromStorage, getItem, setItem.
  by rewrite lookup_insert_ne.
Qed.

Lemma getSortPreference_other_key k v st :
  k <> "scoreSort" ->
  getSortPreference (setItem k v st) = getSortPreference st.
Proof.
  intros Hk. unfold getSortPreference, getItem, setItem.
  by rewrite lookup_insert_ne.
Qed.

Lemma holds_records st X :
  holds st X -> value_records (getScoresFromStorage st) = Some X.
Proof. intros ->. apply value_records_records_value. Qed.

Lemma holds_empty st : getItem "scores" st = None -> holds st [].
Proof. intros. unfold holds. by rewrite getScoresFromStorage_absent. Qed.

Lemma holds_set X st : holds (setScoresInStorage (records_value X) st) X.
Proof. apply getScoresFromStorage_set, records_value_printable. Qed.

(** Appending to a store that holds [X] gives a store that holds [X] and
    the new record. *)
Lemma saveScoreToStorage_holds n c t now st X :
  holds st X ->
  exists st',
    saveScoreToStorage n c t now st = Some st'
    /\ holds st' (X ++ [{| name := n; correct := c; total := t; ts := Some now |}])
    /\ forall k, k <> "scores" -> getItem k st' = getItem k st.
Proof.
  intros HX. unfold saveScoreToStorage. rewrite HX. unfold records_value.
  eexists. split; [reflexivity|]. split.
  - pose proof (holds_set (X ++ [{| name := n; correct := c; total := t;
                               ts := Some now |}]) st) as Hset.
    unfold records_value in Hset. by rewrite fmap_app in Hset.
  - intros k Hk. unfold setScoresInStorage, getItem, setItem.
    by rewrite lookup_insert_ne.
Qed.

(** ** Rendering *)

Lemma displayScores_records p X :
  value_records (getScoresFromStorage (storage p)) = Some X ->
  let ranked := sort_scores (getSortPreference (storage p)) X in
  displayScores p
  = Some (with_table (render_row (topPercent ranked) <$> ranked)
            (match topPercent ranked with
             | None => None
             | Some tp => Some (top_summary tp (topCount ranked))
             end) p).
Proof. intros HX. unfold displayScores. by rewrite HX. Qed.

Lemma displayScores_storage p p' : displayScores p = Some p' -> storage p' = storage p.
Proof.
  unfold displayScores.
  destruct (value_records _); simpl; [|done]. by intros [= <-].
Qed.

(** ** The form *)

Lemma filter_and_length {A} (f g : A -> bool) l :
  (length (List.filter (fun x => f x && g x) l) <= length (List.filter g l))%nat.
Proof.
  induction l as [|x l IH]; simpl; [done|].
  destruct (f x), (g x); simpl; lia.
Qed.

Lemma all_radios_cons b bs : all_radios (b :: bs) = b_radios b ++ all_radios bs.
Proof. reflexivity. Qed.

Lemma correctSelections_le bs :
  Forall one_choice bs -> (correctSelections bs <= length bs)%nat.
Proof.
  unfold correctSelections.
  induction 1 as [|b bs Hb _ IH]; simpl; [done|].
  rewrite all_radios_cons, List.filter_app, length_app.
  pose proof (filter_and_length r_correct r_checked (b_radios b)).
  unfold one_choice in Hb. lia.
Qed.

Lemma page_wf_one_choice bs : page_wf bs -> Forall one_choice bs.
Proof.
  intros Hwf. apply Forall_lookup. intros i b Hb. by apply (Hwf i b).
Qed.

Lemma some_unanswered_true bs i :
  (i < length bs)%nat -> selected_radio bs i = None -> some_unanswered bs = true.
Proof.
  intros Hi Hsel. unfold some_unanswered. apply existsb_exists.
  exists i. split; [apply in_seq; lia|]. unfold answered. by rewrite Hsel.
Qed.

(** A submission that fails validation shows an alert and marks the
    blocks; nothing else changes. *)
Lemma handleFormSubmit_unanswered now p :
  some_unanswered (blocks p) = true ->
  handleFormSubmit now p
  = Some (alert msg_answer_all (with_blocks (mark_blocks (blocks p)) p)).
Proof. intros Hun. unfold handleFormSubmit. by rewrite Hun. Qed.

Lemma handleFormSubmit_no_name now p :
  some_unanswered (blocks p) = false -> trim (usernameInput p) = [] ->
  handleFormSubmit now p
  = Some (alert msg_enter_name (with_blocks (mark_blocks (blocks p)) p)).
Proof. intros Hun Hname. unfold handleFormSubmit. by rewrite Hun, Hname. Qed.

(** A submission that passes validation, on a store that holds [X]. *)
Lemma handleFormSubmit_accepted now p X :
  some_unanswered (blocks p) = false -> trim (usernameInput p) <> [] ->
  holds (storage p) X ->
  exists p',
    handleFormSubmit now p = Some p'
    /\ holds (storage p') (X ++ [submitted_record now p])
    /\ submitDisabled p' = true /\ newPlayerHidden p' = false.
Proof.
  intros Hun Hname HX. unfold handleFormSubmit. rewrite Hun.
  destruct (trim (usernameInput p)) as [|c r] eqn:Htrim; [done|].
  cbn [storage with_table with_result with_blocks].
  destruct (saveScoreToStorage_holds (c :: r)
              (Z.of_nat (correctSelections (blocks p)))
              (Z.of_nat (length (blocks p))) now (storage p) X HX)
    as (st' & -> & Hst' & _).
  cbn [mbind option_bind].
  erewrite displayScores_records
    by (cbn [storage with_storage]; apply holds_records, Hst').
  cbn [mbind option_bind]. eexists. split; [reflexivity|].
  unfold submitted_record. rewrite Htrim. by cbn.
Qed.

(** ** Question blocks: how they arise and how they change *)

Lemma displayQuestions_wf questions p :
  page_wf (blocks (displayQuestions questions p)).
Proof.
  intros i b. unfold displayQuestions. cbn [blocks with_blocks].
  rewrite list_lookup_imap. destruct (questions !! i) as [qa|]; [|done].
  intros [= <-]. unfold one_choice, createAnswerOptions. cbn [b_radios]. split.
  - apply Forall_fmap, Forall_forall. by intros.
  - induction (qa.2) as [|a l IH]; simpl; [lia|done].
Qed.

Lemma checked_at_most_one (l : list Radio) (k j : nat) :
  (length (List.filter r_checked
             (imap (fun j' r => set_checked (k + j' =? j)%nat r) l)) <= 1)%nat
  /\ ((j < k)%nat ->
      List.filter r_checked
        (imap (fun j' r => set_checked (k + j' =? j)%nat r) l) = []).
Proof.
  revert k. induction l as [|r l IH]; intros k; [simpl; split; [lia|done]|].
  cbn [imap].
  rewrite (imap_ext _ (fun j' r => set_checked (S k + j' =? j)%nat r) l)
    by (intros j' r' _; unfold compose;
        by replace (k + S j')%nat with (S k + j')%nat by lia).
  destruct (IH (S k)) as [Hle Hnone]. cbn [List.filter set_checked r_checked].
  destruct (Nat.eqb_spec (k + 0) j) as [Hk|Hk].
  - split; [|lia]. rewrite Hnone by lia. simpl. lia.
  - split; [done|]. intros. apply Hnone. lia.
Qed.

Lemma check_radio_wf i j bs : page_wf bs -> page_wf (check_radio i j bs).
Proof.
  intros Hwf. unfold check_radio.
  destruct (bs !! i) as [bi|] eqn:Hbi; [|done]. cbn [mbind option_bind].
  destruct (b_radios bi !! j) as [target|] eqn:Htarget; [|done].
  assert (r_name target = i) as Hname.
  { destruct (Hwf i bi Hbi) as [Hnames _].
    rewrite Forall_forall in Hnames. apply Hnames.
    by eapply list_elem_of_lookup_2. }
  intros i' b'. rewrite list_lookup_imap.
  destruct (bs !! i') as [b|] eqn:Hb; [|done]. intros [= <-].
  destruct (Hwf i' b Hb) as [Hnames Hone]. unfold one_choice. cbn [b_radios].
  split.
  - rewrite Forall_forall in *. intros r (j' & Hr)%list_elem_of_lookup_1.
    rewrite list_lookup_imap in Hr.
    destruct (b_radios b !! j') as [r0|] eqn:Hr0; [|done].
    injection Hr as <-.
    assert (r_name r0 = i') by (by eapply Hnames, list_elem_of_lookup_2).
    by destruct (r_name r0 =? r_name target)%nat.
  - rewrite Hname. destruct (Nat.eqb_spec i' i) as [->|Hne].
    + rewrite (imap_ext _ (fun j' r => set_checked (0 + j' =? j)%nat r)).
      * apply checked_at_most_one.
      * intros j' r Hr. rewrite Forall_forall in Hnames.
        rewrite (Hnames r) by (by eapply list_elem_of_lookup_2).
        by rewrite Nat.eqb_refl.
    + rewrite (imap_ext _ (const id)).
      * by rewrite imap_const, list_fmap_id.
      * intros j' r Hr. rewrite Forall_forall in Hnames.
        rewrite (Hnames r) by (by eapply list_elem_of_lookup_2).
        by apply Nat.eqb_neq in Hne as ->.
Qed.

(** The blocks of any page that [displayQuestions] has built and on which
    the player has clicked any radios are well formed. *)
Lemma clicked_blocks_wf questions p (clicks : list (nat * nat)) :
  page_wf (foldl (fun bs ij => check_radio ij.1 ij.2 bs)
             (blocks (displayQuestions questions p)) clicks).
Proof.
  induction clicks as [|ij clicks IH] using rev_ind.
  - apply displayQuestions_wf.
  - rewrite foldl_app. cbn [foldl]. by apply check_radio_wf.
Qed.
(** * The claims *)

Lemma StronglySorted_on {A} (P : A -> Prop) (R1 R2 : relation A) l :
  (forall x y, P x -> P y -> R1 x y -> R2 x y) ->
  Forall P l -> StronglySorted R1 l -> StronglySorted R2 l.
Proof.
  intros Himpl HP. induction 1 as [|x l Hl IH Hx]; [constructor|].
  apply Forall_cons in HP as [Hpx HP]. constructor; [by apply IH|].
  rewrite List.Forall_forall in Hx. rewrite Forall_forall in HP.
  apply List.Forall_forall. intros y Hy.
  apply Himpl; [done|by apply HP, list_elem_of_In|by apply Hx].
Qed.

(** What the rows of the table show: the names and the scores of the
    ranked records, in their order. *)
Lemma render_row_cells (top : option Z) (ranked : list ScoreRecord) :
  row_name <$> (render_row top <$> ranked) = name <$> ranked
  /\ row_score <$> (render_row top <$> ranked) = score_cell <$> ranked.
Proof.
  rewrite <- !list_fmap_compose. split; by apply list_fmap_ext.
Qed.

(** C1, as it stands, fails: in the mode highest the record with the
    smaller ratio comes first when the two ratios are the same double and
    it is the newer one. *)
Lemma ratio_order_not_exact :
  (spec_ratio near_one_a < spec_ratio near_one_b)%Q
  /\ sort_scores (js "highest") [near_one_b; near_one_a] = [near_one_a; near_one_b]
  /\ ~ StronglySorted spec_highest_first
         (sort_scores (js "highest") [near_one_b; near_one_a])
  /\ PrimFloat.eqb (ratio64 134217727 134217728) (ratio64 134217728 134217729) = true
  /\ exists p',
       displayScores
         (blank_page (setItem "scoreSort" (js "highest")
                        (setScoresInStorage (records_value [near_one_b; near_one_a]) ∅)))
       = Some p'
       /\ row_name <$> scoreRows p' = [js "a"; js "b"].
Proof.
  assert (spec_ratio near_one_a < spec_ratio near_one_b)%Q as Hlt by (by vm_compute).
  assert (sort_scores (js "highest") [near_one_b; near_one_a]
          = [near_one_a; near_one_b]) as Hsort by (by vm_compute).
  split; [done|]. split; [done|]. split; [|split; [by vm_compute|]].
  - rewrite Hsort. intros Hs. apply StronglySorted_inv in Hs as [_ Hs].
    apply Forall_cons in Hs as [[Hs|[Hs _]] _]; lra.
  - eexists. split; [by vm_compute|done].
Qed.

(** C1, amended: the table that [displayScores] writes lists the stored
    records, by name and score, in the order of the stored preference:
    newest is descending timestamp, oldest is ascending timestamp, highest
    is descending ratio with ties by descending timestamp, lowest is
    ascending ratio with ties by ascending timestamp, where the ratio is the
    double of [correct / total] and a tie is two equal doubles.  For scores
    out of at most 2^26 questions this is the order of the exact ratios.
    For the records A 7/10, B 9/10, C 5/10 saved at times t1 < t2 < t3 the
    preference highest gives the order B, A, C. *)
Theorem displayScores_orders_by_preference (p : Page) (X : list ScoreRecord) :
  value_records (getScoresFromStorage (storage p)) = Some X ->
  let pref := getSortPreference (storage p) in
  let ranked := sort_scores pref X in
  (exists p', displayScores p = Some p'
              /\ row_name <$> scoreRows p' = name <$> ranked
              /\ row_score <$> scoreRows p' = score_cell <$> ranked
              /\ scoreRows p' = render_row (topPercent ranked) <$> ranked)
  /\ ranked ≡ₚ X
  /\ (pref = js "newest" -> StronglySorted newest_first ranked)
  /\ (pref = js "oldest" -> StronglySorted oldest_first ranked)
  /\ (pref = js "highest" ->
      StronglySorted highest_first ranked
      /\ (Forall quiz_record X -> StronglySorted spec_highest_first ranked))
  /\ (pref = js "lowest" ->
      StronglySorted lowest_first ranked
      /\ (Forall quiz_record X -> StronglySorted spec_lowest_first ranked))
  /\ (forall t1 t2 t3, t1 < t2 < t3 ->
        X = scenario_records t1 t2 t3 -> pref = js "highest" ->
        ranked = [player_B t2; player_A t1; player_C t3]).
Proof.
  intros HX pref ranked.
  assert (ranked ≡ₚ X) as Hperm by apply sort_scores_Permutation.
  split; [|split; [done|]]; [|split_and!].
  - rewrite (displayScores_records p X HX). eexists. split; [reflexivity|].
    cbn [scoreRows with_table]. fold pref ranked.
    destruct (render_row_cells (topPercent ranked) ranked) as [Hn Hs]. done.
  - intros Hp. subst ranked. rewrite Hp.
    apply (Array_sort_StronglySorted _ _ before_newest).
  - intros Hp. subst ranked. rewrite Hp.
    apply (Array_sort_StronglySorted _ _ before_oldest).
  - intros Hp. subst ranked. rewrite Hp in *.
    pose proof (Array_sort_StronglySorted _ _ before_highest X) as Hs.
    split; [done|]. intros Hq.
    apply (StronglySorted_on quiz_record highest_first); [|by rewrite Hperm|done].
    intros x y Hx Hy. by apply highest_first_spec.
  - intros Hp. subst ranked. rewrite Hp in *.
    pose proof (Array_sort_StronglySorted _ _ before_lowest X) as Hs.
    split; [done|]. intros Hq.
    apply (StronglySorted_on quiz_record lowest_first); [|by rewrite Hperm|done].
    intros x y Hx Hy. by apply lowest_first_spec.
  - intros t1 t2 t3 _ -> Hp. subst ranked. rewrite Hp. by vm_compute.
Qed.

Lemma displayScores_orders_by_preference_witness :
  exists p',
    displayScores (blank_page (scenario_store (js "highest"))) = Some p'
    /\ row_name <$> scoreRows p' = [js "B"; js "A"; js "C"]
    /\ row_score <$> scoreRows p' = [js "9/10"; js "7/10"; js "5/10"].
Proof.
  destruct (displayScores_orders_by_preference
              (blank_page (scenario_store (js "highest")))
              (scenario_records 1 2 3) ltac:(by vm_compute))
    as ((p' & Hp & Hnames & Hscores & _) & _).
  exists p'. split; [exact Hp|]. split.
  - rewrite Hnames. by vm_compute.
  - rewrite Hscores. by vm_compute.
Defined.

(** C2, as it stands, fails: of the two stored scores 23/40 and 29/50 the
    rounded [100 * correct / total] is 58 for both, so that two players
    would share the top; the script computes 57 for the first, and the
    summary names one player. *)
Lemma top_count_by_rounded_double :
  spec_percent half_way_a = 58 /\ spec_percent half_way_b = 58
  /\ length (filter (fun r => spec_percent r = 58) [half_way_a; half_way_b]) = 2%nat
  /\ percent half_way_a = 57 /\ percent64 23 40 = Some 57
  /\ topPercent [half_way_a; half_way_b] = Some 58
  /\ topCount [half_way_a; half_way_b] = 1%nat
  /\ exists p',
       displayScores
         (blank_page (setScoresInStorage (records_value [half_way_a; half_way_b]) ∅))
       = Some p'
       /\ topScoreBox p' = Some (trophy ++ js " Top score: 58% (1 player)").
Proof.
  split_and!; try (by vm_compute). eexists. split; by vm_compute.
Qed.

(** C2, amended: for a non-empty list of stored records (counts not
    negative) the top percent is the greatest [percent] of the list and the
    top count is the number of records with that percent; both are the same
    for every sort preference, and they are what the summary box shows.
    Here [percent] is what the script computes: 0 for a total of 0, and
    otherwise the rounding of the double [(correct / total) * 100], which is
    the rounded [100 * correct / total] for every score out of at most 39
    questions and within one of it for every score. *)
Theorem top_score_is_global_maximum (X : list ScoreRecord) :
  X <> [] -> Forall nonneg_record X ->
  exists M,
    is_maximum M X
    /\ (forall r, r ∈ X ->
          percent_checked r = Some (percent r)
          /\ (total r = 0 -> percent r = 0)
          /\ (0 <= correct r <= total r ->
              spec_percent r - 1 <= percent r <= spec_percent r + 1
              /\ (total r <= 39 -> percent r = spec_percent r)))
    /\ (forall pref,
          topPercent (sort_scores pref X) = Some M
          /\ topCount (sort_scores pref X)
             = length (filter (fun r => percent r = M) X))
    /\ (forall p,
          value_records (getScoresFromStorage (storage p)) = Some X ->
          exists p', displayScores p = Some p'
                     /\ topScoreBox p'
                        = Some (top_summary M
                                  (length (filter (fun r => percent r = M) X)))).
Proof.
  intros Hne Hnn.
  destruct (topPercent_maximum X Hne Hnn) as (M & HM & Hmax).
  assert (forall pref,
             topPercent (sort_scores pref X) = Some M
             /\ topCount (sort_scores pref X)
                = length (filter (fun r => percent r = M) X)) as Hpref.
  { intros pref.
    rewrite (topPercent_Permutation _ _ (sort_scores_Permutation pref X)).
    rewrite (topCount_Permutation _ _ (sort_scores_Permutation pref X)).
    split; [done|by apply topCount_filter]. }
  exists M. split; [done|]. split; [|split; [done|]].
  - intros r _. split; [apply percent_checked_total|].
    split; [apply percent_total_zero|]. intros Hc.
    split; [by apply percent_near_spec|]. intros Ht. by apply percent_small.
  - intros p HX. eexists. split; [by apply displayScores_records|].
    cbn [topScoreBox with_table].
    by destruct (Hpref (getSortPreference (storage p))) as [-> ->].
Qed.

Lemma top_score_is_global_maximum_witness :
  scenario_records 1 2 3 <> [] /\ Forall nonneg_record (scenario_records 1 2 3)
  /\ (forall pref,
        topPercent (sort_scores pref (scenario_records 1 2 3)) = Some 90
        /\ topCount (sort_scores pref (scenario_records 1 2 3)) = 1%nat)
  /\ exists p',
       displayScores (blank_page (scenario_store (js "oldest"))) = Some p'
       /\ topScoreBox p' = Some (trophy ++ js " Top score: 90% (1 player)").
Proof.
  assert (scenario_records 1 2 3 <> []) as Hne by done.
  assert (Forall nonneg_record (scenario_records 1 2 3)) as Hnn.
  { repeat constructor; simpl; lia. }
  split; [done|]. split; [done|].
  destruct (top_score_is_global_maximum _ Hne Hnn) as (M & _ & _ & Hpref & Hbox).
  assert (M = 90) as ->.
  { destruct (Hpref (js "none")) as [Hnone _].
    vm_compute in Hnone. by injection Hnone. }
  split.
  - intros pref. by destruct (Hpref pref) as [-> ->].
  - destruct (Hbox (blank_page (scenario_store (js "oldest"))) ltac:(by vm_compute))
      as (p' & Hp' & Htop).
    exists p'. split; [done|]. rewrite Htop. by vm_compute.
Defined.

(** C3 fails on the script for a stored text that is JSON but no array:
    with the text null under the key scores, [getScoresFromStorage] returns
    null, not the empty array, and the callers then raise: [displayScores]
    on the sort of it, [saveScoreToStorage] on the push to it, and so the
    handlers of the page load and of a submission. *)
Theorem stored_null_is_returned :
  let st : localStorage := {["scores" := js "null"]} in
  getItem "scores" st = Some (js "null")
  /\ JSON_parse (js "null") = Some VNull
  /\ malformed (js "null")
  /\ getScoresFromStorage st = VNull
  /\ getScoresFromStorage st <> VArr []
  /\ value_records (getScoresFromStorage st) = None
  /\ displayScores (blank_page st) = None
  /\ saveScoreToStorage (js "Ann") 1 2 5 st = None
  /\ handleFormSubmit 5 (with_storage st (sample_page (js "Ann") [sample_block 0 0]))
     = None.
Proof. split_and!; by vm_compute. Qed.

(** What [getScoresFromStorage] does with a stored text: a text that is
    not JSON, or the empty text, gives the empty array; a text that is JSON
    gives the parsed value, whatever its shape. *)
Lemma getScoresFromStorage_stored (st : localStorage) (raw : jstring) :
  getItem "scores" st = Some raw ->
  (JSON_parse raw = None -> getScoresFromStorage st = VArr [])
  /\ (raw = [] -> getScoresFromStorage st = VArr [])
  /\ (forall v, raw <> [] -> JSON_parse raw = Some v -> getScoresFromStorage st = v).
Proof.
  intros Hraw. unfold getScoresFromStorage. rewrite Hraw.
  repeat split.
  - intros ->. by destruct raw.
  - by intros ->.
  - intros v Hne ->. by destruct raw.
Qed.

(** C4: a submission with an unanswered question, or with a name that is
    empty after trimming, stops before grading: it returns, the store is
    what it was, and no row, result or button changes; only an alert is
    shown and the blocks are marked. *)
Theorem handleFormSubmit_rejects (now : Z) (p : Page) :
  (exists i, (i < length (blocks p))%nat /\ selected_radio (blocks p) i = None)
  \/ trim (usernameInput p) = [] ->
  exists p',
    handleFormSubmit now p = Some p'
    /\ storage p' = storage p
    /\ getScoresFromStorage (storage p') = getScoresFromStorage (storage p)
    /\ scoreRows p' = scoreRows p
    /\ resultSummary p' = resultSummary p
    /\ submitDisabled p' = submitDisabled p
    /\ (alerts p' = alerts p ++ [msg_answer_all]
        \/ alerts p' = alerts p ++ [msg_enter_name]).
Proof.
  intros Hbad.
  destruct (some_unanswered (blocks p)) eqn:Hun.
  - rewrite handleFormSubmit_unanswered by done.
    eexists. split; [reflexivity|]. cbn. by repeat split; try left.
  - destruct Hbad as [(i & Hi & Hsel)|Hname].
    + by rewrite (some_unanswered_true _ i Hi Hsel) in Hun.
    + rewrite handleFormSubmit_no_name by done.
      eexists. split; [reflexivity|]. cbn. by repeat split; try right.
Qed.

Lemma handleFormSubmit_rejects_witness :
  (exists p', handleFormSubmit 5 (sample_page (js "Ann") [sample_block 0 9]) = Some p'
              /\ storage p' = ∅)
  /\ (exists p', handleFormSubmit 5 (sample_page (js "  ") [sample_block 0 1]) = Some p'
                 /\ storage p' = ∅).
Proof.
  split.
  - destruct (handleFormSubmit_rejects 5 (sample_page (js "Ann") [sample_block 0 9]))
      as (p' & Hp' & Hst & _).
    + left. exists 0%nat. split; [simpl; lia|by vm_compute].
    + by exists p'.
  - destruct (handleFormSubmit_rejects 5 (sample_page (js "  ") [sample_block 0 1]))
      as (p' & Hp' & Hst & _).
    + right. by vm_compute.
    + by exists p'.
Defined.

(** C5: on a page whose radio groups are those of its blocks (at most one
    checked radio per group), the record of a submission that passes
    validation has the number of blocks as [total], the number of checked
    radios marked correct as [correct], and [0 <= correct <= total]; the
    save appends it to the stored array, and on a store that holds the
    records [X] the handler returns with a store that holds [X] and it. *)
Theorem submitted_record_within_bounds (now : Z) (p : Page) :
  page_wf (blocks p) ->
  some_unanswered (blocks p) = false ->
  trim (usernameInput p) <> [] ->
  let r := submitted_record now p in
  total r = Z.of_nat (length (blocks p))
  /\ correct r = Z.of_nat (correctSelections (blocks p))
  /\ 0 <= correct r <= total r
  /\ (forall l, getScoresFromStorage (storage p) = VArr l ->
        exists st',
          saveScoreToStorage (name r) (correct r) (total r) now (storage p) = Some st'
          /\ getItem "scores" st'
             = Some (JSON_stringify (VArr (l ++ [record_value r]))))
  /\ (forall X, holds (storage p) X ->
        exists p', handleFormSubmit now p = Some p'
                   /\ holds (storage p') (X ++ [r])).
Proof.
  intros Hwf Hun Hname r. repeat split.
  - cbn. lia.
  - cbn. apply inj_le, correctSelections_le, page_wf_one_choice, Hwf.
  - intros l Hl. unfold saveScoreToStorage. rewrite Hl.
    eexists. split; [reflexivity|].
    unfold setScoresInStorage, getItem, setItem. by rewrite lookup_insert_eq.
  - intros X HX.
    destruct (handleFormSubmit_accepted now p X Hun Hname HX) as (p' & Hp' & Hst & _).
    by exists p'.
Qed.

Lemma submitted_record_within_bounds_witness :
  let p := sample_page (js "Ann") [sample_block 0 0; sample_block 1 2] in
  total (submitted_record 5 p) = 2
  /\ correct (submitted_record 5 p) = 1
  /\ exists p', handleFormSubmit 5 p = Some p'
                /\ holds (storage p') ([] ++ [submitted_record 5 p]).
Proof.
  intros p.
  destruct (submitted_record_within_bounds 5 p) as (Htotal & Hcorrect & _ & _ & Hsubmit).
  - intros [|[|i]] b; [intros [= <-]; split; [repeat constructor|by vm_compute]..|done].
  - by vm_compute.
  - by vm_compute.
  - split; [done|]. split; [done|]. apply Hsubmit. by apply holds_empty.
Defined.

(** C6, as it stands, fails: for the score 23/40 the rounded
    [100 * correct / total] is 58, and the script computes 57, in the model
    and in the doubles of the Standard Library. *)
Lemma percent_not_exact_rounding :
  total half_way_a <> 0
  /\ Math_round (100 * inject_Z (correct half_way_a) / inject_Z (total half_way_a)) = 58
  /\ spec_percent half_way_a = 58
  /\ percent half_way_a = 57
  /\ percent64 (correct half_way_a) (total half_way_a) = Some 57.
Proof. split_and!; by vm_compute. Qed.

(** C6, amended: [percent] is 0 when [total] is 0, and otherwise the
    rounding to the nearest integer of the double [(correct / total) * 100],
    the quotient and the product each rounded to a double; no division by
    zero is ever evaluated.  For a score with [0 <= correct <= total] the
    percent lies between 0 and 100 and within one of the rounded
    [100 * correct / total]; it is the rounded [100 * correct / total] for a
    quiz of up to 39 questions, and what the doubles of the Standard Library
    give for one of up to 100.  Appending a record with [correct = 0] and
    [total = 0] succeeds, the scoreboard renders, and that record has
    percent 0. *)
Theorem percent_rounds_and_guards_zero (r : ScoreRecord) :
  percent_checked r = Some (percent r)
  /\ percent r = Math_round (to_double (ratio r * 100))
  /\ (ratio r == to_double (spec_ratio r))%Q
  /\ (total r = 0 -> percent r = 0)
  /\ (0 <= correct r <= total r ->
      0 <= percent r <= 100
      /\ spec_percent r - 1 <= percent r <= spec_percent r + 1
      /\ (total r <= 39 ->
          percent r = spec_percent r
          /\ (total r <> 0 ->
              let x := (100 * inject_Z (correct r) / inject_Z (total r))%Q in
              percent r = Math_round x
              /\ (x - (1 # 2) < inject_Z (percent r))%Q
              /\ (inject_Z (percent r) <= x + (1 # 2))%Q))
      /\ (total r <= 100 -> percent64 (correct r) (total r) = Some (percent r)))
  /\ (forall (p : Page) (X : list ScoreRecord) (n : jstring) (now : Z),
        holds (storage p) X ->
        let r0 := {| name := n; correct := 0; total := 0; ts := Some now |} in
        exists st' p',
          saveScoreToStorage n 0 0 now (storage p) = Some st'
          /\ holds st' (X ++ [r0])
          /\ displayScores (with_storage st' p) = Some p'
          /\ length (scoreRows p') = S (length X)
          /\ percent r0 = 0).
Proof.
  split; [apply percent_checked_total|]. split; [apply percent_ratio|].
  split; [apply ratio_spec_ratio|]. split; [apply percent_total_zero|]. split.
  - intros Hc. split.
    { split; [apply percent_nonneg; split; lia|by apply percent_le_100]. }
    split; [by apply percent_near_spec|]. split; [|intros Ht; by apply percent64_model].
    intros Ht. pose proof (percent_small r Hc Ht) as Heq. split; [done|].
    intros H0 x. rewrite Heq.
    destruct (spec_percent_nearest r H0) as [Hlo Hhi].
    split; [|by split]. unfold spec_percent.
    by destruct (Z.eqb_spec (total r) 0).
  - intros p X n now HX r0.
    destruct (saveScoreToStorage_holds n 0 0 now (storage p) X HX)
      as (st' & Hsave & Hst' & _).
    eexists st', _. split; [done|]. split; [done|].
    split; [by apply displayScores_records, holds_records|].
    split; [|done]. cbn [scoreRows with_table].
    rewrite length_fmap, sort_scores_Permutation, length_app. simpl. lia.
Qed.

Lemma percent_rounds_and_guards_zero_witness :
  percent {| name := js "Z"; correct := 0; total := 0; ts := Some 1 |} = 0
  /\ percent64 7 10 = Some (percent (player_A 1))
  /\ percent (player_A 1) = 70
  /\ exists st',
       saveScoreToStorage (js "Z") 0 0 1 (storage (blank_page ∅)) = Some st'
       /\ holds st' ([] ++ [{| name := js "Z"; correct := 0; total := 0; ts := Some 1 |}]).
Proof.
  split; [|split; [|split]].
  - destruct (percent_rounds_and_guards_zero
                {| name := js "Z"; correct := 0; total := 0; ts := Some 1 |})
      as (_ & _ & _ & Hzero & _).
    by apply Hzero.
  - destruct (percent_rounds_and_guards_zero (player_A 1)) as (_ & _ & _ & _ & Hin & _).
    destruct Hin as (_ & _ & _ & Hdouble); [simpl; lia|].
    apply Hdouble. simpl. lia.
  - destruct (percent_rounds_and_guards_zero (player_A 1)) as (_ & _ & _ & _ & Hin & _).
    destruct Hin as (_ & _ & Hsmall & _); [simpl; lia|].
    destruct Hsmall as (_ & Hround); [simpl; lia|].
    destruct Hround as (-> & _); [done|by vm_compute].
  - destruct (percent_rounds_and_guards_zero (player_A 1)) as (_ & _ & _ & _ & _ & Happend).
    destruct (Happend (blank_page ∅) [] (js "Z") 1) as (st' & p' & Hsave & Hst' & _).
    + by apply holds_empty.
    + by exists st'.
Defined.

(** C7: loading after saving a list of score records gives the list back:
    the loaded value is the saved value, and it reads as the same records. *)
Theorem load_after_save (X : list ScoreRecord) (st : localStorage) :
  getScoresFromStorage (setScoresInStorage (records_value X) st) = records_value X
  /\ value_records (getScoresFromStorage (setScoresInStorage (records_value X) st))
     = Some X.
Proof.
  pose proof (holds_set X st) as Hset. split; [done|by apply holds_records].
Qed.

(** C8: the table that [displayScores] writes shows, row by row, the name
    and the score (correct, a slash, total) of the records of a permutation
    of the stored ones, whatever the stored preference: the pairs of name
    and score of the rows are a permutation of those of the stored records,
    and there are as many rows as stored records; the store is left as it
    was.  The same holds after the sort select has stored any preference. *)
Theorem displayScores_permutation (p : Page) (X : list ScoreRecord) :
  value_records (getScoresFromStorage (storage p)) = Some X ->
  (forall pref, sort_scores pref X ≡ₚ X)
  /\ (exists p' ranked,
        displayScores p = Some p'
        /\ scoreRows p' = render_row (topPercent ranked) <$> ranked
        /\ row_name <$> scoreRows p' = name <$> ranked
        /\ row_score <$> scoreRows p' = score_cell <$> ranked
        /\ ranked ≡ₚ X
        /\ (fun row => (row_name row, row_score row)) <$> scoreRows p'
           ≡ₚ (fun r => (name r, score_cell r)) <$> X
        /\ length (scoreRows p') = length X
        /\ storage p' = storage p)
  /\ (forall pref,
        exists p' ranked,
          onSortChange pref p = Some p'
          /\ scoreRows p' = render_row (topPercent ranked) <$> ranked
          /\ row_name <$> scoreRows p' = name <$> ranked
          /\ row_score <$> scoreRows p' = score_cell <$> ranked
          /\ ranked ≡ₚ X
          /\ (fun row => (row_name row, row_score row)) <$> scoreRows p'
             ≡ₚ (fun r => (name r, score_cell r)) <$> X
          /\ length (scoreRows p') = length X).
Proof.
  intros HX. split; [intros; apply sort_scores_Permutation|].
  assert (forall top ranked,
             ranked ≡ₚ X ->
             (fun row => (row_name row, row_score row)) <$> (render_row top <$> ranked)
             ≡ₚ (fun r => (name r, score_cell r)) <$> X) as Hpairs.
  { intros top ranked Hperm. rewrite <- list_fmap_compose, <- Hperm.
    by erewrite list_fmap_ext; [reflexivity|]. }
  split.
  - eexists _, _. split; [by apply displayScores_records|].
    cbn [scoreRows storage with_table]. split; [done|].
    split; [apply render_row_cells|]. split; [apply render_row_cells|].
    split; [apply sort_scores_Permutation|].
    split; [apply Hpairs, sort_scores_Permutation|].
    by rewrite length_fmap, sort_scores_Permutation.
  - intros pref. unfold onSortChange. eexists _, _. split.
    + apply displayScores_records. cbn [storage with_storage].
      by rewrite getScoresFromStorage_other_key.
    + cbn [scoreRows with_table]. split; [done|].
      split; [apply render_row_cells|]. split; [apply render_row_cells|].
      split; [apply sort_scores_Permutation|].
      split; [apply Hpairs, sort_scores_Permutation|].
      by rewrite length_fmap, sort_scores_Permutation.
Qed.

Lemma displayScores_permutation_witness :
  exists p',
    displayScores (blank_page (scenario_store (js "lowest"))) = Some p'
    /\ (fun row => (row_name row, row_score row)) <$> scoreRows p'
       ≡ₚ [(js "A", js "7/10"); (js "B", js "9/10"); (js "C", js "5/10")]
    /\ length (scoreRows p') = 3%nat.
Proof.
  destruct (displayScores_permutation
              (blank_page (scenario_store (js "lowest"))) (scenario_records 1 2 3)
              ltac:(by vm_compute))
    as (_ & (p' & ranked & Hp' & _ & _ & _ & _ & Hpairs & Hlen & _) & _).
  exists p'. split; [done|]. split; [|done].
  rewrite Hpairs. by vm_compute.
Defined.

(** C9: after a confirmed clear no score is stored: a load gives the empty
    array and the table is empty; every other key of the store, the sort
    preference among them, is as before.  A declined clear changes
    nothing. *)
Theorem clearScores_removes_scores_only (p : Page) :
  (exists p',
     clearScores true p = Some p'
     /\ getItem "scores" (storage p') = None
     /\ getScoresFromStorage (storage p') = VArr []
     /\ scoreRows p' = [] /\ topScoreBox p' = None
     /\ getItem "scoreSort" (storage p') = getItem "scoreSort" (storage p)
     /\ getSortPreference (storage p') = getSortPreference (storage p)
     /\ forall k, k <> "scores" -> getItem k (storage p') = getItem k (storage p))
  /\ clearScores false p = Some p.
Proof.
  split; [|done]. unfold clearScores.
  assert (getItem "scores" (removeItem "scores" (storage p)) = None) as Hgone
    by apply lookup_delete_eq.
  assert (forall k, k <> "scores" ->
            getItem k (removeItem "scores" (storage p)) = getItem k (storage p))
    as Hframe by (by intros; apply lookup_delete_ne).
  eexists. split.
  - apply (displayScores_records _ []). cbn [storage with_storage].
    by rewrite getScoresFromStorage_absent.
  - cbn [storage with_table with_storage scoreRows topScoreBox].
    rewrite sort_scores_nil. repeat split; try done.
    + by apply getScoresFromStorage_absent.
    + by apply Hframe.
    + unfold getSortPreference. by rewrite Hframe.
Qed.

(** C10: a stored preference that is not empty and is none of newest,
    oldest, highest, lowest is returned as it is by [getSortPreference], and
    [displayScores] then writes the rows in the stored order; only a missing
    or empty preference reads as newest. *)
Theorem unknown_preference_keeps_order
    (p : Page) (pref : jstring) (X : list ScoreRecord) :
  getItem "scoreSort" (storage p) = Some pref ->
  pref <> [] ->
  pref <> js "newest" -> pref <> js "oldest" ->
  pref <> js "highest" -> pref <> js "lowest" ->
  value_records (getScoresFromStorage (storage p)) = Some X ->
  getSortPreference (storage p) = pref
  /\ sort_scores pref X = X
  /\ (exists p', displayScores p = Some p'
                 /\ scoreRows p' = render_row (topPercent X) <$> X)
  /\ (forall st, getItem "scoreSort" st = None \/ getItem "scoreSort" st = Some [] ->
                 getSortPreference st = js "newest").
Proof.
  intros Hpref Hne H1 H2 H3 H4 HX.
  assert (getSortPreference (storage p) = pref) as Hget.
  { unfold getSortPreference. rewrite Hpref. by destruct pref. }
  assert (sort_scores pref X = X) as Hsame by (by apply sort_scores_other).
  repeat split; try done.
  - eexists. split; [by apply displayScores_records|].
    cbn [scoreRows with_table]. by rewrite Hget, Hsame.
  - intros st [Hst|Hst]; unfold getSortPreference; by rewrite Hst.
Qed.

Lemma unknown_preference_keeps_order_witness :
  getSortPreference (storage (blank_page (scenario_store (js "random")))) = js "random"
  /\ exists p',
       displayScores (blank_page (scenario_store (js "random"))) = Some p'
       /\ row_name <$> scoreRows p' = [js "A"; js "B"; js "C"].
Proof.
  destruct (unknown_preference_keeps_order
              (blank_page (scenario_store (js "random"))) (js "random")
              (scenario_records 1 2 3))
    as (Hget & _ & (p' & Hp' & Hrows) & _); try (by vm_compute).
  split; [done|]. exists p'. split; [done|]. by rewrite Hrows.
Defined.

(** * Further properties of the script *)

(** ** Trimming *)

Lemma trim_start_cases s :
  trim_start s = []
  \/ exists c r, trim_start s = c :: r /\ is_trim_space c = false.
Proof.
  induction s as [|c r IH]; simpl; [by left|].
  destruct (is_trim_space c) eqn:Hc; [done|]. right. by exists c, r.
Qed.

Lemma trim_start_fixed c r : is_trim_space c = false -> trim_start (c :: r) = c :: r.
Proof. intros Hc. simpl. by rewrite Hc. Qed.

Lemma trim_start_suffix s : exists pre, s = pre ++ trim_start s.
Proof.
  induction s as [|c r [pre IH]]; simpl; [by exists []|].
  destruct (is_trim_space c); [|by exists []].
  exists (c :: pre). simpl. by rewrite <- IH.
Qed.

(** The result of [trim] is empty, or it begins and ends with a code unit
    that is no white space. *)
Lemma trim_cases s :
  trim s = []
  \/ exists a m z, trim s = a :: m /\ is_trim_space a = false
                   /\ last (a :: m) = Some z /\ is_trim_space z = false.
Proof.
  unfold trim.
  destruct (trim_start_cases (rev (trim_start s))) as [->|(z & u & Hu & Hz)];
    [by left|].
  right. rewrite Hu.
  destruct (trim_start_suffix (rev (trim_start s))) as [pre Hpre].
  rewrite Hu in Hpre.
  assert (trim_start s = rev u ++ z :: rev pre) as Ht.
  { rewrite <- (rev_involutive (trim_start s)), Hpre, rev_app_distr. simpl.
    by rewrite <- app_assoc. }
  destruct (trim_start_cases s) as [He|(a & m & Ham & Ha)].
  { rewrite He in Ht. by destruct (rev u). }
  assert (exists m', rev (z :: u) = a :: m') as [m' Hm'].
  { rewrite Ham in Ht. simpl. destruct (rev u) as [|a' m'] eqn:Hr; simpl in *.
    - injection Ht as -> _. by exists [].
    - injection Ht as -> _. by exists (m' ++ [z]). }
  exists a, m', z. rewrite Hm'. repeat split; [done| |done].
  rewrite <- Hm'. simpl. by rewrite last_snoc.
Qed.

Lemma trim_fixed a m z :
  is_trim_space a = false -> last (a :: m) = Some z -> is_trim_space z = false ->
  trim (a :: m) = a :: m.
Proof.
  intros Ha Hl Hz. unfold trim. rewrite (trim_start_fixed _ _ Ha).
  destruct (rev (a :: m)) as [|z' u] eqn:Hr.
  { apply (f_equal (@length _)) in Hr. rewrite length_rev in Hr. done. }
  assert (a :: m = rev u ++ [z']) as Hm.
  { by rewrite <- (rev_involutive (a :: m)), Hr. }
  rewrite Hm, last_snoc in Hl. injection Hl as ->.
  rewrite (trim_start_fixed _ _ Hz). by rewrite <- Hr, rev_involutive.
Qed.

Lemma trim_idempotent s : trim (trim s) = trim s.
Proof.
  destruct (trim_cases s) as [->|(a & m & z & -> & Ha & Hl & Hz)]; [done|].
  by apply (trim_fixed a m z).
Qed.

Lemma trimmed_name_trim s : trim s <> [] -> trimmed_name (trim s).
Proof. intros Hs. split; [done|apply trim_idempotent]. Qed.

(** ** The store under the other keys *)

Lemma getScoresFromStorage_removed k st :
  k <> "scores" ->
  getScoresFromStorage (removeItem k st) = getScoresFromStorage st.
Proof.
  intros Hk. unfold getScoresFromStorage, getItem, removeItem.
  by rewrite lookup_delete_ne.
Qed.

Lemma getSortPreference_removed k st :
  k <> "scoreSort" ->
  getSortPreference (removeItem k st) = getSortPreference st.
Proof.
  intros Hk. unfold getSortPreference, getItem, removeItem.
  by rewrite lookup_delete_ne.
Qed.

Lemma getSortPreference_saved v st :
  v <> [] -> getSortPreference (setItem "scoreSort" v st) = v.
Proof.
  intros Hv. unfold getSortPreference, getItem, setItem.
  rewrite lookup_insert_eq. by destruct v.
Qed.

Lemma getSortPreference_scores st st' :
  getItem "scoreSort" st' = getItem "scoreSort" st ->
  getSortPreference st' = getSortPreference st.
Proof. unfold getSortPreference. by intros ->. Qed.

Lemma displayScores_board p X :
  holds (storage p) X ->
  displayScores p
  = Some (with_table (board_rows (getSortPreference (storage p)) X)
            (board_box (getSortPreference (storage p)) X) p).
Proof. intros HX. by apply displayScores_records, holds_records. Qed.

Lemma holds_scenario_store pref :
  holds (scenario_store pref) (scenario_records 1 2 3).
Proof.
  unfold holds, scenario_store.
  rewrite getScoresFromStorage_other_key by done. apply holds_set.
Qed.

(** ** The name field *)

(** X1: what is typed into the name field is saved trimmed, and a name that
    is blank removes the saved one; the saved name is never blank, the next
    load puts exactly it into the field, and the scores and the sort
    preference are not touched. *)
Theorem typed_name_saved_trimmed (v : jstring) (p : Page) :
  let p' := onUsernameInput (with_username v p) in
  usernameInput p' = v
  /\ (trim v <> [] ->
      getItem "triviaCurrentUser" (storage p') = Some (trim v)
      /\ trimmed_name (trim v)
      /\ forall q, storage q = storage p' -> usernameInput (checkUsername q) = trim v)
  /\ (trim v = [] ->
      getItem "triviaCurrentUser" (storage p') = None
      /\ forall q, storage q = storage p' -> checkUsername q = q)
  /\ (forall k, k <> "triviaCurrentUser" ->
        getItem k (storage p') = getItem k (storage p))
  /\ getScoresFromStorage (storage p') = getScoresFromStorage (storage p)
  /\ getSortPreference (storage p') = getSortPreference (storage p).
Proof.
  unfold onUsernameInput. cbn [usernameInput with_username storage].
  destruct (trim v) as [|c r] eqn:Hv; cbn [usernameInput with_storage storage with_username].
  - split; [done|]. split; [done|]. split.
    + intros _. unfold getItem, removeItem. rewrite lookup_delete_eq.
      split; [done|]. intros q Hq. unfold checkUsername. rewrite Hq.
      unfold getItem. by rewrite lookup_delete_eq.
    + split; [|split].
      * intros k Hk. unfold getItem, removeItem. by rewrite lookup_delete_ne.
      * by apply getScoresFromStorage_removed.
      * by apply getSortPreference_removed.
  - split; [done|]. split; [|split; [done|]].
    + intros _. unfold getItem, setItem. rewrite lookup_insert_eq.
      split; [done|]. split.
      { rewrite <- Hv. apply trimmed_name_trim. by rewrite Hv. }
      intros q Hq. unfold checkUsername. rewrite Hq.
      unfold getItem. by rewrite lookup_insert_eq.
    + split; [|split].
      * intros k Hk. unfold getItem, setItem. by rewrite lookup_insert_ne.
      * by apply getScoresFromStorage_other_key.
      * by apply getSortPreference_other_key.
Qed.

(** ** The sort preference *)

(** X2: a chosen sort mode is stored and comes back: it is the preference
    read afterwards, the board is drawn in it at once, and the next load
    selects it in the control when the control has such an option.  The
    empty value counts as newest.  The stored scores stay as they are. *)
Theorem sort_preference_round_trip (v : jstring) (p : Page) (X : list ScoreRecord) :
  holds (storage p) X ->
  exists p',
    onSortChange v p = Some p'
    /\ getItem "scoreSort" (storage p') = Some v
    /\ getSortPreference (storage p') = (if bool_decide (v = []) then js "newest" else v)
    /\ scoreRows p' = board_rows (getSortPreference (storage p')) X
    /\ topScoreBox p' = board_box (getSortPreference (storage p')) X
    /\ holds (storage p') X
    /\ (forall d, storage (page d) = storage p' ->
          getSortPreference (storage p') ∈ sortOptions d ->
          sortSelect (applySavedSortPreference d) = getSortPreference (storage p'))
    /\ (forall d, storage (page d) = storage p' ->
          getSortPreference (storage p') ∉ sortOptions d ->
          sortSelect (applySavedSortPreference d) = []).
Proof.
  intros HX. unfold onSortChange.
  assert (holds (setItem "scoreSort" v (storage p)) X) as HX'.
  { unfold holds. by rewrite getScoresFromStorage_other_key. }
  rewrite (displayScores_board _ X) by done.
  cbn [storage with_storage]. eexists. split; [reflexivity|].
  cbn [storage with_table with_storage scoreRows topScoreBox].
  split; [unfold getItem, setItem; by rewrite lookup_insert_eq|].
  split.
  { case_bool_decide as Hv; [|by apply getSortPreference_saved].
    subst. unfold getSortPreference, getItem, setItem. by rewrite lookup_insert_eq. }
  do 3 (split; [done|]).
  split; intros d Hd Hin; unfold applySavedSortPreference, select_value;
    cbn [sortSelect]; rewrite Hd.
  - by rewrite bool_decide_true.
  - by rewrite bool_decide_false.
Qed.

Lemma sort_preference_round_trip_witness :
  exists p',
    onSortChange (js "highest") (blank_page (scenario_store (js "newest"))) = Some p'
    /\ getSortPreference (storage p') = js "highest".
Proof.
  destruct (sort_preference_round_trip (js "highest")
              (blank_page (scenario_store (js "newest"))) (scenario_records 1 2 3))
    as (p' & Hp & _ & Hpref & _).
  - apply holds_scenario_store.
  - exists p'. split; [exact Hp|]. rewrite Hpref. reflexivity.
Defined.

(** ** More on sorting *)

Lemma filter_at_most_one {A} (f : A -> bool) (l : list A) :
  (forall i j a b, l !! i = Some a -> l !! j = Some b ->
                   f a = true -> f b = true -> i = j) ->
  (length (List.filter f l) <= 1)%nat.
Proof.
  induction l as [|x l IH]; intros Hl; simpl; [lia|].
  destruct (f x) eqn:Hx.
  - assert (List.filter f l = []) as ->; [|simpl; lia].
    destruct (List.filter f l) as [|y l'] eqn:Hf; [done|].
    assert (In y (List.filter f l)) as [Hin Hy]%List.filter_In
      by (rewrite Hf; by left).
    apply list_elem_of_In, list_elem_of_lookup in Hin as [j Hj].
    by specialize (Hl 0%nat (S j) x y eq_refl Hj Hx Hy).
  - apply IH. intros i j a b Ha Hb Hfa Hfb.
    by specialize (Hl (S i) (S j) a b Ha Hb Hfa Hfb) as [= ->].
Qed.

Lemma rev_at_most_one {A} (l : list A) : (length l <= 1)%nat -> rev l = l.
Proof. destruct l as [|x [|y l]]; simpl; [done..|lia]. Qed.

Lemma StronglySorted_rev {A} (R : relation A) l :
  StronglySorted R l -> StronglySorted (flip R) (rev l).
Proof.
  induction 1 as [|x l Hl IH Hx]; simpl; [constructor|].
  apply StronglySorted_app_2; [|done|by repeat constructor].
  intros y x' Hy ->%list_elem_of_singleton.
  rewrite List.Forall_forall in Hx. apply Hx.
  apply in_rev. by apply list_elem_of_In.
Qed.

Section ArraySortMore.
Context {A : Type} (cmp : A -> A -> Q) (R : relation A).
Hypothesis before_R : forall x y, before cmp x y <-> R x y.
Context `{!Total R, !Transitive R}.

(** A list that is in order already is left as it is. *)
Lemma Array_sort_sorted l : Sorted R l -> Array_sort cmp l = l.
Proof.
  intros Hl. symmetry. apply (stable_sort_is_Array_sort cmp R before_R).
  split; [|done].
  eapply Sorted_impl_rel; [|exact Hl]. intros x y. apply before_R.
Qed.

(** A list that is in the opposite order, without two elements that are
    tied, is reversed. *)
Lemma Array_sort_reversed l :
  Sorted R (rev l) ->
  (forall z, (length (List.filter (tied cmp z) l) <= 1)%nat) ->
  Array_sort cmp l = rev l.
Proof.
  intros Hl Hties. symmetry. apply (stable_sort_is_Array_sort cmp R before_R).
  split.
  - eapply Sorted_impl_rel; [|exact Hl]. intros x y. apply before_R.
  - intros z. rewrite List.filter_rev. by apply rev_at_most_one.
Qed.

Lemma tied_at_most_one l :
  (forall i j a b, l !! i = Some a -> l !! j = Some b ->
                   tied cmp a b = true -> i = j) ->
  forall z, (length (List.filter (tied cmp z) l) <= 1)%nat.
Proof.
  intros Hl z. apply filter_at_most_one. intros i j a b Ha Hb Hza Hzb.
  apply (Hl i j a b Ha Hb).
  apply (tied_R cmp R before_R) in Hza as [Hza Haz].
  apply (tied_R cmp R before_R) in Hzb as [Hzb Hbz].
  apply (tied_R cmp R before_R). split; by trans z.
Qed.
End ArraySortMore.

Lemma tied_newest a b : tied cmp_newest a b = true <-> timestamp a = timestamp b.
Proof.
  rewrite (tied_R _ _ before_newest). unfold newest_first. lia.
Qed.

Lemma tied_oldest a b : tied cmp_oldest a b = true <-> timestamp a = timestamp b.
Proof.
  rewrite (tied_R _ _ before_oldest). unfold oldest_first. lia.
Qed.

Lemma tied_highest a b :
  tied cmp_highest a b = true <-> (ratio a == ratio b)%Q /\ timestamp a = timestamp b.
Proof.
  rewrite (tied_R _ _ before_highest). unfold highest_first. split.
  - intros [[?|[? ?]] [?|[? ?]]]; try lra. split; [lra|lia].
  - intros [? ?]. split; right; split; try lra; lia.
Qed.

Lemma tied_lowest a b :
  tied cmp_lowest a b = true <-> (ratio a == ratio b)%Q /\ timestamp a = timestamp b.
Proof.
  rewrite (tied_R _ _ before_lowest). unfold lowest_first. split.
  - intros [[?|[? ?]] [?|[? ?]]]; try lra. split; [lra|lia].
  - intros [? ?]. split; right; split; try lra; lia.
Qed.

Lemma lowest_first_flip a b : lowest_first a b <-> highest_first b a.
Proof.
  unfold lowest_first, highest_first. split; (intros [?|[? ?]]; [by left|right]);
    split; try lra; lia.
Qed.

Lemma oldest_first_flip a b : oldest_first a b <-> newest_first b a.
Proof. done. Qed.

(** X3: sorting what is sorted changes nothing: a store that holds the
    records in the order of the chosen mode is displayed in its own order,
    and a second pass over a ranked list is the identity. *)
Theorem sort_scores_idempotent (pref : jstring) (X : list ScoreRecord) :
  sort_scores pref (sort_scores pref X) = sort_scores pref X.
Proof.
  unfold sort_scores. repeat case_bool_decide; [..|done].
  - apply (Array_sort_sorted _ _ before_newest), (Array_sort_Sorted _ _ before_newest).
  - apply (Array_sort_sorted _ _ before_oldest), (Array_sort_Sorted _ _ before_oldest).
  - apply (Array_sort_sorted _ _ before_highest), (Array_sort_Sorted _ _ before_highest).
  - apply (Array_sort_sorted _ _ before_lowest), (Array_sort_Sorted _ _ before_lowest).
Qed.

Lemma StronglySorted_lookup_lt {A} (R : relation A) l i j a b :
  StronglySorted R l -> l !! i = Some a -> l !! j = Some b -> (i < j)%nat -> R a b.
Proof.
  intros Hl. revert i j. induction Hl as [|x l Hl IH Hx]; intros i j Ha Hb Hij; [done|].
  destruct j as [|j]; [lia|]. destruct i as [|i]; simpl in *.
  - injection Ha as <-. rewrite List.Forall_forall in Hx. apply Hx.
    by apply list_elem_of_In, list_elem_of_lookup_2 with j.
  - apply (IH i j); [done..|lia].
Qed.

Lemma strict_times_distinct X :
  StronglySorted (fun a b => timestamp a < timestamp b) X -> distinct_times X.
Proof.
  intros HX i j a b Ha Hb Hts.
  destruct (Nat.lt_trichotomy i j) as [Hij|[->|Hij]]; [|done|].
  - pose proof (StronglySorted_lookup_lt _ _ _ _ _ _ HX Ha Hb Hij). simpl in *. lia.
  - pose proof (StronglySorted_lookup_lt _ _ _ _ _ _ HX Hb Ha Hij). simpl in *. lia.
Qed.

Lemma distinct_times_tied X :
  distinct_times X -> forall z, (length (List.filter (tied cmp_newest z) X) <= 1)%nat.
Proof.
  intros HX. apply (tied_at_most_one _ _ before_newest).
  intros i j a b Ha Hb Hab%tied_newest. by apply (HX i j a b).
Qed.

Lemma no_ties_tied X :
  no_ties X -> forall z, (length (List.filter (tied cmp_highest z) X) <= 1)%nat.
Proof.
  intros HX. apply (tied_at_most_one _ _ before_highest).
  intros i j a b Ha Hb [? ?]%tied_highest. by apply (HX i j a b).
Qed.

Lemma filter_tied_same_times z X :
  List.filter (tied cmp_oldest z) X = List.filter (tied cmp_newest z) X.
Proof.
  apply List.filter_ext. intros a. apply eq_true_iff_eq.
  by rewrite tied_oldest, tied_newest.
Qed.

Lemma filter_tied_same_ratio z X :
  List.filter (tied cmp_lowest z) X = List.filter (tied cmp_highest z) X.
Proof.
  apply List.filter_ext. intros a. apply eq_true_iff_eq.
  by rewrite tied_lowest, tied_highest.
Qed.

(** X4: when the records are stored in the order of their times, as they
    are when the clock never goes back between two saves, the mode oldest
    shows them in the stored order, and when no two times are the same the
    mode newest shows them in the opposite order. *)
Theorem chronological_store_order (X : list ScoreRecord) :
  (StronglySorted (fun a b => timestamp a <= timestamp b) X ->
   sort_scores (js "oldest") X = X)
  /\ (StronglySorted (fun a b => timestamp a < timestamp b) X ->
      sort_scores (js "newest") X = rev X).
Proof.
  split; intros HX.
  - rewrite sort_scores_oldest. apply (Array_sort_sorted _ _ before_oldest).
    by apply StronglySorted_Sorted.
  - rewrite sort_scores_newest. apply (Array_sort_reversed _ _ before_newest).
    + apply StronglySorted_Sorted.
      eapply (StronglySorted_rev _ X) in HX.
      clear -HX. induction HX as [|x l Hl IH Hx]; constructor; [done|].
      eapply List.Forall_impl; [|exact Hx]. unfold flip, newest_first. simpl. lia.
    + by apply distinct_times_tied, strict_times_distinct.
Qed.

Lemma chronological_store_order_witness :
  sort_scores (js "oldest") (scenario_records 1 2 3) = scenario_records 1 2 3
  /\ sort_scores (js "newest") (scenario_records 1 2 3) = rev (scenario_records 1 2 3).
Proof.
  destruct (chronological_store_order (scenario_records 1 2 3)) as [Hold Hnew].
  split; [apply Hold|apply Hnew];
    repeat constructor; unfold timestamp; simpl; lia.
Defined.

(** X5: the opposite modes mirror each other when no two records stand
    level: without two records of the same ratio (the double that the
    script computes) and time, lowest is highest read backwards, and
    without two records of the same time, oldest is newest read
    backwards. *)
Theorem opposite_modes_mirror (X : list ScoreRecord) :
  (no_ties X ->
   sort_scores (js "lowest") X = rev (sort_scores (js "highest") X))
  /\ (distinct_times X ->
      sort_scores (js "oldest") X = rev (sort_scores (js "newest") X)).
Proof.
  split; intros HX.
  - rewrite sort_scores_lowest, sort_scores_highest. symmetry.
    apply (stable_sort_is_Array_sort _ _ before_lowest). split.
    + apply StronglySorted_Sorted.
      pose proof (Array_sort_StronglySorted _ _ before_highest X) as Hs.
      apply StronglySorted_rev in Hs. revert Hs.
      generalize (rev (Array_sort cmp_highest X)). intros l Hs.
      induction Hs as [|x l Hl IH Hx]; constructor; [done|].
      eapply List.Forall_impl; [|exact Hx]. intros a Ha.
      apply before_lowest, lowest_first_flip, Ha.
    + intros z. rewrite !filter_tied_same_ratio, List.filter_rev.
      destruct (Array_sort_stable _ _ before_highest X) as [_ ->].
      by apply rev_at_most_one, no_ties_tied.
  - rewrite sort_scores_oldest, sort_scores_newest. symmetry.
    apply (stable_sort_is_Array_sort _ _ before_oldest). split.
    + apply StronglySorted_Sorted.
      pose proof (Array_sort_StronglySorted _ _ before_newest X) as Hs.
      apply StronglySorted_rev in Hs. revert Hs.
      generalize (rev (Array_sort cmp_newest X)). intros l Hs.
      induction Hs as [|x l Hl IH Hx]; constructor; [done|].
      eapply List.Forall_impl; [|exact Hx]. intros a Ha.
      apply before_oldest, oldest_first_flip, Ha.
    + intros z. rewrite !filter_tied_same_times, List.filter_rev.
      destruct (Array_sort_stable _ _ before_newest X) as [_ ->].
      by apply rev_at_most_one, distinct_times_tied.
Qed.

Lemma opposite_modes_mirror_witness :
  sort_scores (js "lowest") (scenario_records 1 2 3)
  = rev (sort_scores (js "highest") (scenario_records 1 2 3))
  /\ sort_scores (js "oldest") (scenario_records 1 2 3)
     = rev (sort_scores (js "newest") (scenario_records 1 2 3)).
Proof.
  destruct (opposite_modes_mirror (scenario_records 1 2 3)) as [Hlow Hold].
  split; [apply Hlow|apply Hold].
  - clear Hlow Hold. intros i j a b Ha Hb _ Ht.
    destruct i as [|[|[|i]]], j as [|[|[|j]]]; simplify_eq/=; done.
  - clear Hlow Hold. intros i j a b Ha Hb Ht.
    destruct i as [|[|[|i]]], j as [|[|[|j]]]; simplify_eq/=; done.
Defined.

(** ** The percent and the highlight *)

Lemma percent_of_best_ratio l r M :
  is_maximum M l -> r ∈ l -> (forall y, y ∈ l -> (ratio y <= ratio r)%Q) ->
  percent r = M.
Proof.
  intros [Hatt Hmax] Hr Hbest. destruct Hatt as (r0 & Hr0 & <-).
  apply Z.le_antisymm; [by apply Hmax|]. by apply percent_mono_ratio, Hbest.
Qed.

Lemma sort_scores_maximum pref X :
  X <> [] -> Forall nonneg_record X ->
  exists M, topPercent (sort_scores pref X) = Some M
            /\ is_maximum M (sort_scores pref X).
Proof.
  intros Hne Hnn. apply topPercent_maximum.
  - intros Hnil. apply Hne, Permutation_nil_r.
    by rewrite <- (sort_scores_Permutation pref X), Hnil.
  - by rewrite sort_scores_Permutation.
Qed.

(** X6: the board always has a highlighted row when it has rows, and the
    ranking by ratio agrees with the highlight: in the mode highest the
    first row is a top row, in the mode lowest the last row is. *)
Theorem best_ratio_row_is_top (p : Page) (X : list ScoreRecord) :
  holds (storage p) X -> X <> [] -> Forall nonneg_record X ->
  exists p',
    displayScores p = Some p'
    /\ Exists (fun row => row_top row = true) (scoreRows p')
    /\ (getSortPreference (storage p) = js "highest" ->
        exists row rows, scoreRows p' = row :: rows /\ row_top row = true)
    /\ (getSortPreference (storage p) = js "lowest" ->
        exists rows row, scoreRows p' = rows ++ [row] /\ row_top row = true).
Proof.
  intros HX Hne Hnn. rewrite (displayScores_board p X HX).
  eexists. split; [reflexivity|]. cbn [scoreRows with_table]. unfold board_rows.
  destruct (sort_scores_maximum (getSortPreference (storage p)) X Hne Hnn)
    as (M & -> & Hmax).
  split; [|split].
  - destruct Hmax as [Hatt _]. destruct Hatt as (r0 & Hr0 & Hpct).
    apply Exists_exists. exists (render_row (Some M) r0). split.
    + by apply list_elem_of_fmap_2.
    + simpl. by apply Z.eqb_eq.
  - intros Hpref. rewrite Hpref in *. rewrite sort_scores_highest in *.
    pose proof (Array_sort_StronglySorted _ _ before_highest X) as Hs.
    destruct (Array_sort cmp_highest X) as [|r rest] eqn:Hr.
    { destruct Hmax as [Hatt _]. destruct Hatt as (r0 & Hr0 & _).
      by apply elem_of_nil in Hr0. }
    exists (render_row (Some M) r), (render_row (Some M) <$> rest).
    split; [done|]. simpl. apply Z.eqb_eq.
    apply (percent_of_best_ratio _ _ _ Hmax); [apply list_elem_of_here|].
    apply StronglySorted_inv in Hs as [_ Hs]. rewrite List.Forall_forall in Hs.
    intros y [->|Hy]%elem_of_cons; [lra|].
    apply list_elem_of_In, Hs in Hy. unfold highest_first in Hy. lra.
  - intros Hpref. rewrite Hpref in *. rewrite sort_scores_lowest in *.
    pose proof (Array_sort_StronglySorted _ _ before_lowest X) as Hs.
    destruct (Array_sort cmp_lowest X) as [|r0 rest0] eqn:Hr.
    { destruct Hmax as [Hatt _]. destruct Hatt as (r0 & Hr0 & _).
      by apply elem_of_nil in Hr0. }
    destruct (exists_last (l := r0 :: rest0)) as (init & r & Hinit); [done|].
    rewrite Hinit in *.
    exists (render_row (Some M) <$> init), (render_row (Some M) r).
    split; [by rewrite fmap_app|]. simpl. apply Z.eqb_eq.
    apply (percent_of_best_ratio _ _ _ Hmax); [set_solver|].
    intros y [Hy | ->%list_elem_of_singleton]%elem_of_app; [|lra].
    assert (lowest_first y r) as Hyr.
    { apply (StronglySorted_app_1_elem_of _ _ _ _ _ Hs Hy). set_solver. }
    unfold lowest_first in Hyr. lra.
Qed.

Lemma best_ratio_row_is_top_witness :
  exists p' row rows,
    displayScores (blank_page (scenario_store (js "highest"))) = Some p'
    /\ scoreRows p' = row :: rows /\ row_top row = true.
Proof.
  destruct (best_ratio_row_is_top (blank_page (scenario_store (js "highest")))
              (scenario_records 1 2 3))
    as (p' & Hp & _ & Hhigh & _).
  - apply holds_scenario_store.
  - done.
  - repeat constructor; simpl; lia.
  - destruct Hhigh as (row & rows & Hrows & Htop); [reflexivity|].
    by exists p', row, rows.
Defined.

(** For every quiz of fewer than 200 questions the double percent of the
    browser is 100 for a full score only and 0 for an empty one only. *)
Lemma percent64_extremes_small c t :
  0 <= c <= t -> 0 < t -> t < 200 ->
  exists v, percent64 c t = Some v /\ (v = 100 <-> c = t) /\ (v = 0 <-> c = 0).
Proof.
  intros Hc Ht0 Ht.
  assert (forallb percent64_extremes (small_counts 199) = true) as Hall
    by (by vm_compute).
  rewrite forallb_forall in Hall. specialize (Hall (c, t)).
  rewrite <- list_elem_of_In in Hall.
  specialize (Hall (small_counts_complete 199 _ _ Hc ltac:(lia))).
  unfold percent64_extremes in Hall. cbn [fst snd] in Hall.
  apply orb_true_iff in Hall as [Hz|Hall]; [lia|].
  destruct (percent64 c t) as [v|]; [|done]. exists v. split; [done|].
  apply andb_true_iff in Hall as [H100 H0].
  apply Bool.eqb_prop in H100, H0. split.
  - rewrite <- Z.eqb_eq, H100. apply Z.eqb_eq.
  - rewrite <- Z.eqb_eq, H0. apply Z.eqb_eq.
Qed.

(** X7: the percent of a record with [0 <= correct <= total] and a total
    that is not zero lies between 0 and 100 and grows with the number of
    correct answers; a full score is 100 and an empty one is 0.  With fewer
    than 200 questions only a full score shows as 100 and only an empty one
    as 0, by the percent of the script and by the doubles of the Standard
    Library alike; with 200 questions 199 correct answers round to 100
    too. *)
Theorem percent_scale (r : ScoreRecord) :
  0 < total r -> 0 <= correct r <= total r ->
  0 <= percent r <= 100
  /\ (correct r = total r -> percent r = 100)
  /\ (correct r = 0 -> percent r = 0)
  /\ (total r < 200 -> percent r = 100 -> correct r = total r)
  /\ (total r < 200 -> percent r = 0 -> correct r = 0)
  /\ (total r < 200 ->
      exists v, percent64 (correct r) (total r) = Some v
                /\ (v = 100 <-> correct r = total r) /\ (v = 0 <-> correct r = 0))
  /\ (forall r', total r' = total r -> correct r <= correct r' ->
        percent r <= percent r')
  /\ percent {| name := name r; correct := 199; total := 200; ts := ts r |} = 100
  /\ percent64 199 200 = Some 100.
Proof.
  intros Ht Hc.
  split; [split; [apply percent_nonneg; split; lia|by apply percent_le_100]|].
  split; [by apply percent_full_empty|]. split; [by apply percent_full_empty|].
  split; [intros Hsmall; by apply percent_extremes_small|].
  split; [intros Hsmall; by apply percent_extremes_small|].
  split; [intros Hsmall; by apply percent64_extremes_small|].
  split; [|split; by vm_compute].
  intros r' Ht' Hc'. apply percent_mono_spec_ratio. unfold spec_ratio.
  rewrite Ht'. destruct (Z.eqb_spec (total r) 0) as [|_]; [lia|].
  assert (0 < inject_Z (total r))%Q as HT
    by (change 0%Q with (inject_Z 0); rewrite <- Zlt_Qlt; lia).
  apply Qmult_le_compat_r; [by rewrite <- Zle_Qle|].
  by apply Qlt_le_weak, Qinv_lt_0_compat.
Qed.

Lemma percent_scale_witness :
  0 <= percent (player_A 1) <= 100
  /\ percent (player_A 1) <= percent (player_B 1).
Proof.
  destruct (percent_scale (player_A 1)) as (Hb & _ & _ & _ & _ & _ & Hm & _);
    [simpl; lia..|].
  split; [exact Hb|]. apply Hm; simpl; lia.
Defined.

(** ** The questions *)

Lemma displayQuestions_blocks questions p :
  blocks (displayQuestions questions p)
  = imap (fun index qa =>
            {| b_radios := createAnswerOptions qa.2 (correct_answer qa.1) index;
               b_invalid := false |}) questions.
Proof. reflexivity. Qed.

Lemma elem_of_all_radios r bs :
  r ∈ all_radios bs <-> exists i b, bs !! i = Some b /\ r ∈ b_radios b.
Proof.
  unfold all_radios. rewrite list_elem_of_In, in_concat. split.
  - intros (l & Hl & Hr). apply list_elem_of_In in Hl, Hr.
    apply list_elem_of_fmap in Hl as (b & -> & Hb).
    apply list_elem_of_lookup_1 in Hb as [i Hi]. by exists i, b.
  - intros (i & b & Hb & Hr). exists (b_radios b).
    split; [|by apply list_elem_of_In].
    apply list_elem_of_In, list_elem_of_fmap. exists b. split; [done|].
    by eapply list_elem_of_lookup_2.
Qed.

Lemma displayQuestions_unchecked questions p :
  Forall (fun r => r_checked r = false)
    (all_radios (blocks (displayQuestions questions p))).
Proof.
  apply Forall_forall. intros r (i & b & Hb & Hr)%elem_of_all_radios.
  rewrite displayQuestions_blocks, list_lookup_imap in Hb.
  destruct (questions !! i) as [qa|]; [|done]. injection Hb as <-.
  cbn [b_radios] in Hr. unfold createAnswerOptions in Hr.
  by apply list_elem_of_fmap in Hr as (a & -> & _).
Qed.

Lemma selected_radio_unchecked bs i :
  Forall (fun r => r_checked r = false) (all_radios bs) ->
  selected_radio bs i = None.
Proof.
  intros Hall. unfold selected_radio.
  destruct (List.find _ _) as [r|] eqn:Hfind; [|done].
  apply List.find_some in Hfind as [Hin Hr].
  rewrite Forall_forall in Hall. apply list_elem_of_In, Hall in Hin.
  rewrite Hin in Hr. by rewrite andb_false_r in Hr.
Qed.

(** On well-formed blocks the selection of question [i] is a matter of
    block [i] alone. *)
Lemma selected_radio_block bs i b :
  page_wf bs -> bs !! i = Some b ->
  selected_radio bs i = None <-> Forall (fun r => r_checked r = false) (b_radios b).
Proof.
  intros Hwf Hb. unfold selected_radio. split.
  - intros Hfind. apply Forall_forall. intros r Hr.
    assert (In r (all_radios bs)) as Hin.
    { apply list_elem_of_In, elem_of_all_radios. by exists i, b. }
    pose proof (List.find_none _ _ Hfind r Hin) as Hf. cbn beta in Hf.
    destruct (Hwf i b Hb) as [Hnames _]. rewrite Forall_forall in Hnames.
    rewrite (Hnames r Hr), Nat.eqb_refl in Hf. done.
  - intros Hall.
    destruct (List.find _ _) as [r|] eqn:Hfind; [|done].
    apply List.find_some in Hfind as [Hin [Hname Hr]%andb_true_iff].
    apply list_elem_of_In, elem_of_all_radios in Hin as (i' & b' & Hb' & Hin).
    destruct (Hwf i' b' Hb') as [Hnames _]. rewrite Forall_forall in Hnames.
    apply Nat.eqb_eq in Hname. rewrite (Hnames r Hin) in Hname. subst i'.
    rewrite Hb in Hb'. injection Hb' as <-.
    rewrite Forall_forall in Hall. by rewrite (Hall r Hin) in Hr.
Qed.

Lemma showLoading_page b d : page (showLoading b d) = page d.
Proof. by destruct b. Qed.

(** X8: however a request for questions ends, the loader is hidden and the
    question container is shown afterwards, the store and the name field
    are as before, and the blocks are well formed.  A response with
    questions replaces the blocks by one fresh block per question, with no
    radio checked and no block marked; a failure leaves the blocks as they
    are.  Of two responses the later one decides which questions are
    shown. *)
Theorem fetchQuestions_always_settles (r : Response) (d : Document) :
  let d' := fetchQuestions_settle r (fetchQuestions_start d) in
  loadingHidden d' = true /\ questionsHidden d' = false
  /\ storage (page d') = storage (page d)
  /\ usernameInput (page d') = usernameInput (page d)
  /\ scoreRows (page d') = scoreRows (page d)
  /\ (page_wf (blocks (page d)) -> page_wf (blocks (page d')))
  /\ (r = Failure -> page d' = page d)
  /\ (forall qs, r = Results qs \/ r = Partial qs ->
        length (blocks (page d')) = length qs
        /\ Forall (fun r => r_checked r = false) (all_radios (blocks (page d')))
        /\ Forall (fun b => b_invalid b = false) (blocks (page d'))
        /\ forall r0, fetchQuestions_settle r (fetchQuestions_settle r0 d) = d').
Proof.
  assert (forall qs,
            length (blocks (displayQuestions qs (page d))) = length qs
            /\ Forall (fun b => b_invalid b = false)
                 (blocks (displayQuestions qs (page d)))) as Hfresh.
  { intros qs. rewrite displayQuestions_blocks. split; [by rewrite length_imap|].
    apply Forall_forall. intros b (i & Hb)%list_elem_of_lookup_1.
    rewrite list_lookup_imap in Hb.
    destruct (qs !! i); [|done]. by injection Hb as <-. }
  destruct r as [qs|qs|]; cbn; split_and!; try done.
  - intros _. apply (displayQuestions_wf qs (page d)).
  - intros qs' [[= <-]|[=]]. split_and!.
    + apply Hfresh.
    + apply (displayQuestions_unchecked qs (page d)).
    + apply Hfresh.
    + by intros [].
  - intros _. apply (displayQuestions_wf qs (page d)).
  - intros qs' [[=]|[= <-]]. split_and!.
    + apply Hfresh.
    + apply (displayQuestions_unchecked qs (page d)).
    + apply Hfresh.
    + by intros [].
  - by intros qs [?|?].
Qed.

Lemma filter_length_Permutation {A} (f : A -> bool) l l' :
  l ≡ₚ l' -> length (List.filter f l) = length (List.filter f l').
Proof.
  induction 1 as [|x l l' _ IH|x y l|l l' l'' _ IH1 _ IH2]; simpl; [done|..].
  - destruct (f x); simpl; lia.
  - destruct (f x), (f y); simpl; lia.
  - lia.
Qed.

Lemma createAnswerOptions_correct allAnswers correctAnswer index :
  length (List.filter r_correct (createAnswerOptions allAnswers correctAnswer index))
  = length (List.filter (fun a => bool_decide (a = correctAnswer)) allAnswers).
Proof.
  unfold createAnswerOptions.
  induction allAnswers as [|a l IH]; [done|].
  rewrite fmap_cons. cbn [List.filter r_correct].
  destruct (bool_decide (a = correctAnswer)); cbn [length]; by rewrite IH.
Qed.

(** X9: the answers of a question.  When the shuffle is a rearrangement of
    the correct answer and the incorrect ones, a question gets one radio
    per answer, in the order of the shuffle, all in the group of the
    question and none checked; the radio of an answer is marked as correct
    exactly when that answer is, as the string the script holds, the correct
    answer, so at least one radio is, and exactly one when the correct
    answer is not among the incorrect ones. *)
Theorem createAnswerOptions_shuffled
    (q : Question) (allAnswers : list jstring) (index : nat) :
  allAnswers ≡ₚ correct_answer q :: incorrect_answers q ->
  let radios := createAnswerOptions allAnswers (correct_answer q) index in
  length radios = S (length (incorrect_answers q))
  /\ length radios = length allAnswers
  /\ (forall j a, allAnswers !! j = Some a ->
        exists r, radios !! j = Some r
                  /\ r_name r = index /\ r_checked r = false
                  /\ (r_correct r = true <-> a = correct_answer q))
  /\ (1 <= length (List.filter r_correct radios))%nat
  /\ (correct_answer q ∉ incorrect_answers q ->
      length (List.filter r_correct radios) = 1%nat).
Proof.
  intros Hperm radios. subst radios.
  rewrite createAnswerOptions_correct.
  rewrite (filter_length_Permutation _ _ _ Hperm). cbn [List.filter].
  rewrite bool_decide_true by done. cbn [length].
  split; [|split; [|split; [|split]]].
  - unfold createAnswerOptions. by rewrite length_fmap, Hperm.
  - unfold createAnswerOptions. by rewrite length_fmap.
  - intros j a Ha. unfold createAnswerOptions.
    rewrite list_lookup_fmap, Ha. eexists. split; [reflexivity|]. cbn.
    split; [done|]. split; [done|]. apply bool_decide_eq_true.
  - lia.
  - intros Hnotin. f_equal. clear Hperm.
    induction (incorrect_answers q) as [|a l IH]; [done|].
    apply not_elem_of_cons in Hnotin as [Hne Hnotin]. cbn [List.filter].
    rewrite bool_decide_false by done. by apply IH.
Qed.

Lemma createAnswerOptions_shuffled_witness :
  let q := {| question := js "Capital of France?"; correct_answer := js "Paris";
              incorrect_answers := [js "Rome"; js "Oslo"; js "Bern"] |} in
  length (List.filter r_correct
            (createAnswerOptions [js "Oslo"; js "Paris"; js "Bern"; js "Rome"]
               (correct_answer q) 0)) = 1%nat
  /\ r_correct <$> createAnswerOptions [js "Oslo"; js "Paris"; js "Bern"; js "Rome"]
                     (correct_answer q) 0
     = [false; true; false; false].
Proof.
  intros q.
  destruct (createAnswerOptions_shuffled q
              [js "Oslo"; js "Paris"; js "Bern"; js "Rome"] 0)
    as (_ & _ & _ & _ & Hone).
  - simpl.
    change [js "Oslo"; js "Paris"; js "Bern"; js "Rome"]
      with ([js "Oslo"] ++ js "Paris" :: [js "Bern"; js "Rome"]).
    rewrite <- Permutation_middle. apply perm_skip.
    change [js "Rome"; js "Oslo"; js "Bern"]
      with ([js "Rome"; js "Oslo"] ++ [js "Bern"]).
    change ([js "Oslo"] ++ [js "Bern"; js "Rome"])
      with ([js "Oslo"; js "Bern"] ++ [js "Rome"]).
    rewrite <- (Permutation_cons_append _ (js "Rome")).
    rewrite <- (Permutation_cons_append _ (js "Bern")).
    rewrite (Permutation_swap (js "Rome")). apply perm_skip.
    apply Permutation_swap.
  - split; [|by vm_compute]. apply Hone. simpl. intros Hin.
    repeat (apply elem_of_cons in Hin as [Hin|Hin]; [by vm_compute in Hin|]).
    by apply elem_of_nil in Hin.
Defined.

(** ** The submission *)

Lemma displayScores_fields p p' :
  displayScores p = Some p' -> p' = with_table (scoreRows p') (topScoreBox p') p.
Proof.
  unfold displayScores.
  destruct (value_records _); simpl; [|done]. by intros [= <-].
Qed.

Lemma mark_blocks_lookup bs i :
  mark_blocks bs !! i
  = (fun b => {| b_radios := b_radios b; b_invalid := negb (answered bs i) |})
      <$> bs !! i.
Proof. unfold mark_blocks. by rewrite list_lookup_imap. Qed.

Lemma mark_blocks_length bs : length (mark_blocks bs) = length bs.
Proof. apply length_imap. Qed.

Lemma mark_blocks_wf bs : page_wf bs -> page_wf (mark_blocks bs).
Proof.
  intros Hwf i b'. rewrite mark_blocks_lookup.
  destruct (bs !! i) as [b|] eqn:Hb; [|done]. intros [= <-].
  destruct (Hwf i b Hb) as [Hnames Hone]. by split.
Qed.

(** Whatever the outcome of a submission, the blocks afterwards are the
    marked blocks. *)
Lemma handleFormSubmit_blocks now p p' :
  handleFormSubmit now p = Some p' -> blocks p' = mark_blocks (blocks p).
Proof.
  unfold handleFormSubmit.
  destruct (some_unanswered (blocks p)); [by intros [= <-]|].
  destruct (trim (usernameInput p)) as [|c r]; [by intros [= <-]|].
  destruct (saveScoreToStorage _ _ _ _ _) as [st|]; [|done].
  cbn [mbind option_bind].
  destruct (displayScores _) as [p4|] eqn:Hp4; [|done].
  cbn [mbind option_bind]. intros [= <-].
  apply displayScores_fields in Hp4. by rewrite Hp4.
Qed.

Lemma sample_blocks_wf a b : page_wf [sample_block 0 a; sample_block 1 b].
Proof.
  intros [|[|i]] b0; [intros [= <-]; split; [repeat constructor|]..|done].
  - unfold one_choice, sample_block. cbn.
    destruct a as [|[|[|[|a]]]]; simpl; lia.
  - unfold one_choice, sample_block. cbn.
    destruct b as [|[|[|[|b]]]]; simpl; lia.
Qed.

(** X10: questions that have just arrived cannot be submitted.  After a
    response with at least one question, a submission is turned down with
    the request to answer all questions, whatever the name field holds:
    every block is marked as invalid, and the store and the board are as
    they were. *)
Theorem fresh_questions_need_answers
    (qs : list (Question * list jstring)) (now : Z) (d : Document) :
  qs <> [] ->
  exists d',
    run [Settle (Results qs); Submit now] d = Some d'
    /\ alerts (page d') = alerts (page d) ++ [msg_answer_all]
    /\ storage (page d') = storage (page d)
    /\ scoreRows (page d') = scoreRows (page d)
    /\ resultSummary (page d') = resultSummary (page d)
    /\ length (blocks (page d')) = length qs
    /\ Forall (fun b => b_invalid b = true) (blocks (page d')).
Proof.
  intros Hqs. cbn [run step mbind option_bind fetchQuestions_settle].
  rewrite showLoading_page. cbn [page with_page].
  set (p0 := displayQuestions qs (page d)).
  assert (forall i, selected_radio (blocks p0) i = None) as Hnone.
  { intros i. apply selected_radio_unchecked, displayQuestions_unchecked. }
  assert (length (blocks p0) = length qs) as Hlen.
  { unfold p0. rewrite displayQuestions_blocks. apply length_imap. }
  rewrite handleFormSubmit_unanswered.
  - cbn [mbind option_bind run]. eexists. split; [reflexivity|].
    cbn. split_and!; try done.
    + by rewrite length_imap, length_imap.
    + apply Forall_forall. intros b (i & Hb)%list_elem_of_lookup_1.
      change (mark_blocks (blocks p0) !! i = Some b) in Hb.
      rewrite mark_blocks_lookup in Hb.
      destruct (blocks p0 !! i); [|done]. injection Hb as <-.
      cbn. unfold answered. by rewrite Hnone.
  - apply (some_unanswered_true _ 0); [|apply Hnone].
    rewrite Hlen. destruct qs; [done|simpl; lia].
Qed.

Lemma fresh_questions_need_answers_witness :
  exists d',
    run [Settle (Results [({| question := js "Capital of France?";
                              correct_answer := js "Paris";
                              incorrect_answers := [js "Rome"] |},
                           [js "Rome"; js "Paris"])]); Submit 5]
        {| page := sample_page (js "Ann") []; loadingHidden := false;
           questionsHidden := true; sortOptions := [js "newest"];
           sortSelect := js "newest" |} = Some d'
    /\ alerts (page d') = [msg_answer_all].
Proof.
  destruct (fresh_questions_need_answers
              [({| question := js "Capital of France?";
                   correct_answer := js "Paris";
                   incorrect_answers := [js "Rome"] |},
                [js "Rome"; js "Paris"])] 5
              {| page := sample_page (js "Ann") []; loadingHidden := false;
                 questionsHidden := true; sortOptions := [js "newest"];
                 sortSelect := js "newest" |})
    as (d' & Hrun & Halerts & _); [done|].
  exists d'. split; [exact Hrun|exact Halerts].
Defined.

(** X11: the validation of a submission marks exactly the questions
    without an answer.  On well-formed blocks, after any submission a block
    carries the class invalid if and only if none of its own radios is
    checked; the radios themselves are not changed. *)
Theorem unanswered_blocks_marked (now : Z) (p p' : Page) :
  page_wf (blocks p) ->
  handleFormSubmit now p = Some p' ->
  length (blocks p') = length (blocks p)
  /\ page_wf (blocks p')
  /\ forall i b, blocks p !! i = Some b ->
       exists b', blocks p' !! i = Some b'
                  /\ b_radios b' = b_radios b
                  /\ (b_invalid b' = true
                      <-> Forall (fun r => r_checked r = false) (b_radios b)).
Proof.
  intros Hwf Hsubmit. rewrite (handleFormSubmit_blocks _ _ _ Hsubmit).
  split; [apply mark_blocks_length|]. split; [by apply mark_blocks_wf|].
  intros i b Hb. rewrite mark_blocks_lookup, Hb. cbn [fmap option_fmap option_map].
  eexists. split; [reflexivity|]. cbn [b_radios b_invalid]. split; [done|].
  rewrite <- (selected_radio_block _ _ _ Hwf Hb). unfold answered.
  by destruct (selected_radio (blocks p) i).
Qed.

Lemma unanswered_blocks_marked_witness :
  exists p',
    handleFormSubmit 5 (sample_page (js "Ann") [sample_block 0 1; sample_block 1 9])
    = Some p'
    /\ length (blocks p') = 2%nat.
Proof.
  eexists. split.
  - rewrite handleFormSubmit_unanswered by (by vm_compute). reflexivity.
  - apply (unanswered_blocks_marked 5
             (sample_page (js "Ann") [sample_block 0 1; sample_block 1 9])).
    + apply sample_blocks_wf.
    + by rewrite handleFormSubmit_unanswered by (by vm_compute).
Defined.

(** An accepted submission, step by step: the save, and the page that
    results. *)
Lemma handleFormSubmit_accepted_page now p X :
  some_unanswered (blocks p) = false ->
  trim (usernameInput p) <> [] ->
  holds (storage p) X ->
  let r := submitted_record now p in
  let pref := getSortPreference (storage p) in
  exists st',
    holds st' (X ++ [r])
    /\ (forall k, k <> "scores" -> getItem k st' = getItem k (storage p))
    /\ handleFormSubmit now p
       = Some (with_buttons false true
                 (with_table (board_rows pref (X ++ [r])) (board_box pref (X ++ [r]))
                    (with_storage st'
                       (with_table
                          (scoreRows p
                           ++ [{| row_name := name r;
                                  row_score := score_text (correct r) (total r);
                                  row_top := false |}])
                          (topScoreBox p)
                          (with_result (summaryText (name r) (correct r) (total r))
                             (with_blocks (mark_blocks (blocks p)) p)))))).
Proof.
  intros Hun Hname HX r pref. unfold handleFormSubmit. rewrite Hun.
  assert (r = {| name := trim (usernameInput p);
                 correct := Z.of_nat (correctSelections (blocks p));
                 total := Z.of_nat (length (blocks p)); ts := Some now |}) as Hr
    by done.
  destruct (trim (usernameInput p)) as [|c s] eqn:Htrim; [done|].
  cbn [storage with_table with_result with_blocks].
  destruct (saveScoreToStorage_holds (c :: s)
              (Z.of_nat (correctSelections (blocks p)))
              (Z.of_nat (length (blocks p))) now (storage p) X HX)
    as (st' & -> & Hst' & Hkeys).
  cbn [mbind option_bind]. rewrite <- Hr in Hst'.
  rewrite (displayScores_board _ (X ++ [r])) by done.
  cbn [mbind option_bind storage with_storage].
  assert (getSortPreference st' = pref) as ->.
  { apply getSortPreference_scores. by apply Hkeys. }
  exists st'. split; [done|]. split; [done|]. by rewrite Hr.
Qed.



(** ** Scores that the script did not write *)

Lemma JSON_parse_empty : JSON_parse [] = None.
Proof. reflexivity. Qed.

Lemma board_rows_nil pref : board_rows pref [] = [].
Proof. unfold board_rows. by rewrite sort_scores_nil. Qed.

Lemma board_box_nil pref : board_box pref [] = None.
Proof. unfold board_box. by rewrite sort_scores_nil. Qed.

(** X13: a scores entry that does not parse counts as no scores, and the
    next save writes over it.  The board is drawn empty, with the summary
    box hidden, and the entry stays in the store; a save then puts a list
    with just the new record in its place, so that the text is lost. *)
Theorem unreadable_scores_overwritten
    (p : Page) (raw : jstring) (n : jstring) (c t now : Z) :
  getItem "scores" (storage p) = Some raw ->
  JSON_parse raw = None ->
  let r := {| name := n; correct := c; total := t; ts := Some now |} in
  (exists p', displayScores p = Some p'
              /\ scoreRows p' = [] /\ topScoreBox p' = None
              /\ getItem "scores" (storage p') = Some raw)
  /\ (exists st', saveScoreToStorage n c t now (storage p) = Some st'
                  /\ holds st' [r]
                  /\ getItem "scores" st' = Some (JSON_stringify (records_value [r]))
                  /\ forall k, k <> "scores" -> getItem k st' = getItem k (storage p)).
Proof.
  intros Hraw Hparse r.
  assert (holds (storage p) []) as HX.
  { unfold holds, getScoresFromStorage. rewrite Hraw.
    destruct raw; [done|]. by rewrite Hparse. }
  split.
  - rewrite (displayScores_board p [] HX). eexists. split; [reflexivity|].
    cbn [scoreRows topScoreBox storage with_table].
    by rewrite board_rows_nil, board_box_nil.
  - destruct (saveScoreToStorage_holds n c t now (storage p) [] HX)
      as (st' & Hsave & Hst' & Hkeys).
    exists st'. split; [done|]. split; [done|]. split; [|done].
    unfold saveScoreToStorage in Hsave. rewrite HX in Hsave.
    injection Hsave as <-.
    unfold setScoresInStorage, getItem, setItem. by rewrite lookup_insert_eq.
Qed.

Lemma unreadable_scores_overwritten_witness :
  exists st',
    saveScoreToStorage (js "Ann") 1 2 5 {["scores" := js "[1,2"]} = Some st'
    /\ holds st' [{| name := js "Ann"; correct := 1; total := 2; ts := Some 5 |}].
Proof.
  destruct (unreadable_scores_overwritten (blank_page {["scores" := js "[1,2"]})
              (js "[1,2") (js "Ann") 1 2 5)
    as [_ (st' & Hsave & Hst' & _)].
  - by vm_compute.
  - by vm_compute.
  - by exists st'.
Defined.

(** X14: a scores entry that parses to a value that is no array stops the
    script: the board cannot be drawn, no score can be saved, a submission
    that passes validation fails at the save, a change of the sort mode
    fails, and so does the start of the page, before any listener is
    registered.  The entry is never written over; only removing it, as
    Clear Scores does, brings the board back. *)
Theorem non_array_scores_stop_the_script (p : Page) (raw : jstring) (v : value) :
  getItem "scores" (storage p) = Some raw ->
  JSON_parse raw = Some v ->
  (forall l, v <> VArr l) ->
  displayScores p = None
  /\ (forall n c t now, saveScoreToStorage n c t now (storage p) = None)
  /\ (forall now, some_unanswered (blocks p) = false ->
        trim (usernameInput p) <> [] -> handleFormSubmit now p = None)
  /\ (forall pref, onSortChange pref p = None)
  /\ (forall d, page d = p -> init d = None)
  /\ exists p', clearScores true p = Some p'
                /\ holds (storage p') [] /\ scoreRows p' = []
                /\ topScoreBox p' = None.
Proof.
  intros Hraw Hparse Hv.
  assert (forall st, getItem "scores" st = Some raw -> getScoresFromStorage st = v)
    as Hget.
  { intros st Hst. unfold getScoresFromStorage. rewrite Hst.
    destruct raw; [by rewrite JSON_parse_empty in Hparse|]. by rewrite Hparse. }
  assert (value_records v = None) as Hrec.
  { destruct v as [| | | |l|]; try done. by destruct (Hv l). }
  assert (forall q, getItem "scores" (storage q) = Some raw -> displayScores q = None)
    as Hdisplay.
  { intros q Hq. unfold displayScores. by rewrite (Hget _ Hq), Hrec. }
  assert (forall n c t now, saveScoreToStorage n c t now (storage p) = None) as Hsave.
  { intros. unfold saveScoreToStorage. rewrite (Hget _ Hraw).
    destruct v as [| | | |l|]; try done. by destruct (Hv l). }
  split_and!.
  - by apply Hdisplay.
  - done.
  - intros now Hun Hname. unfold handleFormSubmit. rewrite Hun.
    destruct (trim (usernameInput p)); [done|].
    cbn [storage with_table with_result with_blocks]. by rewrite Hsave.
  - intros pref. unfold onSortChange. apply Hdisplay.
    cbn [storage with_storage]. unfold getItem, setItem.
    by rewrite lookup_insert_ne.
  - intros d <-. unfold init. rewrite Hdisplay; [done|].
    unfold fetchQuestions_start. rewrite showLoading_page.
    cbn [page applySavedSortPreference with_page]. unfold checkUsername.
    by destruct (getItem "triviaCurrentUser" (storage (page d))) as [[|? ?]|].
  - unfold clearScores.
    assert (holds (removeItem "scores" (storage p)) []) as HX.
    { apply holds_empty. unfold getItem, removeItem. apply lookup_delete_eq. }
    rewrite (displayScores_board _ []) by done.
    eexists. split; [reflexivity|].
    cbn [scoreRows topScoreBox storage with_table with_storage].
    by rewrite board_rows_nil, board_box_nil.
Qed.

Lemma non_array_scores_stop_the_script_witness :
  displayScores (blank_page {["scores" := js "{}"]}) = None
  /\ saveScoreToStorage (js "Ann") 1 2 5 {["scores" := js "{}"]} = None.
Proof.
  destruct (non_array_scores_stop_the_script (blank_page {["scores" := js "{}"]})
              (js "{}") (VObj []))
    as (Hdisplay & Hsave & _).
  - by vm_compute.
  - by vm_compute.
  - done.
  - split; [exact Hdisplay|apply Hsave].
Defined.

(** ** Several saves *)

Lemma save_all_holds entries :
  forall st X,
    holds st X ->
    exists st',
      save_all entries st = Some st'
      /\ holds st' (X ++ (entry_record <$> entries))
      /\ forall k, k <> "scores" -> getItem k st' = getItem k st.
Proof.
  induction entries as [|e entries IH]; intros st X HX.
  - exists st. by rewrite app_nil_r.
  - cbn [save_all].
    destruct (saveScoreToStorage_holds e.1.1.1 e.1.1.2 e.1.2 e.2 st X HX)
      as (st1 & -> & Hst1 & Hkeys1).
    cbn [mbind option_bind].
    destruct (IH st1 _ Hst1) as (st' & -> & Hst' & Hkeys).
    exists st'. split; [done|]. split.
    + by rewrite fmap_cons, cons_middle, app_assoc.
    + intros k Hk. by rewrite Hkeys, Hkeys1.
Qed.

(** X15: saves add up.  From a store that holds the records [X], any
    number of saves one after the other gives a store that holds [X]
    followed by the new records in the order of the saves; nothing is lost
    or reordered, the other keys are untouched, and the board then has a row
    for every one of them. *)
Theorem saves_accumulate_in_order
    (entries : list (jstring * Z * Z * Z)) (p : Page) (X : list ScoreRecord) :
  holds (storage p) X ->
  exists st' p',
    save_all entries (storage p) = Some st'
    /\ holds st' (X ++ (entry_record <$> entries))
    /\ (forall k, k <> "scores" -> getItem k st' = getItem k (storage p))
    /\ displayScores (with_storage st' p) = Some p'
    /\ length (scoreRows p') = (length X + length entries)%nat.
Proof.
  intros HX. destruct (save_all_holds entries _ X HX) as (st' & Hsave & Hst' & Hkeys).
  exists st'. eexists. split; [done|]. split; [done|]. split; [done|].
  rewrite (displayScores_board (with_storage st' p) _ Hst'). split; [reflexivity|].
  cbn [scoreRows with_table]. unfold board_rows.
  by rewrite length_fmap, sort_scores_Permutation, length_app, length_fmap.
Qed.

Lemma saves_accumulate_in_order_witness :
  exists st',
    save_all [(js "Ann", 1, 2, 5); (js "Bob", 2, 2, 6)] ∅ = Some st'
    /\ holds st' ([] ++ (entry_record <$> [(js "Ann", 1, 2, 5); (js "Bob", 2, 2, 6)])).
Proof.
  destruct (saves_accumulate_in_order [(js "Ann", 1, 2, 5); (js "Bob", 2, 2, 6)]
              (blank_page ∅) [])
    as (st' & p' & Hsave & Hst' & _).
  - by apply holds_empty.
  - by exists st'.
Defined.

(** ** The start of the page and a new round *)

Lemma checkUsername_storage p : storage (checkUsername p) = storage p.
Proof.
  unfold checkUsername. by destruct (getItem _ _) as [[|? ?]|].
Qed.

Lemma checkUsername_blocks p : blocks (checkUsername p) = blocks p.
Proof.
  unfold checkUsername. by destruct (getItem _ _) as [[|? ?]|].
Qed.

(** The start of the page over a store that holds the records [X]. *)
Lemma init_holds d X :
  holds (storage (page d)) X ->
  let pref := getSortPreference (storage (page d)) in
  init d
  = Some {| page := with_table (board_rows pref X) (board_box pref X)
                      (checkUsername (page d));
            loadingHidden := false; questionsHidden := true;
            sortOptions := sortOptions d;
            sortSelect := select_value (sortOptions d) pref |}.
Proof.
  intros HX pref. unfold init, fetchQuestions_start.
  cbn [showLoading page applySavedSortPreference with_page sortOptions].
  rewrite (displayScores_board _ X) by (by rewrite checkUsername_storage).
  cbn [mbind option_bind]. unfold applySavedSortPreference.
  cbn [with_page sortSelect page sortOptions].
  by rewrite checkUsername_storage.
Qed.

(** X16: the board survives a reload.  After an accepted submission, a
    page that starts over the store as the submission left it draws the
    same rows and the same summary box as the submission did; it starts
    with the loader shown. *)
Theorem submission_survives_reload (now : Z) (p : Page) (X : list ScoreRecord) :
  some_unanswered (blocks p) = false ->
  trim (usernameInput p) <> [] ->
  holds (storage p) X ->
  exists p',
    handleFormSubmit now p = Some p'
    /\ forall d0, storage (page d0) = storage p' ->
         exists d', init d0 = Some d'
                    /\ scoreRows (page d') = scoreRows p'
                    /\ topScoreBox (page d') = topScoreBox p'
                    /\ storage (page d') = storage p'
                    /\ loadingHidden d' = false /\ questionsHidden d' = true.
Proof.
  intros Hun Hname HX.
  destruct (handleFormSubmit_accepted_page now p X Hun Hname HX)
    as (st' & Hst' & Hkeys & ->).
  eexists. split; [reflexivity|].
  cbn [storage with_buttons with_table with_storage scoreRows topScoreBox].
  intros d0 Hd0. rewrite (init_holds d0 (X ++ [submitted_record now p]))
    by (by rewrite Hd0).
  eexists. split; [reflexivity|].
  cbn [page scoreRows topScoreBox with_table storage loadingHidden questionsHidden].
  rewrite checkUsername_storage, Hd0.
  assert (getSortPreference st' = getSortPreference (storage p)) as ->; [|done].
  apply getSortPreference_scores. by apply Hkeys.
Qed.

Lemma submission_survives_reload_witness :
  exists p',
    handleFormSubmit 5 (sample_page (js "Ann") [sample_block 0 0; sample_block 1 2])
    = Some p'
    /\ exists d',
         init {| page := blank_page (storage p'); loadingHidden := false;
                 questionsHidden := true; sortOptions := [js "newest"];
                 sortSelect := js "newest" |} = Some d'
         /\ scoreRows (page d') = scoreRows p'.
Proof.
  destruct (submission_survives_reload 5
              (sample_page (js "Ann") [sample_block 0 0; sample_block 1 2]) [])
    as (p' & Hp & Hreload).
  - by vm_compute.
  - by vm_compute.
  - by apply holds_empty.
  - exists p'. split; [exact Hp|].
    destruct (Hreload {| page := blank_page (storage p'); loadingHidden := false;
                         questionsHidden := true; sortOptions := [js "newest"];
                         sortSelect := js "newest" |} eq_refl)
      as (d' & Hd' & Hrows & _).
    by exists d'.
Defined.

(** X17: New Player starts over and keeps the scores.  The name field and
    the saved name are cleared, the questions are removed and the loader is
    shown, the submit button works again and New Player is hidden; the
    scores, the preference, the board and the result of the last player stay
    as they are.  Until new questions arrive there is nothing to answer: a
    submission is then turned down only for a blank name, and once a name
    has been typed it is accepted and saves a score of 0 out of 0. *)
Theorem new_player_round (d : Document) (X : list ScoreRecord) :
  holds (storage (page d)) X ->
  let d1 := newPlayer d in
  usernameInput (page d1) = []
  /\ getItem "triviaCurrentUser" (storage (page d1)) = None
  /\ blocks (page d1) = []
  /\ submitDisabled (page d1) = false /\ newPlayerHidden (page d1) = true
  /\ loadingHidden d1 = false /\ questionsHidden d1 = true
  /\ holds (storage (page d1)) X
  /\ getSortPreference (storage (page d1)) = getSortPreference (storage (page d))
  /\ scoreRows (page d1) = scoreRows (page d)
  /\ resultSummary (page d1) = resultSummary (page d)
  /\ (forall now, exists d2,
        run [ClickNewPlayer; Submit now] d = Some d2
        /\ alerts (page d2) = alerts (page d) ++ [msg_enter_name]
        /\ storage (page d2) = storage (page d1))
  /\ (forall v now, trim v <> [] -> exists d2,
        run [ClickNewPlayer; TypeName v; Submit now] d = Some d2
        /\ holds (storage (page d2))
             (X ++ [{| name := trim v; correct := 0; total := 0; ts := Some now |}])
        /\ submitDisabled (page d2) = true).
Proof.
  intros HX d1.
  assert (holds (storage (page d1)) X) as HX1.
  { unfold holds. cbn. by rewrite getScoresFromStorage_removed. }
  split_and!; try done.
  - cbn. unfold getItem, removeItem. apply lookup_delete_eq.
  - cbn. by apply getSortPreference_removed.
  - intros now. cbn [run step mbind option_bind]. fold d1.
    rewrite handleFormSubmit_no_name by done.
    cbn [mbind option_bind]. eexists. split; [reflexivity|]. done.
  - intros v now Hv. cbn [run step mbind option_bind]. fold d1.
    set (p2 := onUsernameInput (with_username v (page d1))).
    assert (usernameInput p2 = v /\ blocks p2 = []
            /\ holds (storage p2) X) as (Hname & Hblocks & HX2).
    { unfold p2, onUsernameInput. cbn [usernameInput with_username].
      destruct (trim v) as [|c s] eqn:Htrim; [done|].
      split; [done|]. split; [done|]. unfold holds.
      cbn [storage with_storage with_username].
      by rewrite getScoresFromStorage_other_key. }
    destruct (handleFormSubmit_accepted_page now p2 X) as (st' & Hst' & _ & Hsub).
    + by rewrite Hblocks.
    + by rewrite Hname.
    + done.
    + cbn [page with_page]. rewrite Hsub. cbn [mbind option_bind].
      eexists. split; [reflexivity|].
      cbn [page with_page storage with_buttons with_table with_storage submitDisabled].
      split; [|done].
      unfold submitted_record in Hst'. by rewrite Hname, Hblocks in Hst'.
Qed.

Lemma new_player_round_witness :
  exists d2,
    run [ClickNewPlayer; TypeName (js " Bob "); Submit 9]
      {| page := blank_page (scenario_store (js "newest")); loadingHidden := true;
         questionsHidden := false; sortOptions := [js "newest"];
         sortSelect := js "newest" |} = Some d2
    /\ submitDisabled (page d2) = true.
Proof.
  destruct (new_player_round
              {| page := blank_page (scenario_store (js "newest"));
                 loadingHidden := true; questionsHidden := false;
                 sortOptions := [js "newest"]; sortSelect := js "newest" |}
              (scenario_records 1 2 3))
    as (_ & _ & _ & _ & _ & _ & _ & _ & _ & _ & _ & _ & Hround).
  - apply holds_scenario_store.
  - destruct (Hround (js " Bob ") 9) as (d2 & Hrun & _ & Hdis); [by vm_compute|].
    by exists d2.
Defined.

(** ** What every run preserves *)

Lemma store_ok_other_set k v st :
  k <> "scores" -> k <> "triviaCurrentUser" ->
  store_ok st -> store_ok (setItem k v st).
Proof.
  intros Hk1 Hk2 [(X & HX & Hvalid) Huser]. split.
  - exists X. split; [|done]. unfold holds. by rewrite getScoresFromStorage_other_key.
  - intros u. unfold getItem, setItem. rewrite lookup_insert_ne by done. apply Huser.
Qed.

Lemma store_ok_user_set v st :
  trimmed_name v -> store_ok st -> store_ok (setItem "triviaCurrentUser" v st).
Proof.
  intros Hv [(X & HX & Hvalid) Huser]. split.
  - exists X. split; [|done]. unfold holds. by rewrite getScoresFromStorage_other_key.
  - intros u. unfold getItem, setItem. rewrite lookup_insert_eq. by intros [= <-].
Qed.

Lemma store_ok_user_removed st :
  store_ok st -> store_ok (removeItem "triviaCurrentUser" st).
Proof.
  intros [(X & HX & Hvalid) Huser]. split.
  - exists X. split; [|done]. unfold holds. by rewrite getScoresFromStorage_removed.
  - intros u. unfold getItem, removeItem. by rewrite lookup_delete_eq.
Qed.

Lemma store_ok_scores_removed st :
  store_ok st -> store_ok (removeItem "scores" st).
Proof.
  intros [_ Huser]. split.
  - exists []. split; [|done]. apply holds_empty.
    unfold getItem, removeItem. apply lookup_delete_eq.
  - intros u. unfold getItem, removeItem. rewrite lookup_delete_ne by done.
    apply Huser.
Qed.

Lemma store_ok_displayScores p :
  store_ok (storage p) ->
  exists p', displayScores p = Some p'
             /\ storage p' = storage p /\ blocks p' = blocks p.
Proof.
  intros [(X & HX & _) _]. rewrite (displayScores_board p X HX).
  by eexists.
Qed.

Lemma submitted_record_valid now p :
  page_wf (blocks p) -> trim (usernameInput p) <> [] ->
  valid_record (submitted_record now p).
Proof.
  intros Hwf Hname. unfold valid_record, submitted_record. cbn. split_and!.
  - by apply trimmed_name_trim.
  - lia.
  - pose proof (correctSelections_le (blocks p) (page_wf_one_choice _ Hwf)). lia.
  - done.
Qed.

Lemma handleFormSubmit_ok now p :
  page_wf (blocks p) -> store_ok (storage p) ->
  exists p', handleFormSubmit now p = Some p'
             /\ page_wf (blocks p') /\ store_ok (storage p').
Proof.
  intros Hwf Hst.
  destruct (some_unanswered (blocks p)) eqn:Hun.
  { rewrite handleFormSubmit_unanswered by done. eexists. split; [reflexivity|].
    split; [by apply mark_blocks_wf|done]. }
  destruct (decide (trim (usernameInput p) = [])) as [Hname|Hname].
  { rewrite handleFormSubmit_no_name by done. eexists. split; [reflexivity|].
    split; [by apply mark_blocks_wf|done]. }
  destruct Hst as [(X & HX & Hvalid) Huser].
  destruct (handleFormSubmit_accepted_page now p X Hun Hname HX)
    as (st' & Hst' & Hkeys & ->).
  eexists. split; [reflexivity|].
  cbn [blocks storage with_buttons with_table with_storage with_result with_blocks].
  split; [by apply mark_blocks_wf|]. split.
  - exists (X ++ [submitted_record now p]). split; [done|].
    apply Forall_app. split; [done|].
    apply Forall_cons. split; [|by apply Forall_nil].
    by apply submitted_record_valid.
  - intros u. rewrite Hkeys by done. apply Huser.
Qed.

Lemma step_ok e d :
  document_ok d -> exists d', step e d = Some d' /\ document_ok d'.
Proof.
  intros [Hwf Hst]. destruct e as [v|k|i j|now| |ok|r]; cbn [step].
  - eexists. split; [reflexivity|]. unfold document_ok, onUsernameInput.
    cbn [page with_page usernameInput with_username].
    destruct (trim v) as [|c s] eqn:Hv;
      cbn [blocks storage with_storage with_username].
    + split; [done|]. by apply store_ok_user_removed.
    + split; [done|]. apply store_ok_user_set; [|done].
      rewrite <- Hv. apply trimmed_name_trim. by rewrite Hv.
  - destruct (sortOptions d !! k) as [v|]; [|by exists d].
    unfold onSortChange.
    destruct (store_ok_displayScores
                (with_storage (setItem "scoreSort" v (storage (page d))) (page d)))
      as (p' & -> & Hst' & Hbs').
    { by apply store_ok_other_set. }
    cbn [mbind option_bind]. eexists. split; [reflexivity|].
    unfold document_ok. cbn [page]. rewrite Hst', Hbs'.
    split; [done|]. by apply store_ok_other_set.
  - eexists. split; [reflexivity|]. unfold document_ok.
    cbn [page with_page blocks storage with_blocks].
    split; [by apply check_radio_wf|done].
  - destruct (handleFormSubmit_ok now (page d) Hwf Hst) as (p' & -> & Hwf' & Hst').
    cbn [mbind option_bind]. by eexists.
  - eexists. split; [reflexivity|]. unfold document_ok, newPlayer, fetchQuestions_start.
    cbn [showLoading page with_page blocks storage with_blocks with_buttons
         with_storage with_username].
    split; [done|]. by apply store_ok_user_removed.
  - destruct ok; cbn [clearScores].
    + destruct (store_ok_displayScores
                  (with_storage (removeItem "scores" (storage (page d))) (page d)))
        as (p' & -> & Hst' & Hbs').
      { by apply store_ok_scores_removed. }
      cbn [mbind option_bind]. eexists. split; [reflexivity|].
      unfold document_ok. cbn [page with_page]. rewrite Hst', Hbs'.
      split; [done|]. by apply store_ok_scores_removed.
    + cbn [mbind option_bind]. exists d. by destruct d.
  - eexists. split; [reflexivity|]. unfold document_ok.
    destruct r as [qs|qs|]; cbn [fetchQuestions_settle]; rewrite showLoading_page.
    + split; [apply displayQuestions_wf|done].
    + split; [apply displayQuestions_wf|done].
    + done.
Qed.

(** X18: the script keeps the document in order and never fails on it.
    From a document with well-formed question blocks and a store that holds
    valid records and, if any, a trimmed saved name, every sequence of
    events (typing a name, choosing a sort mode or an answer, submitting,
    New Player, Clear Scores, responses to the requests for questions) runs
    to the end, and the document it ends in is such a document again: each
    stored record still has a trimmed name that is not empty, counts with
    [0 <= correct <= total], and a timestamp.  The start of the page runs on
    such a store too. *)
Theorem events_keep_document_ok (es : list Event) (d : Document) :
  document_ok d ->
  (exists d', run es d = Some d' /\ document_ok d')
  /\ (exists d0, init d = Some d0 /\ document_ok d0).
Proof.
  intros Hd. split.
  - revert d Hd. induction es as [|e es IH]; intros d Hd; [by exists d|].
    cbn [run]. destruct (step_ok e d Hd) as (d1 & -> & Hd1).
    cbn [mbind option_bind]. by apply IH.
  - destruct Hd as [Hwf [(X & HX & Hvalid) Huser]].
    rewrite (init_holds d X HX). eexists. split; [reflexivity|].
    unfold document_ok. cbn [page blocks storage with_table].
    rewrite checkUsername_blocks, checkUsername_storage.
    split; [done|]. split; [by exists X|done].
Qed.

Lemma events_keep_document_ok_witness :
  exists d',
    run [Settle (Results [({| question := js "Capital of France?";
                              correct_answer := js "Paris";
                              incorrect_answers := [js "Rome"] |},
                           [js "Rome"; js "Paris"])]);
         TypeName (js " Ann "); Choose 0 1; Submit 5; ClickNewPlayer]
        {| page := blank_page ∅; loadingHidden := false;
           questionsHidden := true; sortOptions := [js "newest"];
           sortSelect := js "newest" |} = Some d'
    /\ document_ok d'.
Proof.
  apply events_keep_document_ok. split.
  - by intros [|i] b.
  - split.
    + exists []. split; [by apply holds_empty|done].
    + by intros v.
Defined.

(** ** The feedback on the answers *)

Lemma filter_filter_and {A} (f g : A -> bool) l :
  List.filter f (List.filter g l) = List.filter (fun x => g x && f x) l.
Proof.
  induction l as [|x l IH]; [done|]. cbn [List.filter].
  destruct (g x); cbn [List.filter andb]; [|done].
  destruct (f x); by rewrite IH.
Qed.

Lemma filter_only {A} (f : A -> bool) l x :
  (length (List.filter f l) <= 1)%nat -> In x l -> f x = true ->
  List.filter f l = [x].
Proof.
  intros Hlen Hin Hx.
  assert (In x (List.filter f l)) as Hf by (by apply List.filter_In).
  destruct (List.filter f l) as [|y [|z t]]; simpl in *; [done| |lia].
  by destruct Hf as [->|[]].
Qed.

Lemma filter_same_position {A} (f : A -> bool) l j k a b :
  (length (List.filter f l) <= 1)%nat ->
  l !! j = Some a -> l !! k = Some b -> f a = true -> f b = true -> j = k.
Proof.
  revert j k. induction l as [|x l IH]; intros j k Hlen Ha Hb Hfa Hfb; [done|].
  cbn [List.filter] in Hlen.
  assert (forall i y, l !! i = Some y -> f y = true -> f x = true -> False) as Hno.
  { intros i y Hy Hfy Hfx. rewrite Hfx in Hlen.
    assert (In y (List.filter f l)) as Hin.
    { apply List.filter_In. split; [|done].
      by apply list_elem_of_In, list_elem_of_lookup_2 with i. }
    destruct (List.filter f l); simpl in *; [done|lia]. }
  destruct j as [|j], k as [|k]; simpl in *.
  - done.
  - injection Ha as ->. by destruct (Hno k b).
  - injection Hb as ->. by destruct (Hno j a).
  - f_equal. apply IH; try done. destruct (f x); simpl in *; lia.
Qed.

Lemma filter_none {A} (f : A -> bool) l :
  (forall x, In x l -> f x = false) -> List.filter f l = [].
Proof.
  induction l as [|x l IH]; intros Hl; [done|]. cbn [List.filter].
  rewrite (Hl x) by (by left). apply IH. intros y Hy. apply Hl. by right.
Qed.

Lemma filter_all {A} (f : A -> bool) l :
  (forall x, In x l -> f x = true) -> List.filter f l = l.
Proof.
  induction l as [|x l IH]; intros Hl; [done|]. cbn [List.filter].
  rewrite (Hl x) by (by left). f_equal. apply IH. intros y Hy. apply Hl. by right.
Qed.

Lemma all_radios_app l1 l2 : all_radios (l1 ++ l2) = all_radios l1 ++ all_radios l2.
Proof. unfold all_radios. by rewrite fmap_app, concat_app. Qed.

(** The radios of the group of question [i] are those of block [i]. *)
Lemma filter_name_block bs i b :
  page_wf bs -> bs !! i = Some b ->
  List.filter (fun r => (r_name r =? i)%nat) (all_radios bs) = b_radios b.
Proof.
  intros Hwf Hb.
  assert (all_radios bs
          = all_radios (take i bs) ++ b_radios b ++ all_radios (drop (S i) bs)) as ->.
  { rewrite <- (take_drop_middle bs i b Hb) at 1.
    by rewrite all_radios_app, all_radios_cons. }
  rewrite !List.filter_app.
  rewrite (filter_none _ (all_radios (take i bs))), (filter_all _ (b_radios b)),
    (filter_none _ (all_radios (drop (S i) bs))).
  - by rewrite app_nil_r.
  - intros r (i' & b' & Hb' & Hr)%list_elem_of_In%elem_of_all_radios.
    rewrite lookup_drop in Hb'.
    destruct (Hwf _ _ Hb') as [Hnames _]. rewrite Forall_forall in Hnames.
    rewrite (Hnames r Hr). apply Nat.eqb_neq. lia.
  - intros r Hr%list_elem_of_In.
    destruct (Hwf _ _ Hb) as [Hnames _]. rewrite Forall_forall in Hnames.
    rewrite (Hnames r Hr). apply Nat.eqb_refl.
  - intros r (i' & b' & Hb' & Hr)%list_elem_of_In%elem_of_all_radios.
    apply lookup_take_Some in Hb' as [Hb' Hi'].
    destruct (Hwf _ _ Hb') as [Hnames _]. rewrite Forall_forall in Hnames.
    rewrite (Hnames r Hr). apply Nat.eqb_neq. lia.
Qed.

Lemma radio_name_lt bs r : page_wf bs -> r ∈ all_radios bs -> (r_name r < length bs)%nat.
Proof.
  intros Hwf (i & b & Hb & Hr)%elem_of_all_radios.
  destruct (Hwf _ _ Hb) as [Hnames _]. rewrite Forall_forall in Hnames.
  rewrite (Hnames r Hr). by eapply lookup_lt_Some.
Qed.

(** On well-formed blocks at most one radio of a group is checked. *)
Lemma group_one_checked bs i :
  page_wf bs ->
  (length (List.filter (fun r => (r_name r =? i)%nat && r_checked r)
             (all_radios bs)) <= 1)%nat.
Proof.
  intros Hwf. rewrite <- filter_filter_and.
  destruct (bs !! i) as [b|] eqn:Hb.
  - rewrite (filter_name_block _ _ _ Hwf Hb). by apply (Hwf i b).
  - rewrite (filter_none _ (all_radios bs)); [simpl; lia|].
    intros r Hr%list_elem_of_In. apply Nat.eqb_neq.
    pose proof (radio_name_lt _ _ Hwf Hr). apply lookup_ge_None in Hb. lia.
Qed.

Lemma filter_name_split {A} (nm : A -> nat) (f : A -> bool) l m :
  length (List.filter (fun r => (nm r <? S m)%nat && f r) l)
  = (length (List.filter (fun r => (nm r <? m)%nat && f r) l)
     + length (List.filter (fun r => (nm r =? m)%nat && f r) l))%nat.
Proof.
  induction l as [|x l IH]; [done|]. cbn [List.filter].
  destruct (Nat.ltb_spec (nm x) (S m)), (Nat.ltb_spec (nm x) m),
    (Nat.eqb_spec (nm x) m); try lia; destruct (f x); cbn [andb length]; lia.
Qed.

Lemma selected_input_Some bs i s :
  selected_input bs i = Some s ->
  exists r, all_radios bs !! s = Some r /\ r_name r = i /\ r_checked r = true.
Proof.
  unfold selected_input. intros ([s' r] & Hfind & [= ->])%fmap_Some.
  apply list_find_Some in Hfind as (Hr & [Hn%Nat.eqb_eq Hc]%andb_true_iff & _).
  by exists r.
Qed.

Lemma correct_input_Some bs i k :
  correct_input bs i = Some k ->
  exists r, all_radios bs !! k = Some r /\ r_name r = i /\ r_correct r = true.
Proof.
  unfold correct_input. intros ([k' r] & Hfind & [= ->])%fmap_Some.
  apply list_find_Some in Hfind as (Hr & [Hn%Nat.eqb_eq Hc]%andb_true_iff & _).
  by exists r.
Qed.

Lemma answered_selected_input bs i :
  answered bs i = true -> exists s, selected_input bs i = Some s.
Proof.
  unfold answered, selected_radio, selected_input.
  destruct (List.find _ _) as [r|] eqn:Hfind; [|done]. intros _.
  apply List.find_some in Hfind as [Hin Hr].
  destruct (list_find_elem_of
              (fun r => (r_name r =? i)%nat && r_checked r = true)
              (all_radios bs) r) as [[s r'] Hs]; [by apply list_elem_of_In|done|].
  exists s. by rewrite Hs.
Qed.

Lemma all_answered bs i :
  some_unanswered bs = false -> (i < length bs)%nat -> answered bs i = true.
Proof.
  unfold some_unanswered. intros Hex Hi.
  destruct (answered bs i) eqn:Ha; [done|].
  assert (existsb (fun i => negb (answered bs i)) (seq 0 (length bs)) = true) as Ht.
  { apply existsb_exists. exists i. split; [apply in_seq; lia|by rewrite Ha]. }
  congruence.
Qed.

(** Whether the chosen input of a question is its correct input. *)
Lemma selected_is_correct_input bs i s r :
  unique_correct bs ->
  selected_input bs i = Some s -> all_radios bs !! s = Some r ->
  Some s = correct_input bs i <-> r_correct r = true.
Proof.
  intros Huniq Hsel Hr.
  destruct (selected_input_Some _ _ _ Hsel) as (r' & Hr' & Hname & Hchecked).
  rewrite Hr in Hr'. injection Hr' as <-. split.
  - intros Hc. symmetry in Hc.
    destruct (correct_input_Some _ _ _ Hc) as (r' & Hr' & _ & Hcorrect).
    rewrite Hr in Hr'. by injection Hr' as <-.
  - intros Hcorrect.
    destruct (list_find_elem_of
                (fun r => (r_name r =? i)%nat && r_correct r = true)
                (all_radios bs) r) as [[k r'] Hk].
    { by eapply list_elem_of_lookup_2. }
    { rewrite Hname, Nat.eqb_refl. by rewrite Hcorrect. }
    unfold correct_input. rewrite Hk. cbn. f_equal.
    apply list_find_Some in Hk as (Hr' & Hp & _).
    apply (filter_same_position _ _ _ _ _ _ (Huniq i) Hr Hr'); [|done].
    rewrite Hname, Nat.eqb_refl. by rewrite Hcorrect.
Qed.

(** One question: it counts as correct, or its chosen answer is marked as
    incorrect, and not both. *)
Lemma question_correct_or_marked bs i :
  page_wf bs -> unique_correct bs -> answered bs i = true ->
  (length (List.filter (fun r => (r_name r =? i)%nat && (r_correct r && r_checked r))
             (all_radios bs))
   + length (from_option (fun x => [x]) []
               (match selected_input bs i with
                | Some s =>
                    if bool_decide (Some s = correct_input bs i) then None else Some s
                | None => None
                end)))%nat = 1%nat.
Proof.
  intros Hwf Huniq Hans.
  destruct (answered_selected_input _ _ Hans) as [s Hsel]. rewrite Hsel.
  destruct (selected_input_Some _ _ _ Hsel) as (r & Hr & Hname & Hchecked).
  assert (List.filter (fun r => (r_name r =? i)%nat && r_checked r) (all_radios bs)
          = [r]) as Hone.
  { apply filter_only; [by apply group_one_checked| |].
    - by apply list_elem_of_In, list_elem_of_lookup_2 with s.
    - rewrite Hname, Nat.eqb_refl. by rewrite Hchecked. }
  assert (List.filter (fun r => (r_name r =? i)%nat && (r_correct r && r_checked r))
            (all_radios bs)
          = List.filter r_correct [r]) as ->.
  { rewrite <- Hone, filter_filter_and. apply List.filter_ext. intros x.
    by destruct (r_name x =? i)%nat, (r_correct x), (r_checked x). }
  pose proof (selected_is_correct_input bs i s r Huniq Hsel Hr) as Hiff.
  cbn [List.filter]. destruct (r_correct r) eqn:Hc.
  - rewrite bool_decide_true by (by apply Hiff). done.
  - rewrite bool_decide_false; [done|]. intros Heq. apply Hiff in Heq. done.
Qed.

Lemma omap_length_snoc {A B} (g : A -> option B) l x :
  length (omap g (l ++ [x]))
  = (length (omap g l) + length (from_option (fun y => [y]) [] (g x)))%nat.
Proof.
  rewrite omap_app, length_app. cbn. by destruct (g x).
Qed.

(** The score and the answers marked as incorrect make up the questions. *)
Lemma score_plus_marked bs :
  page_wf bs -> some_unanswered bs = false -> unique_correct bs ->
  (correctSelections bs + length (incorrect_labels bs) = length bs)%nat.
Proof.
  intros Hwf Hun Huniq.
  unfold correctSelections, incorrect_labels.
  assert (forall m, (m <= length bs)%nat ->
            (length (List.filter
                       (fun r => (r_name r <? m)%nat && (r_correct r && r_checked r))
                       (all_radios bs))
             + length (omap (fun i =>
                               match selected_input bs i with
                               | Some s =>
                                   if bool_decide (Some s = correct_input bs i)
                                   then None else Some s
                               | None => None
                               end) (seq 0 m)))%nat = m) as Hupto.
  { induction m as [|m IH]; intros Hm.
    - cbn [seq omap]. rewrite filter_none; [done|]. by intros.
    - rewrite seq_S, omap_length_snoc, filter_name_split. cbn [Nat.add].
      pose proof (question_correct_or_marked bs m Hwf Huniq
                    (all_answered _ _ Hun Hm)) as Hq.
      specialize (IH ltac:(lia)). lia. }
  specialize (Hupto (length bs) ltac:(lia)).
  rewrite (List.filter_ext_in
             (fun r => (r_name r <? length bs)%nat && (r_correct r && r_checked r))
             (fun r => r_correct r && r_checked r)) in Hupto; [done|].
  intros r Hr%list_elem_of_In.
  pose proof (radio_name_lt _ _ Hwf Hr) as Hlt.
  apply Nat.ltb_lt in Hlt. by rewrite Hlt.
Qed.

(** X19: the feedback agrees with the score.  On well-formed blocks with
    an answer to every question and at most one input per question marked
    as correct, the number of correct selections and the number of answers
    whose label is marked as incorrect add up to the number of questions;
    the chosen answer of a question is marked as incorrect exactly when it
    is not a correct input; and no label is marked both ways. *)
Theorem feedback_agrees_with_score (bs : list Block) :
  page_wf bs -> some_unanswered bs = false -> unique_correct bs ->
  (correctSelections bs + length (incorrect_labels bs) = length bs)%nat
  /\ (forall i s r,
        selected_input bs i = Some s -> all_radios bs !! s = Some r ->
        (i < length bs)%nat ->
        (s ∈ incorrect_labels bs <-> r_correct r = false))
  /\ (forall s, ~ (s ∈ correct_labels bs /\ s ∈ incorrect_labels bs)).
Proof.
  intros Hwf Hun Huniq. split; [|split].
  - by apply score_plus_marked.
  - intros i s r Hsel Hr Hi.
    pose proof (selected_is_correct_input bs i s r Huniq Hsel Hr) as Hiff.
    unfold incorrect_labels. rewrite list_elem_of_omap. split.
    + intros (i' & _ & Hi').
      destruct (selected_input bs i') as [s'|] eqn:Hsel'; [|done].
      case_bool_decide as Hc; [done|]. injection Hi' as ->.
      destruct (selected_input_Some _ _ _ Hsel) as (r1 & Hr1 & Hn1 & _).
      destruct (selected_input_Some _ _ _ Hsel') as (r2 & Hr2 & Hn2 & _).
      assert (i' = i) as -> by congruence.
      destruct (r_correct r); [|done]. destruct Hc. by apply Hiff.
    + intros Hc. exists i. split; [apply list_elem_of_In, in_seq; lia|].
      rewrite Hsel. rewrite bool_decide_false; [done|].
      intros Heq. apply Hiff in Heq. congruence.
  - intros s [Hcor Hinc]. unfold correct_labels, incorrect_labels in *.
    apply list_elem_of_omap in Hcor as (i & _ & Hi).
    apply list_elem_of_omap in Hinc as (i' & _ & Hi').
    destruct (selected_input bs i') as [s'|] eqn:Hsel'; [|done].
    case_bool_decide as Hc; [done|]. injection Hi' as ->.
    destruct (correct_input_Some _ _ _ Hi) as (r1 & Hr1 & Hn1 & _).
    destruct (selected_input_Some _ _ _ Hsel') as (r2 & Hr2 & Hn2 & _).
    assert (i' = i) as -> by congruence. by rewrite Hi in Hc.
Qed.

Lemma feedback_agrees_with_score_witness :
  (correctSelections [sample_block 0 0; sample_block 1 2]
   + length (incorrect_labels [sample_block 0 0; sample_block 1 2]) = 2)%nat.
Proof.
  apply (feedback_agrees_with_score [sample_block 0 0; sample_block 1 2]).
  - apply sample_blocks_wf.
  - by vm_compute.
  - intros [|[|i]]; vm_compute; lia.
Defined.

(** ** A round of the quiz *)

Lemma all_radios_marks bs :
  radio_marks <$> all_radios bs
  = concat ((fun b => radio_marks <$> b_radios b) <$> bs).
Proof.
  unfold all_radios. induction bs as [|b bs IH]; [done|].
  rewrite !fmap_cons. cbn [concat]. by rewrite fmap_app, IH.
Qed.

Lemma check_radio_marks i j bs :
  radio_marks <$> all_radios (check_radio i j bs) = radio_marks <$> all_radios bs.
Proof.
  rewrite !all_radios_marks. f_equal. unfold check_radio.
  destruct (bs !! i ≫= _) as [target|]; [|done].
  rewrite fmap_imap. rewrite (imap_ext _ (const (fun b => radio_marks <$> b_radios b))).
  { by rewrite imap_const. }
  intros i' b _. unfold compose, const. cbn [b_radios].
  rewrite fmap_imap. rewrite (imap_ext _ (const radio_marks)).
  { by rewrite imap_const. }
  intros j' r _. unfold compose, const.
  by destruct (r_name r =? r_name target)%nat.
Qed.

Lemma choose_all_marks clicks bs :
  radio_marks <$> all_radios (choose_all clicks bs) = radio_marks <$> all_radios bs.
Proof.
  unfold choose_all. induction clicks as [|ij clicks IH] using rev_ind; [done|].
  rewrite foldl_app. cbn [foldl]. by rewrite check_radio_marks.
Qed.

Lemma check_radio_length i j bs : length (check_radio i j bs) = length bs.
Proof.
  unfold check_radio. destruct (bs !! i ≫= _); [|done]. apply length_imap.
Qed.

Lemma choose_all_length clicks bs : length (choose_all clicks bs) = length bs.
Proof.
  unfold choose_all. induction clicks as [|ij clicks IH] using rev_ind; [done|].
  rewrite foldl_app. cbn [foldl]. by rewrite check_radio_length.
Qed.

Lemma choose_all_wf clicks bs : page_wf bs -> page_wf (choose_all clicks bs).
Proof.
  intros Hwf. unfold choose_all.
  induction clicks as [|ij clicks IH] using rev_ind; [done|].
  rewrite foldl_app. cbn [foldl]. by apply check_radio_wf.
Qed.

Lemma filter_marks_length (h : nat * bool -> bool) l :
  length (List.filter (fun r => h (radio_marks r)) l)
  = length (List.filter h (radio_marks <$> l)).
Proof.
  induction l as [|r l IH]; [done|]. rewrite fmap_cons. cbn [List.filter].
  destruct (h (radio_marks r)); cbn [length]; by rewrite IH.
Qed.

Lemma unique_correct_marks bs bs' :
  radio_marks <$> all_radios bs' = radio_marks <$> all_radios bs ->
  unique_correct bs -> unique_correct bs'.
Proof.
  intros Hmarks Huniq i. specialize (Huniq i).
  rewrite (filter_marks_length (fun m => (m.1 =? i)%nat && m.2)) in *.
  by rewrite Hmarks.
Qed.

Lemma correct_input_marks bs bs' i :
  radio_marks <$> all_radios bs' = radio_marks <$> all_radios bs ->
  correct_input bs' i = correct_input bs i.
Proof.
  intros Hmarks. unfold correct_input.
  pose proof (list_find_fmap radio_marks
                (fun m => (m.1 =? i)%nat && m.2 = true) (all_radios bs)) as H1.
  pose proof (list_find_fmap radio_marks
                (fun m => (m.1 =? i)%nat && m.2 = true) (all_radios bs')) as H2.
  rewrite Hmarks, H1 in H2. unfold compose in H2. cbn [radio_marks fst snd] in H2.
  apply (f_equal (fmap fst)) in H2.
  rewrite <- !option_fmap_compose in H2.
  etrans; [|etrans; [symmetry; exact H2|]].
  - by destruct (list_find _ (all_radios bs')) as [[? ?]|].
  - by destruct (list_find _ (all_radios bs)) as [[? ?]|].
Qed.

(** The blocks that [displayQuestions] builds from well shuffled questions
    have one correct input for each question. *)
Lemma displayQuestions_one_correct qs p i :
  Forall well_shuffled qs ->
  length (List.filter (fun r => (r_name r =? i)%nat && r_correct r)
            (all_radios (blocks (displayQuestions qs p))))
  = (if decide (i < length qs)%nat then 1 else 0)%nat.
Proof.
  intros Hqs. rewrite <- filter_filter_and.
  pose proof (displayQuestions_wf qs p) as Hwf.
  destruct (blocks (displayQuestions qs p) !! i) as [b|] eqn:Hb.
  - rewrite (filter_name_block _ _ _ Hwf Hb).
    rewrite displayQuestions_blocks, list_lookup_imap in Hb.
    destruct (qs !! i) as [qa|] eqn:Hqa; [|done]. injection Hb as <-.
    rewrite decide_True by (by eapply lookup_lt_Some).
    cbn [b_radios]. rewrite createAnswerOptions_correct.
    rewrite Forall_forall in Hqs.
    destruct (Hqs qa) as [Hperm Hnotin]; [by eapply list_elem_of_lookup_2|].
    rewrite (filter_length_Permutation _ _ _ Hperm). cbn [List.filter].
    rewrite bool_decide_true by done. cbn [length]. f_equal.
    rewrite filter_none; [done|]. intros a Ha. apply bool_decide_eq_false.
    intros ->. by apply Hnotin, list_elem_of_In.
  - apply lookup_ge_None in Hb.
    rewrite displayQuestions_blocks, length_imap in Hb.
    rewrite decide_False by lia.
    rewrite (filter_none _ (all_radios _)); [done|].
    intros r Hr%list_elem_of_In. apply Nat.eqb_neq.
    pose proof (radio_name_lt _ _ Hwf Hr) as Hlt.
    rewrite displayQuestions_blocks, length_imap in Hlt. lia.
Qed.

Lemma filter_nonempty_find {A} (f : A -> bool) l :
  (1 <= length (List.filter f l))%nat ->
  is_Some (list_find (fun x => f x = true) l).
Proof.
  intros Hlen. destruct (List.filter f l) as [|x l'] eqn:Hf; [simpl in Hlen; lia|].
  assert (In x (List.filter f l)) as [Hin Hx]%List.filter_In by (rewrite Hf; by left).
  apply (list_find_elem_of _ l x); [by apply list_elem_of_In|done].
Qed.

(** X20: a round on well shuffled questions.  When each shuffle is a
    rearrangement of the answers of its question and no correct answer is
    also listed as incorrect, then whatever the player chooses, the blocks
    stay well formed, each question has exactly one input marked as correct
    and its label is the one that gets the class correct, and once every
    question has an answer the score and the number of answers marked as
    incorrect add up to the number of questions. *)
Theorem round_on_shuffled_questions
    (qs : list (Question * list jstring)) (p : Page) (clicks : list (nat * nat)) :
  Forall well_shuffled qs ->
  let bs := choose_all clicks (blocks (displayQuestions qs p)) in
  page_wf bs
  /\ length bs = length qs
  /\ unique_correct bs
  /\ (forall i, (i < length qs)%nat -> is_Some (correct_input bs i))
  /\ correct_labels bs = correct_labels (blocks (displayQuestions qs p))
  /\ length (correct_labels bs) = length qs
  /\ (some_unanswered bs = false ->
      (correctSelections bs + length (incorrect_labels bs) = length qs)%nat).
Proof.
  intros Hqs bs.
  pose proof (choose_all_marks clicks (blocks (displayQuestions qs p))) as Hmarks.
  fold bs in Hmarks.
  assert (page_wf bs) as Hwf by apply choose_all_wf, displayQuestions_wf.
  assert (length bs = length qs) as Hlen.
  { unfold bs. rewrite choose_all_length, displayQuestions_blocks. apply length_imap. }
  assert (unique_correct (blocks (displayQuestions qs p))) as Huniq0.
  { intros i. rewrite (displayQuestions_one_correct qs p i Hqs).
    destruct (decide _); lia. }
  assert (unique_correct bs) as Huniq by (by eapply unique_correct_marks).
  assert (forall i, (i < length qs)%nat -> is_Some (correct_input bs i)) as Hsome.
  { intros i Hi. rewrite (correct_input_marks _ _ i Hmarks).
    unfold correct_input. apply fmap_is_Some.
    apply (filter_nonempty_find (fun r => (r_name r =? i)%nat && r_correct r)).
    rewrite (displayQuestions_one_correct qs p i Hqs), decide_True by done. lia. }
  assert (correct_labels bs = correct_labels (blocks (displayQuestions qs p))) as Hlabels.
  { unfold correct_labels. rewrite Hlen.
    rewrite (displayQuestions_blocks qs p) at 2. rewrite length_imap.
    apply list_omap_ext, Forall2_same_length_lookup. split; [done|].
    intros k i i' Hi Hi'. rewrite Hi in Hi'. injection Hi' as <-.
    apply (correct_input_marks _ _ i Hmarks). }
  split_and!; try done.
  - unfold correct_labels. rewrite Hlen.
    assert (forall m, (m <= length qs)%nat ->
              length (omap (correct_input bs) (seq 0 m)) = m) as Hupto.
    { induction m as [|m IH]; intros Hm; [done|].
      rewrite seq_S, omap_length_snoc, IH by lia. cbn [Nat.add].
      destruct (Hsome m ltac:(lia)) as [k ->]. cbn. lia. }
    by apply Hupto.
  - intros Hun. rewrite <- Hlen. by apply score_plus_marked.
Qed.

Lemma round_on_shuffled_questions_witness :
  let q := {| question := js "Capital of France?"; correct_answer := js "Paris";
              incorrect_answers := [js "Rome"] |} in
  let bs := choose_all [(0, 0); (0, 1)]%nat
              (blocks (displayQuestions [(q, [js "Rome"; js "Paris"])] (blank_page ∅))) in
  (correctSelections bs + length (incorrect_labels bs) = 1)%nat.
Proof.
  intros q bs.
  destruct (round_on_shuffled_questions [(q, [js "Rome"; js "Paris"])]
              (blank_page ∅) [(0, 0); (0, 1)]%nat)
    as (_ & _ & _ & _ & _ & _ & Hsum).
  - apply Forall_cons. split; [|by apply Forall_nil]. split.
    + apply Permutation_swap.
    + cbn. intros Hin. apply list_elem_of_singleton in Hin. by vm_compute in Hin.
  - apply Hsum. by vm_compute.
Defined.

(** ** The board and the store *)

(** X21: the board is drawn from the store alone.  Two pages whose stores
    agree on the scores and on the sort preference get the same rows and the
    same summary box, or the drawing fails on both; what the table showed
    before, the name field and the other entries of the store have no part
    in it.  Nothing but the table and the box is changed, and drawing again
    changes nothing. *)
Theorem board_drawn_from_store_alone (p q : Page) :
  getItem "scores" (storage p) = getItem "scores" (storage q) ->
  getItem "scoreSort" (storage p) = getItem "scoreSort" (storage q) ->
  match displayScores p, displayScores q with
  | Some p', Some q' =>
      scoreRows p' = scoreRows q' /\ topScoreBox p' = topScoreBox q'
      /\ q' = with_table (scoreRows q') (topScoreBox q') q
      /\ displayScores p' = Some p'
  | None, None => True
  | _, _ => False
  end.
Proof.
  intros Hscores Hsort.
  assert (getScoresFromStorage (storage p) = getScoresFromStorage (storage q)) as Hget.
  { unfold getScoresFromStorage. by rewrite Hscores. }
  pose proof (getSortPreference_scores _ _ Hsort) as Hpref.
  destruct (displayScores p) as [p'|] eqn:Hp, (displayScores q) as [q'|] eqn:Hq;
    unfold displayScores in Hp, Hq; rewrite Hget, Hpref in Hp;
    destruct (value_records (getScoresFromStorage (storage q))) as [X|] eqn:HX;
    cbn [mbind option_bind] in Hp, Hq; try done.
  injection Hp as <-. injection Hq as <-.
  cbn [scoreRows topScoreBox with_table]. split_and!; try done.
  unfold displayScores. cbn [storage with_table]. rewrite Hget, HX.
  cbn [mbind option_bind]. by rewrite Hpref.
Qed.

Lemma board_drawn_from_store_alone_witness :
  exists p' q',
    displayScores (blank_page (scenario_store (js "highest"))) = Some p'
    /\ displayScores
         (with_storage (setItem "triviaCurrentUser" (js "Ann")
                          (scenario_store (js "highest")))
            (sample_page (js "Ann") [])) = Some q'
    /\ scoreRows p' = scoreRows q'.
Proof.
  assert (holds (storage (with_storage
                            (setItem "triviaCurrentUser" (js "Ann")
                               (scenario_store (js "highest")))
                            (sample_page (js "Ann") [])))
            (scenario_records 1 2 3)) as HQ.
  { unfold holds. cbn [storage with_storage].
    rewrite getScoresFromStorage_other_key by done. apply holds_scenario_store. }
  pose proof (board_drawn_from_store_alone
                (blank_page (scenario_store (js "highest")))
                (with_storage (setItem "triviaCurrentUser" (js "Ann")
                                 (scenario_store (js "highest")))
                   (sample_page (js "Ann") []))
                ltac:(by vm_compute) ltac:(by vm_compute)) as H.
  rewrite (displayScores_board _ _ HQ) in H |- *.
  rewrite (displayScores_board (blank_page (scenario_store (js "highest")))
             (scenario_records 1 2 3) (holds_scenario_store _)) in H |- *.
  do 2 eexists. split; [reflexivity|]. split; [reflexivity|]. apply H.
Defined.
